(** * Totem kiosk service worker: version-aware cache lifecycle

    A shallow embedding of the service worker of the totem kiosk
    application (the two worker variants stored in [src/unnamed/part_000])
    together with the properties of its cache lifecycle.

    Conventions of the embedding.

    - JavaScript strings are [string]s; every name and URL handled here is
      ASCII, where the order of [Array.prototype.sort] (UTF-16 code units)
      and the order of [String.leb] agree.
    - The worker's global scope ([CACHE_NAME], [CURRENT_VERSION],
      [BASE_PATH]) and the durable [CacheStorage] form the state [SW].
      [CacheStorage] is a list of named caches in creation order, which is
      the order of [caches.keys()] and the order in which [caches.match]
      searches; a [Cache] is a finite map from request URL to response.
    - The host environment (network, clock, connected clients, storage
      health) is the read-only record [Env].
    - An [async] function is a computation [M A]: it threads [SW], may
      reject ([Throw]) and produces the trace of the effects it performed.
      Each handler runs to completion without another task in between;
      the background refresh of the fetch handler, which JavaScript runs
      after the response has been handed out, is a separate computation so
      that other tasks can be placed before it. *)

From Stdlib Require Import Ascii Bool Arith Lia.
From Stdlib Require String.
From stdpp Require Import base option list strings pretty sorting gmap.

(** ** String primitives of the JavaScript code *)

(** [s.startsWith(p)] *)
Definition startsWith (s p : string) : bool := String.prefix p s.

(** [s.includes(p)] *)
Fixpoint includes (s p : string) : bool :=
  String.prefix p s ||
  match s with
  | EmptyString => false
  | String _ t => includes t p
  end.

(** [s.endsWith(p)] *)
Definition endsWith (s p : string) : bool :=
  String.prefix (String.rev p) (String.rev s).

Fixpoint drop_chars (n : nat) (s : string) : string :=
  match n, s with
  | O, _ => s
  | S _, EmptyString => EmptyString
  | S k, String _ t => drop_chars k t
  end.

(** Truthiness of a string value. *)
Definition nonempty (s : string) : bool :=
  match s with EmptyString => false | String _ _ => true end.

(** Truthiness of a value that is a string, [null] or [undefined]. *)
Definition truthy (v : option string) : bool :=
  match v with Some s => nonempty s | None => false end.

(** [v || null] *)
Definition or_null (v : option string) : option string :=
  if truthy v then v else None.

(** [s.replace(/\/$/, '')]: drop one trailing slash. *)
Definition strip_trailing_slash (s : string) : string :=
  match String.rev s with
  | String c r => if Ascii.eqb c "/" then String.rev r else s
  | EmptyString => s
  end.

Fixpoint drop_through_slash (r : string) : option string :=
  match r with
  | EmptyString => None
  | String c t => if Ascii.eqb c "/" then Some t else drop_through_slash t
  end.

(** [s.replace(/\/[^/]*$/, '')]: drop the last slash and what follows it. *)
Definition strip_last_segment (s : string) : string :=
  match drop_through_slash (String.rev s) with
  | Some r => String.rev r
  | None => s
  end.

(** Line terminators, which the regular expression atom [.] refuses. *)
Definition line_terminator (c : ascii) : bool :=
  Ascii.eqb c "010" || Ascii.eqb c "013".

Fixpoint dot_plus (s : string) : string :=
  match s with
  | EmptyString => EmptyString
  | String c t => if line_terminator c then EmptyString else String c (dot_plus t)
  end.

Definition PREFIX : string := "totem-cache-".

(** [s.match(/totem-cache-(.+)/)], giving the first capture group: the
    leftmost occurrence of the prefix that is followed by at least one
    character other than a line terminator, and the longest run of such
    characters after it. *)
Fixpoint match_version (s : string) : option string :=
  let here :=
    if String.prefix PREFIX s
    then let cap := dot_plus (drop_chars (String.length PREFIX) s) in
         if nonempty cap then Some cap else None
    else None in
  match here with
  | Some cap => Some cap
  | None =>
      match s with
      | EmptyString => None
      | String _ t => match_version t
      end
  end.

Definition lower (c : ascii) : ascii :=
  let n := nat_of_ascii c in
  if Nat.leb 65 n && Nat.leb n 90 then ascii_of_nat (n + 32) else c.

Fixpoint lowercase (s : string) : string :=
  match s with
  | EmptyString => EmptyString
  | String c t => String (lower c) (lowercase t)
  end.

(** [url.match(/\.(mp4|webm|ogg|mp3|wav|avi|mov)$/i)] *)
Definition is_media (url : string) : bool :=
  existsb (endsWith (lowercase url))
    [".mp4"; ".webm"; ".ogg"; ".mp3"; ".wav"; ".avi"; ".mov"].

(** [names.sort()]: the default comparator orders strings by code unit. *)
Definition sort (names : list string) : list string :=
  merge_sort String.le names.

(** ** Data model *)

(** The body of a response: either the version descriptor
    [{ "version": ... }] (the field may be missing) or any other content,
    on which [response.json()] followed by [.version] fails. *)
Inductive Body :=
| Opaque (text : string)
| Descriptor (version : option string).

Record Response := { status : nat; body : Body }.

(** [response.ok] *)
Definition ok (r : Response) : bool :=
  Nat.leb 200 (status r) && Nat.leb (status r) 299.

(** A partial response, the answer to a request for a range. It is [ok],
    and [Cache.put], [Cache.add] and [Cache.addAll] refuse it. *)
Definition partial (r : Response) : bool := Nat.eqb (status r) 206.

Record Request := { method : string; url : string; pathname : string }.

Inductive Message :=
| CACHE_UPDATED (version : string)
| CACHE_UPDATE_FAILED (error : string)
| UPDATE_AVAILABLE (version : string)
| CACHE_UPDATE_COMPLETE (version : string).

(** Effects visible outside the worker's own variables. *)
Inductive Event :=
| Fetched (url : string)
| Keys
| Opened (name : string)
| Deleted (name : string)
| Put (name key : string)
| Matched (key : string)
| MatchedIn (name key : string)
| AssignCacheName (name : string)
| AssignVersion (version : string)
| PostClient (client : nat) (m : Message)
| PostPort (m : Message)
| SkipWaiting
| Claim.

Abbreviation Cache := (gmap string Response).
Abbreviation CacheStorage := (list (string * Cache)).

Record SW := {
  CACHE_NAME : string;
  CURRENT_VERSION : option string;
  BASE_PATH : option string;
  caches : CacheStorage
}.

(** The globals as the script initialises them when the worker starts, over
    the storage [s] that it finds. *)
Definition started (s : CacheStorage) : SW :=
  {| CACHE_NAME := "totem-cache-v9"; CURRENT_VERSION := None;
     BASE_PATH := None; caches := s |}.

(** Which of the durable-storage operations reject. *)
Record Storage := {
  keys_rejects : bool;
  open_rejects : bool;
  delete_rejects : bool;
  match_rejects : bool;
  put_rejects : bool
}.

Record Env := {
  net : string → option Response;   (* [None]: the fetch rejects *)
  now : N;                           (* [Date.now()] *)
  clients : list nat;                (* [self.clients.matchAll()] *)
  scope_pathname : option string;    (* path of [self.registration.scope] *)
  location_pathname : option string; (* [self.location.pathname] *)
  origin : string;                   (* against which URLs are resolved *)
  storage : Storage
}.

Definition healthy : Storage :=
  {| keys_rejects := false; open_rejects := false; delete_rejects := false;
     match_rejects := false; put_rejects := false |}.

(** [cache.put(key, r)] rejects: the storage fails, or [r] is partial. *)
Definition put_fails (env : Env) (r : Response) : bool :=
  put_rejects (storage env) || partial r.

(** ** Cache storage *)

Definition keys_of (s : CacheStorage) : list string := s.*1.

Definition has_cache (s : CacheStorage) (name : string) : bool :=
  bool_decide (name ∈ keys_of s).

Fixpoint lookup_cache (s : CacheStorage) (name : string) : option Cache :=
  match s with
  | [] => None
  | (n, c) :: rest => if bool_decide (n = name) then Some c else lookup_cache rest name
  end.

(** [caches.open(name)] creates the cache when it is missing. *)
Definition open_cache (s : CacheStorage) (name : string) : CacheStorage :=
  if has_cache s name then s else s ++ [(name, ∅)].

Definition delete_cache (s : CacheStorage) (name : string) : CacheStorage :=
  List.filter (λ nc, negb (bool_decide (nc.1 = name))) s.

(** [cache.put(key, r)] through a handle on the cache called [name]; when
    that cache has been deleted meanwhile the write is lost. *)
Fixpoint put_entry (s : CacheStorage) (name key : string) (r : Response)
  : CacheStorage :=
  match s with
  | [] => []
  | (n, c) :: rest =>
      if bool_decide (n = name) then (n, <[key := r]> c) :: rest
      else (n, c) :: put_entry rest name key r
  end.

(** [caches.match(key)]: the first cache, in key order, holding [key]. *)
Fixpoint match_any (s : CacheStorage) (key : string) : option (string * Response) :=
  match s with
  | [] => None
  | (n, c) :: rest =>
      match c !! key with
      | Some r => Some (n, r)
      | None => match_any rest key
      end
  end.

(** ** Computations *)

Inductive Res (A : Type) :=
| Ok (a : A)
| Throw (e : string).
Arguments Ok {A} a.
Arguments Throw {A} e.

Definition M (A : Type) : Type := SW → Res A * SW * list Event.

Definition ret {A} (a : A) : M A := λ w, (Ok a, w, []).

Definition bind {A B} (m : M A) (k : A → M B) : M B := λ w,
  match m w with
  | (Ok a, w1, t1) => let '(r, w2, t2) := k a w1 in (r, w2, t1 ++ t2)
  | (Throw e, w1, t1) => (Throw e, w1, t1)
  end.

Definition throw {A} (e : string) : M A := λ w, (Throw e, w, []).

(** [try { m } catch (e) { h e }] *)
Definition try_catch {A} (m : M A) (h : string → M A) : M A := λ w,
  match m w with
  | (Ok a, w1, t1) => (Ok a, w1, t1)
  | (Throw e, w1, t1) => let '(r, w2, t2) := h e w1 in (r, w2, t1 ++ t2)
  end.

Definition get : M SW := λ w, (Ok w, w, []).
Definition emit (e : Event) : M unit := λ w, (Ok tt, w, [e]).

Notation "'let!' x := m 'in' k" := (bind m (λ x, k))
  (at level 10, x name, m at level 100, k at level 200).
Notation "'do!' m 'in' k" := (bind m (λ _, k))
  (at level 10, m at level 100, k at level 200).

(** [Promise.allSettled(ps)]: every computation runs, none rejects the
    whole. *)
Fixpoint all_settled {A} (ps : list (M A)) : M (list (Res A)) :=
  match ps with
  | [] => ret []
  | p :: rest => λ w,
      let '(r, w1, t1) := p w in
      let '(rs, w2, t2) := all_settled rest w1 in
      (match rs with
       | Ok l => Ok (r :: l)
       | Throw e => Throw e
       end, w2, t1 ++ t2)
  end.

Definition first_error {A} (rs : list (Res A)) : option string :=
  head (omap (λ r, match r with Throw e => Some e | Ok _ => None end) rs).

Definition values {A} (rs : list (Res A)) : list A :=
  omap (λ r, match r with Ok a => Some a | Throw _ => None end) rs.

(** [Promise.all(ps)]: every computation has been started and runs; the
    whole rejects with the first rejection. *)
Definition promise_all {A} (ps : list (M A)) : M (list A) :=
  let! rs := all_settled ps in
  match first_error rs with
  | Some e => throw e
  | None => ret (values rs)
  end.

(** [for (const x of xs) await f(x)] *)
Fixpoint for_each {A} (xs : list A) (f : A → M unit) : M unit :=
  match xs with
  | [] => ret tt
  | x :: rest => do! f x in for_each rest f
  end.

(** ** The worker *)

Section Worker.
Context (env : Env).

(** *** Host operations *)

(** Keys of a cache are absolute URLs: a root-relative URL is resolved
    against the worker's origin. *)
Definition resolve (u : string) : string :=
  if startsWith u "/" then origin env +:+ u else u.

Definition fetch (u : string) : M Response := λ w,
  match net env (resolve u) with
  | Some r => (Ok r, w, [Fetched (resolve u)])
  | None => (Throw "Failed to fetch", w, [Fetched (resolve u)])
  end.

(** [response.json()] followed by reading [.version] *)
Definition json_version (r : Response) : M (option string) :=
  match body r with
  | Descriptor v => ret v
  | Opaque _ => throw "Unexpected token"
  end.

Definition set_caches (s : CacheStorage) (w : SW) : SW :=
  {| CACHE_NAME := CACHE_NAME w; CURRENT_VERSION := CURRENT_VERSION w;
     BASE_PATH := BASE_PATH w; caches := s |}.

Definition caches_keys : M (list string) := λ w,
  if keys_rejects (storage env) then (Throw "keys", w, [Keys])
  else (Ok (keys_of (caches w)), w, [Keys]).

(** The handle on an opened cache is its name. *)
Definition caches_open (name : string) : M string := λ w,
  if open_rejects (storage env) then (Throw "open", w, [Opened name])
  else (Ok name, set_caches (open_cache (caches w) name) w, [Opened name]).

Definition caches_delete (name : string) : M bool := λ w,
  if delete_rejects (storage env) then (Throw "delete", w, [Deleted name])
  else (Ok (has_cache (caches w) name),
        set_caches (delete_cache (caches w) name) w, [Deleted name]).

Definition cache_put (cache key : string) (r : Response) : M unit := λ w,
  if put_fails env r then (Throw "put", w, [Put cache (resolve key)])
  else (Ok tt, set_caches (put_entry (caches w) cache (resolve key) r) w,
        [Put cache (resolve key)]).

Definition caches_match (key : string) : M (option Response) := λ w,
  if match_rejects (storage env) then (Throw "match", w, [Matched (resolve key)])
  else (Ok (snd <$> match_any (caches w) (resolve key)), w,
        [Matched (resolve key)]).

Definition cache_match (cache key : string) : M (option Response) := λ w,
  if match_rejects (storage env)
  then (Throw "match", w, [MatchedIn cache (resolve key)])
  else (Ok (lookup_cache (caches w) cache ≫= (.!! resolve key)), w,
        [MatchedIn cache (resolve key)]).

Definition assign_CACHE_NAME (name : string) : M unit := λ w,
  (Ok tt,
   {| CACHE_NAME := name; CURRENT_VERSION := CURRENT_VERSION w;
      BASE_PATH := BASE_PATH w; caches := caches w |},
   [AssignCacheName name]).

Definition assign_CURRENT_VERSION (v : string) : M unit := λ w,
  (Ok tt,
   {| CACHE_NAME := CACHE_NAME w; CURRENT_VERSION := Some v;
      BASE_PATH := BASE_PATH w; caches := caches w |},
   [AssignVersion v]).

Definition assign_BASE_PATH (b : string) : M unit := λ w,
  (Ok tt,
   {| CACHE_NAME := CACHE_NAME w; CURRENT_VERSION := CURRENT_VERSION w;
      BASE_PATH := Some b; caches := caches w |},
   []).

(** [clients.forEach(client => client.postMessage(m))] over
    [self.clients.matchAll()] *)
Definition broadcast (m : Message) : M unit := λ w,
  (Ok tt, w, (λ c, PostClient c m) <$> clients env).

(** *** Base path and asset list *)

Definition getBasePath : M string :=
  let! w := get in
  match BASE_PATH w with
  | Some b => ret b
  | None =>
      match scope_pathname env with
      | Some p =>
          let b := strip_trailing_slash p in
          do! assign_BASE_PATH b in ret b
      | None =>
          if truthy (location_pathname env) then
            let b := strip_trailing_slash
                       (strip_last_segment (default "" (location_pathname env))) in
            do! assign_BASE_PATH b in ret b
          else ret ""
      end
  end.

Definition asset_paths : list string :=
  ["/"; "/index.html"; "/style.css"; "/main.js"; "/media/video2.mp4";
   "/media/image2.png"; "/manifest.json"; "/version.json"].

Definition getAssets : M (list string) :=
  let! basePath := getBasePath in
  ret ((λ p, basePath +:+ p) <$> asset_paths).

(** *** Version probe and inventory *)

Definition fetchVersion : M (option string) :=
  try_catch
    (let! basePath := getBasePath in
     let versionUrl := basePath +:+ "/version.json?t=" +:+ pretty (now env) in
     let! response := fetch versionUrl in
     if negb (ok response) then throw "Failed to fetch version"
     else
       let! version := json_version response in
       ret (or_null version))
    (λ _, ret None).

Definition getCachedVersion : M (option string) :=
  try_catch
    (let! cacheNames := caches_keys in
     let totemCaches := List.filter (λ name, startsWith name PREFIX) cacheNames in
     if Nat.eqb (length totemCaches) 0 then ret None
     else
       match head (reverse (sort totemCaches)) with
       | None => throw "latestCache is undefined"
       | Some latestCache =>
           match match_version latestCache with
           | Some version => ret (Some version)
           | None =>
               let! cache := caches_open latestCache in
               let! cachedVersionFile := cache_match cache "/version.json" in
               match cachedVersionFile with
               | Some file =>
                   let! version := json_version file in
                   ret (or_null version)
               | None => ret None
               end
           end
       end)
    (λ _, ret None).

Definition DEFAULT_CACHE_NAME : string := "totem-cache-v1".

Definition initializeCacheName : M unit :=
  let! onlineVersion := fetchVersion in
  if truthy onlineVersion then
    let v := default "" onlineVersion in
    do! assign_CURRENT_VERSION v in
    assign_CACHE_NAME (PREFIX +:+ v)
  else
    let! cachedVersion := getCachedVersion in
    if truthy cachedVersion then
      let v := default "" cachedVersion in
      do! assign_CURRENT_VERSION v in
      assign_CACHE_NAME (PREFIX +:+ v)
    else
      assign_CACHE_NAME DEFAULT_CACHE_NAME.

Definition checkForUpdate : M bool :=
  try_catch
    (let! onlineVersion := fetchVersion in
     if negb (truthy onlineVersion) then ret false
     else
       let! cachedVersion := getCachedVersion in
       if negb (truthy cachedVersion) then ret true
       else ret (negb (bool_decide (onlineVersion = cachedVersion))))
    (λ _, ret false).

(** *** Install and activate *)

(** [asset + (asset.includes('?') ? '&' : '?') + '_v=' + v + '&_t=' + t] *)
Definition cache_bust (asset v : string) (t : N) : string :=
  asset +:+ (if includes asset "?" then "&" else "?") +:+ "_v=" +:+ v
        +:+ "&_t=" +:+ pretty t.

(** [cache.addAll(urls)]: every URL is fetched; one rejection or one
    response that is not [ok], or is partial, rejects the whole and stores
    nothing. *)
Definition cache_addAll (cache : string) (urls : list string) : M unit :=
  let! responses := promise_all (fetch <$> urls) in
  if forallb (λ r, ok r && negb (partial r)) responses
  then for_each (zip urls responses) (λ ur, cache_put cache ur.1 ur.2)
  else throw "Request failed".

(** The per-asset download shared by install and update: fetch with the
    cache-busting URL, store under the original URL. *)
Definition download (cache version : string) (t : N) (asset : string)
  : M (string * bool) :=
  try_catch
    (let! response := fetch (cache_bust asset version t) in
     if ok response then
       do! cache_put cache asset response in
       ret (asset, true)
     else ret (asset, false))
    (λ _, ret (asset, false)).

Definition install : M unit :=
  let! w0 := get in
  do! (if bool_decide (BASE_PATH w0 = None) && truthy (location_pathname env)
       then assign_BASE_PATH
              (strip_trailing_slash
                 (strip_last_segment (default "" (location_pathname env))))
       else ret tt) in
  do! initializeCacheName in
  let! assets := getAssets in
  let! w := get in
  let! cache := caches_open (CACHE_NAME w) in
  let cacheTimestamp := now env in
  let installVersion :=
    if truthy (CURRENT_VERSION w) then default "" (CURRENT_VERSION w)
    else "install" in
  do! try_catch
        (cache_addAll cache assets)
        (λ _,
           let! results :=
             all_settled (download cache installVersion cacheTimestamp <$> assets) in
           ret tt) in
  emit SkipWaiting.

(** The names the activate and update flows delete: prefixed and other
    than [keep]. *)
Definition superseded (keep : string) (names : list string) : list string :=
  List.filter (λ name, startsWith name PREFIX && negb (bool_decide (name = keep)))
              names.

Definition activate : M unit :=
  let! w0 := get in
  do! (if negb (truthy (CURRENT_VERSION w0)) then initializeCacheName else ret tt) in
  let! cacheNames := caches_keys in
  let! w := get in
  let oldCaches := superseded (CACHE_NAME w) cacheNames in
  do! (if Nat.ltb 0 (length oldCaches)
       then let! deleted := promise_all (caches_delete <$> oldCaches) in ret tt
       else ret tt) in
  emit Claim.

(** *** Serving requests *)

(** What the fetch listener does with a request: it returns without
    calling [respondWith], it throws before calling it (the request is
    then left to the browser as well), or it hands a response over. *)
Inductive Served :=
| PassedThrough
| Threw (e : string)
| Responded (r : Response).

Definition offline : Response := {| status := 503; body := Opaque "Offline" |}.
Definition not_found : Response := {| status := 404; body := Opaque "" |}.
Definition server_error : Response := {| status := 500; body := Opaque "Error" |}.

(** [caches.open(CACHE_NAME)] then [cache.put(request, response)]; the
    pointer is read when this runs. *)
Definition store_current (req : Request) (r : Response) : M unit :=
  let! w := get in
  let! cache := caches_open (CACHE_NAME w) in
  cache_put cache (url req) r.

(** The branch for the version descriptor. *)
Definition serve_version (req : Request) : M Response :=
  try_catch
    (let! networkResponse := fetch (url req) in
     do! (if ok networkResponse then store_current req networkResponse
          else ret tt) in
     ret networkResponse)
    (λ _,
       let! cachedResponse := caches_match (url req) in
       match cachedResponse with
       | Some r => ret r
       | None => ret offline
       end).

(** The network path of the cache-first branch, taken when nothing is
    stored for the request. *)
Definition serve_from_network (req : Request) : M (Response * bool) :=
  try_catch
    (let! networkResponse := fetch (url req) in
     do! (if ok networkResponse
          then try_catch (store_current req networkResponse) (λ _, ret tt)
          else ret tt) in
     ret (networkResponse, false))
    (λ _,
       if is_media (url req) then ret (not_found, false)
       else ret (offline, false)).

(** The cache-first branch. The boolean of the result tells that a
    background refresh has been started: its request is issued here, its
    continuation is [background_refresh]. *)
Definition serve_cache_first (req : Request) : M (Response * bool) :=
  try_catch
    (let! cachedResponse := caches_match (url req) in
     match cachedResponse with
     | Some r =>
         do! emit (Fetched (resolve (url req))) in
         ret (r, true)
     | None => serve_from_network req
     end)
    (λ _,
       let! fallbackCache := caches_match (url req) in
       match fallbackCache with
       | Some r => ret (r, false)
       | None => ret (server_error, false)
       end).

(** What runs when the background request of [serve_cache_first]
    settles; nothing of it can reject. *)
Definition background_refresh (req : Request) : M unit :=
  match net env (resolve (url req)) with
  | Some response =>
      if ok response
      then try_catch (store_current req response) (λ _, ret tt)
      else ret tt
  | None => ret tt
  end.

(** The fetch listener. For the favicon it evaluates
    [new Response('', { status: 204 })], which throws a [TypeError]: a
    response with a null-body status takes no body, not even the empty
    string. The listener ends there, before [respondWith]. *)
Definition fetch_handler (req : Request) : M (Served * bool) :=
  if negb (bool_decide (method req = "GET")) then ret (PassedThrough, false)
  else if negb (startsWith (url req) "http") then ret (PassedThrough, false)
  else if endsWith (pathname req) "/favicon.ico"
          || bool_decide (pathname req = "/favicon.ico")
  then ret (Threw "TypeError", false)
  else
    let! basePath := getBasePath in
    if bool_decide (pathname req = basePath +:+ "/version.json")
       || endsWith (pathname req) "/version.json"
    then let! r := serve_version req in ret (Responded r, false)
    else let! rb := serve_cache_first req in ret (Responded rb.1, rb.2).

(** *** Update *)

Definition essentialFiles : list string :=
  ["index.html"; "main.js"; "style.css"; "version.json"].

(** [essentialFiles.some(file => ...)] over the settled downloads *)
Definition hasEssential (assets : list string) (results : list (Res (string * bool)))
  : bool :=
  existsb
    (λ file,
       let asset := List.find (λ a, includes a file) assets in
       existsb
         (λ r, match r with
               | Ok (a, success) => bool_decide (Some a = asset) && success
               | Throw _ => false
               end)
         results)
    essentialFiles.

(** The [try] block of [updateCacheForNewVersion]. *)
Definition update_body (newVersion : string) : M unit :=
  let newCacheName := PREFIX +:+ newVersion in
  let! assets := getAssets in
  let! newCache := caches_open newCacheName in
  let cacheTimestamp := now env in
  let! results :=
    all_settled (download newCache newVersion cacheTimestamp <$> assets) in
  if negb (hasEssential assets results) then
    let! deleted := caches_delete newCacheName in
    ret tt
  else
    do! assign_CACHE_NAME newCacheName in
    do! assign_CURRENT_VERSION newVersion in
    let! allCacheNames := caches_keys in
    let oldCaches := superseded newCacheName allCacheNames in
    let! deleted := promise_all (caches_delete <$> oldCaches) in
    broadcast (CACHE_UPDATED newVersion).

Definition updateCacheForNewVersion (newVersion : string) : M unit :=
  try_catch
    (update_body newVersion)
    (λ error, broadcast (CACHE_UPDATE_FAILED error)).

End Worker.

(** *** Messages from clients *)

Inductive ClientData :=
| CHECK_VERSION
| UPDATE_VERSION (version : option string)
| Unrecognised.

(** The handler of [CHECK_VERSION]. It probes the remote version twice:
    inside [checkForUpdate], and again once that has answered true, each
    request with the clock of its moment. [env] is the world at the first
    probe, [later] the world (network, clock, clients) from the second
    probe on. The version of the second probe is the one the cache is
    updated to; it is not compared with the inventory again. *)
Definition check_version (env later : Env) : M unit :=
  let! hasUpdate := checkForUpdate env in
  if hasUpdate then
    let! onlineVersion := fetchVersion later in
    if truthy onlineVersion then
      do! updateCacheForNewVersion later (default "" onlineVersion) in
      broadcast later (UPDATE_AVAILABLE (default "" onlineVersion))
    else ret tt
  else ret tt.

(** The message listener in a world that stays as [env] is while the
    message is handled; [port] tells whether the message came with a reply
    port. *)
Definition message_handler (env : Env) (data : ClientData) (port : bool) : M unit :=
  match data with
  | CHECK_VERSION => check_version env env
  | UPDATE_VERSION version =>
      if truthy version then
        let newVersion := default "" version in
        do! updateCacheForNewVersion env newVersion in
        if port then emit (PostPort (CACHE_UPDATE_COMPLETE newVersion))
        else ret tt
      else ret tt
  | Unrecognised => ret tt
  end.


(** ** The older worker variant

    The second worker of [src/unnamed/part_000] shares the probe, the
    inventory, the resolution and the handlers' structure with the first;
    its update has no gate and deletes one generation only. *)
Module Legacy.

(** The globals as the older script initialises them. *)
Definition started (s : CacheStorage) : SW :=
  {| CACHE_NAME := "totem-cache-v3"; CURRENT_VERSION := None;
     BASE_PATH := None; caches := s |}.

Section Worker.
Context (env : Env).

Definition asset_paths : list string :=
  ["/"; "/index.html"; "/style.css"; "/main.js"; "/media/video1.mp4";
   "/media/image1.png"; "/manifest.json"; "/version.json"].

Definition getAssets : M (list string) :=
  let! basePath := getBasePath env in
  ret ((λ p, basePath +:+ p) <$> asset_paths).

Definition updateCacheForNewVersion (newVersion : string) : M unit :=
  try_catch
    (let newCacheName := PREFIX +:+ newVersion in
     let! newCache := caches_open env newCacheName in
     let! assets := getAssets in
     do! for_each assets
           (λ asset,
              try_catch
                (let! response := fetch env asset in
                 if ok response then cache_put env newCache asset response
                 else ret tt)
                (λ _, ret tt)) in
     let! w := get in
     let oldCacheName := CACHE_NAME w in
     do! assign_CACHE_NAME newCacheName in
     do! assign_CURRENT_VERSION newVersion in
     let! deleted := caches_delete env oldCacheName in
     broadcast env (CACHE_UPDATED newVersion))
    (λ _, ret tt).

(** The cache-first branch of the older handler: [caches.match] runs
    outside any [try]; on a miss the write is inside the [try] of the
    network request, opening the cache awaited, the [put] not. *)
Definition serve_cache_first (req : Request) : M (Response * bool) :=
  let! cachedResponse := caches_match env (url req) in
  match cachedResponse with
  | Some r =>
      do! emit (Fetched (resolve env (url req))) in
      ret (r, true)
  | None =>
      try_catch
        (let! networkResponse := fetch env (url req) in
         do! (if ok networkResponse then
                let! w := get in
                let! cache := caches_open env (CACHE_NAME w) in
                try_catch (cache_put env cache (url req) networkResponse)
                          (λ _, ret tt)
              else ret tt) in
         ret (networkResponse, false))
        (λ _, ret (offline, false))
  end.

Definition fetch_handler (req : Request) : M (Served * bool) :=
  if negb (bool_decide (method req = "GET")) then ret (PassedThrough, false)
  else if negb (startsWith (url req) "http") then ret (PassedThrough, false)
  else
    let! basePath := getBasePath env in
    if bool_decide (pathname req = basePath +:+ "/version.json")
       || endsWith (pathname req) "/version.json"
    then let! r := serve_version env req in ret (Responded r, false)
    else let! rb := serve_cache_first req in ret (Responded rb.1, rb.2).

(** [cache.add(url)]: fetch, reject unless the response is [ok] and not
    partial, store. *)
Definition cache_add (cache url : string) : M unit :=
  let! response := fetch env url in
  if ok response && negb (partial response)
  then cache_put env cache url response
  else throw "Request failed".

(** The older install: when [cache.addAll] rejects, the assets are added
    one after the other with [cache.add], under their plain URLs. *)
Definition install : M unit :=
  let! w0 := get in
  do! (if bool_decide (BASE_PATH w0 = None) && truthy (location_pathname env)
       then assign_BASE_PATH
              (strip_trailing_slash
                 (strip_last_segment (default "" (location_pathname env))))
       else ret tt) in
  do! initializeCacheName env in
  let! assets := getAssets in
  let! w := get in
  let! cache := caches_open env (CACHE_NAME w) in
  do! try_catch
        (cache_addAll env cache assets)
        (λ _,
           for_each assets
             (λ asset, try_catch (cache_add cache asset) (λ _, ret tt))) in
  emit SkipWaiting.

(** The older activate deletes without asking first whether there is
    anything to delete. *)
Definition activate : M unit :=
  let! w0 := get in
  do! (if negb (truthy (CURRENT_VERSION w0)) then initializeCacheName env
       else ret tt) in
  let! cacheNames := caches_keys env in
  let! w := get in
  let oldCaches := superseded (CACHE_NAME w) cacheNames in
  let! deleted := promise_all (caches_delete env <$> oldCaches) in
  emit Claim.
End Worker.
End Legacy.

(** ** The minimal worker

    [src/service-worker.js]: one fixed cache name, a fixed asset list under
    the root, no version handling. In its install and activate handlers
    [skipWaiting] and [clients.claim] are called while the promise handed
    to [waitUntil] is still pending, so they come before its effects. *)
Module Minimal.
Section Worker.
Context (env : Env).

Definition CACHE_NAME : string := "totem-cache-v1".

Definition ASSETS : list string :=
  ["/"; "/index.html"; "/style.css"; "/main.js"; "/media/video1.mp4";
   "/media/image1.png"; "/manifest.json"].

Definition install : M unit :=
  do! emit SkipWaiting in
  let! cache := caches_open env CACHE_NAME in
  cache_addAll env cache ASSETS.

Definition activate : M unit :=
  do! emit Claim in
  let! keys := caches_keys env in
  let! deleted :=
    promise_all
      (caches_delete env
         <$> List.filter (λ k, negb (bool_decide (k = CACHE_NAME))) keys) in
  ret tt.

(** [new Response("Offline")]: the status defaults to 200. *)
Definition offline : Response := {| status := 200; body := Opaque "Offline" |}.

(** [caches.match(request)]: the storage is searched under the request's
    URL, and nothing is found for a request whose method is not GET. This
    worker hands every request to it, whatever its method. *)
Definition match_request (req : Request) : M (option Response) :=
  let! found := caches_match env (url req) in
  ret (if bool_decide (method req = "GET") then found else None).

(** The boolean of the result tells that a background refresh has been
    started: its request is issued here, its continuation is
    [background_refresh]. *)
Definition fetch_handler (req : Request) : M (Response * bool) :=
  let! resp := match_request req in
  match resp with
  | Some r =>
      do! emit (Fetched (resolve env (url req))) in
      ret (r, true)
  | None =>
      try_catch
        (let! r := fetch env (url req) in ret (r, false))
        (λ _, ret (offline, false))
  end.

(** What runs when the background request settles. The promise of
    [caches.open(...).then(...)] is not returned, so its rejection reaches
    nobody. *)
Definition background_refresh (req : Request) : M unit :=
  match net env (resolve env (url req)) with
  | Some update =>
      if ok update
      then try_catch
             (let! c := caches_open env CACHE_NAME in
              cache_put env c (url req) update)
             (λ _, ret tt)
      else ret tt
  | None => ret tt
  end.

End Worker.
End Minimal.

(** * Vocabulary of the properties *)

Definition result {A} (x : Res A * SW * list Event) : Res A := x.1.1.
Definition state {A} (x : Res A * SW * list Event) : SW := x.1.2.
Definition trace {A} (x : Res A * SW * list Event) : list Event := x.2.

(** Two states with the same pointer and the same durable storage; the
    memoised base path may differ. *)
Definition same_core (w w' : SW) : Prop :=
  CACHE_NAME w' = CACHE_NAME w ∧ CURRENT_VERSION w' = CURRENT_VERSION w
  ∧ caches w' = caches w.


(** The base path the worker computes in state [w]. *)
Definition base_path (env : Env) (w : SW) : string :=
  match result (getBasePath env w) with
  | Ok b => b
  | Throw _ => ""
  end.

(** The URL of the version probe in state [w]. *)
Definition version_url (env : Env) (w : SW) : string :=
  resolve env (base_path env w +:+ "/version.json?t=" +:+ pretty (now env)).

(** What the probe makes of the network's answer. *)
Definition remote_version (env : Env) (w : SW) : option string :=
  match net env (version_url env w) with
  | Some r =>
      if ok r then
        match body r with
        | Descriptor v => or_null v
        | Opaque _ => None
        end
      else None
  | None => None
  end.

(** The greatest name carrying the prefix: [totemCaches.sort().reverse()[0]]. *)
Definition latest (s : CacheStorage) : option string :=
  head (reverse (sort (List.filter (λ name, startsWith name PREFIX) (keys_of s)))).

(** The version field of a stored descriptor, as the fallback reads it. *)
Definition stored_version (entry : option Response) : option string :=
  match entry with
  | Some {| body := Descriptor v |} => or_null v
  | _ => None
  end.

(** What the inventory makes of the stored generations: the capture of the
    greatest prefixed name, else the descriptor stored in that generation;
    unknown when a storage operation it needs rejects. *)
Definition local_version (env : Env) (s : CacheStorage) : option string :=
  if keys_rejects (storage env) then None
  else
    match latest s with
    | None => None
    | Some name =>
        match match_version name with
        | Some v => Some v
        | None =>
            if open_rejects (storage env) || match_rejects (storage env) then None
            else stored_version
                   (lookup_cache s name ≫= (.!! resolve env "/version.json"))
        end
    end.

(** What a download phase into the cache [c] leaves alone: the pointer, the
    base path, the names of the stored generations and every generation
    other than [c]. *)
Definition stable (c : string) (w w' : SW) : Prop :=
  CACHE_NAME w' = CACHE_NAME w ∧ CURRENT_VERSION w' = CURRENT_VERSION w
  ∧ BASE_PATH w' = BASE_PATH w
  ∧ keys_of (caches w') = keys_of (caches w)
  ∧ delete_cache (caches w') c = delete_cache (caches w) c.

(** Requests to the network and writes of entries. *)
Definition is_transfer (e : Event) : Prop :=
  match e with
  | Fetched _ | Put _ _ => True
  | _ => False
  end.

(** The pointer that [initializeCacheName] installs. *)
Definition resolved (env : Env) (w : SW) : string * option string :=
  match remote_version env w with
  | Some v => (PREFIX +:+ v, Some v)
  | None =>
      match local_version env (caches w) with
      | Some v => (PREFIX +:+ v, Some v)
      | None => (DEFAULT_CACHE_NAME, CURRENT_VERSION w)
      end
  end.

(** The state in which the install handler resolves the generation name:
    the base path has been taken from the worker's location when it was
    not known yet. *)
Definition install_start (env : Env) (w : SW) : SW :=
  if bool_decide (BASE_PATH w = None) && truthy (location_pathname env)
  then state (assign_BASE_PATH
                (strip_trailing_slash
                   (strip_last_segment (default "" (location_pathname env)))) w)
  else w.

(** The storage after [Promise.all(names.map(name => caches.delete(name)))]. *)
Definition delete_all (env : Env) (s : CacheStorage) (names : list string)
  : CacheStorage :=
  if delete_rejects (storage env) then s else foldl delete_cache s names.

(** The update up to its gate: the asset list, the new generation, the
    downloads, and whether an essential file arrived. *)
Definition update_gate (env : Env) (newVersion : string) : M bool :=
  let! assets := getAssets env in
  let! newCache := caches_open env (PREFIX +:+ newVersion) in
  let! results :=
    all_settled (download env newCache newVersion (now env) <$> assets) in
  ret (hasEssential assets results).

(** What follows a failed gate. *)
Definition update_abort (env : Env) (newVersion : string) : M unit :=
  let! deleted := caches_delete env (PREFIX +:+ newVersion) in
  ret tt.

(** What follows a passed gate. *)
Definition update_commit (env : Env) (newVersion : string) : M unit :=
  do! assign_CACHE_NAME (PREFIX +:+ newVersion) in
  do! assign_CURRENT_VERSION newVersion in
  let! allCacheNames := caches_keys env in
  let! deleted :=
    promise_all (caches_delete env <$> superseded (PREFIX +:+ newVersion) allCacheNames) in
  broadcast env (CACHE_UPDATED newVersion).

(** An [await] suspends the update, and the steps of other tasks run
    before it resumes. Between the reassignment of the pointer and the
    deletions the update is suspended at [await caches.keys()].
    [update_to_commit] is the update up to that suspension, inside its
    [try]; its result tells whether the update goes on. [update_sweep] is
    what runs when the update resumes: the names are listed as they are
    then, and the ones to delete are chosen against the update's own
    [newCacheName], not against the pointer. *)
Definition update_to_commit (env : Env) (newVersion : string) : M bool :=
  try_catch
    (let! passed := update_gate env newVersion in
     if negb passed then
       do! update_abort env newVersion in
       ret false
     else
       do! assign_CACHE_NAME (PREFIX +:+ newVersion) in
       do! assign_CURRENT_VERSION newVersion in
       ret true)
    (λ error,
       do! broadcast env (CACHE_UPDATE_FAILED error) in
       ret false).

Definition update_sweep (env : Env) (newVersion : string) : M unit :=
  try_catch
    (let! allCacheNames := caches_keys env in
     let! deleted :=
       promise_all
         (caches_delete env <$> superseded (PREFIX +:+ newVersion) allCacheNames) in
     broadcast env (CACHE_UPDATED newVersion))
    (λ error, broadcast env (CACHE_UPDATE_FAILED error)).

(** Two updates in flight at once, as two [UPDATE_VERSION] messages, or a
    [CHECK_VERSION] and an [UPDATE_VERSION], start them: the second
    reaches its suspension while the first is suspended, then the first
    resumes, then the second. *)
Definition overlapping_updates (env : Env) (v1 v2 : string) : M unit :=
  let! first_goes_on := update_to_commit env v1 in
  let! second_goes_on := update_to_commit env v2 in
  do! (if first_goes_on then update_sweep env v1 else ret tt) in
  if second_goes_on then update_sweep env v2 else ret tt.

(** The name the pointer holds after the effects [t], from [ptr]. *)
Definition pointer_at (ptr : string) (t : list Event) : string :=
  foldl (λ p e, match e with AssignCacheName n => n | _ => p end) ptr t.

(** Replaying a trace from the pointer [ptr]: no [caches.delete] names the
    generation the pointer names at that moment. *)
Fixpoint pointer_safe (ptr : string) (t : list Event) : bool :=
  match t with
  | [] => true
  | AssignCacheName n :: rest => pointer_safe n rest
  | Deleted n :: rest => negb (bool_decide (n = ptr)) && pointer_safe ptr rest
  | _ :: rest => pointer_safe ptr rest
  end.

(** The handler routes a GET request for the descriptor path to
    [serve_version]. *)
Definition version_request (env : Env) (w : SW) (req : Request) : Prop :=
  method req = "GET"
  ∧ startsWith (url req) "http" = true
  ∧ endsWith (pathname req) "/favicon.ico" = false
  ∧ (pathname req = base_path env w +:+ "/version.json"
     ∨ endsWith (pathname req) "/version.json" = true).

(** The entry stored for [key] in the cache called [name]. *)
Definition entry (s : CacheStorage) (name key : string) : option Response :=
  lookup_cache s name ≫= (.!! key).

(** What the download of [asset] for [version] stores: the response to the
    cache-busting request when it is a success and the write goes through. *)
Definition delivered (env : Env) (version asset : string) : option Response :=
  match net env (resolve env (cache_bust asset version (now env))) with
  | Some r => if ok r && negb (put_fails env r) then Some r else None
  | None => None
  end.

Definition fetched (env : Env) (version asset : string) : bool :=
  bool_decide (is_Some (delivered env version asset)).

(** The storage after writing into the cache [c], under the URL of
    [asset], the response [d asset] if there is one. *)
Definition store_with (d : string → option Response) (env : Env) (c : string)
    (s : CacheStorage) (asset : string) : CacheStorage :=
  match d asset with
  | Some r => put_entry s c (resolve env asset) r
  | None => s
  end.

(** The storage after the download of [asset] into the cache [c]. *)
Definition store_download (env : Env) (c version : string)
    (s : CacheStorage) (asset : string) : CacheStorage :=
  store_with (delivered env version) env c s asset.

(** What [cache.addAll] stores for [asset]: the answer to the plain request. *)
Definition plain (env : Env) (asset : string) : option Response :=
  net env (resolve env asset).

(** Every asset is answered with a success: [cache.addAll] goes through. *)
Definition all_answered (env : Env) (assets : list string) : bool :=
  forallb (λ a, match plain env a with
                | Some r => ok r && negb (partial r)
                | None => false
                end) assets.

(** The storage after the sweep of activate and of a committed update:
    the caches that carry the prefix under a name other than [keep] are
    gone, the others are as they were. *)
Definition swept (keep : string) (s : CacheStorage) : CacheStorage :=
  List.filter
    (λ nc, negb (startsWith nc.1 PREFIX && negb (bool_decide (nc.1 = keep)))) s.

(** [c] occurs in [s]. *)
Fixpoint has_char (c : ascii) (s : string) : bool :=
  match s with
  | EmptyString => false
  | String a t => Ascii.eqb a c || has_char c t
  end.

(** A GET request over http(s) that the handler routes to its cache-first
    branch: neither the favicon nor the version descriptor. *)
Definition cache_first_request (req : Request) : Prop :=
  method req = "GET"
  ∧ startsWith (url req) "http" = true
  ∧ endsWith (pathname req) "/favicon.ico" = false
  ∧ endsWith (pathname req) "/version.json" = false.

(** The version of the install downloads: [CURRENT_VERSION || 'install']. *)
Definition install_version (w : SW) : string :=
  if truthy (CURRENT_VERSION w) then default "" (CURRENT_VERSION w) else "install".

(** Effects that neither delete a cache, nor write an entry, nor post a
    message. *)
Definition is_quiet (e : Event) : Prop :=
  match e with
  | Deleted _ | Put _ _ | PostClient _ _ | PostPort _ => False
  | _ => True
  end.

(** The state in which the handler of [CHECK_VERSION] starts its update:
    both probes have run, which may have memoised the base path. *)
Definition probed_twice (env later : Env) (w : SW) : SW :=
  state (fetchVersion later (state (checkForUpdate env w))).

(** The storage after the handler's write of [r] under [key]: the
    generation the pointer names is opened, which creates it when it is
    missing, then the entry is written; a rejection stops there. *)
Definition refreshed (env : Env) (w : SW) (key : string) (r : Response)
  : CacheStorage :=
  if open_rejects (storage env) then caches w
  else if put_fails env r then open_cache (caches w) (CACHE_NAME w)
  else put_entry (open_cache (caches w) (CACHE_NAME w)) (CACHE_NAME w) key r.

(** The effects the fetch handler may have for the request [req] when it
    starts in state [w]. *)
Definition handler_event (env : Env) (req : Request) (w : SW) (e : Event) : Prop :=
  e = Fetched (resolve env (url req)) ∨ e = Matched (resolve env (url req))
  ∨ e = Opened (CACHE_NAME w) ∨ e = Put (CACHE_NAME w) (resolve env (url req)).

(** What install stores for an asset: when every asset of the list is
    answered with a success and writing works, [cache.addAll] stores the
    answers to the plain requests; otherwise it stores nothing and the
    assets are downloaded one by one with cache-busting requests. *)
Definition install_source (env : Env) (version : string) (assets : list string)
  : string → option Response :=
  if all_answered env assets && negb (put_rejects (storage env))
  then plain env
  else delivered env version.

(** What [cache.add] stores for [asset]: the answer to the plain request
    when it is a success and the write goes through. *)
Definition added (env : Env) (asset : string) : option Response :=
  match plain env asset with
  | Some r => if ok r && negb (put_fails env r) then Some r else None
  | None => None
  end.

(** * Scenarios

    Concrete environments and states at which the properties below are
    instantiated or refuted. *)

Definition page (text : string) : Response := {| status := 200; body := Opaque text |}.

Definition descriptor (v : string) : Response :=
  {| status := 200; body := Descriptor (Some v) |}.

(** A site that serves every path, and the descriptor of version [v]. *)
Definition site (v : string) (u : string) : option Response :=
  if includes u "version.json" then Some (descriptor v) else Some (page u).

Definition unreachable (u : string) : option Response := None.

Definition kiosk (network : string → option Response) (health : Storage) : Env :=
  {| net := network; now := 1733054400%N; clients := [1; 2];
     scope_pathname := Some "/"; location_pathname := Some "/service-worker.js";
     origin := "https://kiosk"; storage := health |}.

(** A worker whose active generation is that of version 1. *)
Definition active_v1 : SW :=
  {| CACHE_NAME := "totem-cache-1"; CURRENT_VERSION := Some "1";
     BASE_PATH := Some "";
     caches := [("totem-cache-1",
                 {["https://kiosk/index.html" := page "v1";
                   "https://kiosk/legacy.png" := page "legacy"]})] |}.

(** A worker that has just been started: the pointer holds its initial
    value while the storage holds the generation of an earlier run. *)
Definition restarted : SW :=
  started [("totem-cache-1", {["https://kiosk/index.html" := page "v1"]})].

(** The same for the older worker, whose pointer starts at another name. *)
Definition legacy_restarted : SW :=
  Legacy.started [("totem-cache-1", {["https://kiosk/index.html" := page "v1"]})].

Definition full_disk : Storage :=
  {| keys_rejects := false; open_rejects := false; delete_rejects := false;
     match_rejects := false; put_rejects := true |}.

Definition no_storage : Storage :=
  {| keys_rejects := true; open_rejects := true; delete_rejects := true;
     match_rejects := true; put_rejects := true |}.

(** A storage that holds no generation of this application, only a cache
    of another name with a version descriptor in it. *)
Definition foreign_only : SW :=
  started [("pages-cache", {["https://kiosk/version.json" := descriptor "7"]})].

Definition version_json : Request :=
  {| method := "GET"; url := "https://kiosk/version.json";
     pathname := "/version.json" |}.

(** A worker whose active generation holds the descriptor of version 1. *)
Definition active_with_descriptor : SW :=
  {| CACHE_NAME := "totem-cache-1"; CURRENT_VERSION := Some "1";
     BASE_PATH := Some "";
     caches := [("totem-cache-1",
                 {["https://kiosk/version.json" := descriptor "1"]})] |}.

Definition index_html : Request :=
  {| method := "GET"; url := "https://kiosk/index.html"; pathname := "/index.html" |}.

(** A site on which one path is missing. *)
Definition site_without (missing v : string) (u : string) : option Response :=
  if includes u missing then Some {| status := 404; body := Opaque "" |}
  else site v u.

Definition style_css : Request :=
  {| method := "GET"; url := "https://kiosk/style.css"; pathname := "/style.css" |}.

Definition video_mp4 : Request :=
  {| method := "GET"; url := "https://kiosk/media/video2.mp4";
     pathname := "/media/video2.mp4" |}.

(** A worker whose active generation holds a video. *)
Definition with_video : SW :=
  {| CACHE_NAME := "totem-cache-1"; CURRENT_VERSION := Some "1";
     BASE_PATH := Some "";
     caches := [("totem-cache-1",
                 {["https://kiosk/media/video2.mp4" := page "old video"]})] |}.

(** The answer to a request for a range of [u]. *)
Definition part_of (u : string) : Response :=
  {| status := 206; body := Opaque u |}.

(** A site that answers the requests for its videos with partial
    responses, as it does when a video element asks for a range. *)
Definition streaming (v : string) (u : string) : option Response :=
  if endsWith u ".mp4" then Some (part_of u) else site v u.

(** A storage that holds the active generation next to a stale one and a
    cache of another application. *)
Definition crowded : SW :=
  {| CACHE_NAME := "totem-cache-2"; CURRENT_VERSION := Some "2";
     BASE_PATH := Some "";
     caches := [("totem-cache-1", {["https://kiosk/index.html" := page "v1"]});
                ("other-app", {["https://kiosk/data" := page "data"]});
                ("totem-cache-2", {["https://kiosk/index.html" := page "v2"]})] |}.

Definition no_open : Storage :=
  {| keys_rejects := false; open_rejects := true; delete_rejects := false;
     match_rejects := false; put_rejects := false |}.

Definition no_keys : Storage :=
  {| keys_rejects := true; open_rejects := false; delete_rejects := false;
     match_rejects := false; put_rejects := false |}.

(** * Properties *)

(** ** Strings *)

Lemma prefix_append (p s : string) : String.prefix p (p +:+ s) = true.
Proof.
  induction p as [|c p IH]; simpl.
  - by destruct s.
  - destruct (ascii_dec c c); [exact IH | congruence].
Qed.

Lemma startsWith_PREFIX (v : string) : startsWith (PREFIX +:+ v) PREFIX = true.
Proof. apply prefix_append. Qed.

Lemma prefix_split (p s : string) :
  String.prefix p s = true → ∃ r, s = p +:+ r.
Proof.
  revert s. induction p as [|c p IH]; intros s H.
  - by exists s.
  - destruct s as [|d s]; simpl in H; [done|].
    destruct (ascii_dec c d) as [->|]; [|done].
    destruct (IH _ H) as [r ->]. by exists r.
Qed.

Lemma drop_chars_append (p s : string) :
  drop_chars (String.length p) (p +:+ s) = s.
Proof. induction p as [|c p IH]; simpl; [by destruct s | exact IH]. Qed.

(** A name made of the prefix and a non-empty suffix free of line
    terminators matches the pattern at its start, capturing the suffix. *)
Lemma match_version_suffix (s : string) :
  nonempty s = true → dot_plus s = s → match_version (PREFIX +:+ s) = Some s.
Proof.
  intros Hne Hdot.
  assert (String.prefix PREFIX (PREFIX +:+ s) = true) as Hp by apply prefix_append.
  assert (drop_chars (String.length PREFIX) (PREFIX +:+ s) = s) as Hd
    by apply drop_chars_append.
  destruct (PREFIX +:+ s) as [|c t] eqn:E; [done|].
  unfold match_version; fold match_version.
  rewrite Hp, Hd, Hdot, Hne. done.
Qed.

Lemma match_version_nonempty (s v : string) :
  match_version s = Some v → nonempty v = true.
Proof.
  induction s as [|c t IH]; unfold match_version; fold match_version.
  - destruct (String.prefix PREFIX ""); [|done].
    destruct (nonempty _) eqn:E; [congruence | done].
  - destruct (String.prefix PREFIX (String c t)).
    + destruct (nonempty (dot_plus _)) eqn:E; [congruence | exact IH].
    + exact IH.
Qed.

Lemma compare_append (p a b : string) :
  String.compare (p +:+ a) (p +:+ b) = String.compare a b.
Proof.
  induction p as [|c p IH]; simpl; [done|].
  unfold Ascii.compare. rewrite N.compare_refl. exact IH.
Qed.

Lemma le_append (p a b : string) : String.le (p +:+ a) (p +:+ b) ↔ String.le a b.
Proof. unfold String.le, String.leb. by rewrite compare_append. Qed.

Lemma or_null_truthy (v : option string) :
  or_null v = None ∨ truthy (or_null v) = true.
Proof. unfold or_null. destruct (truthy v) eqn:E; auto. Qed.

Lemma truthy_Some (v : option string) :
  truthy v = true → v = Some (default "" v).
Proof. by destruct v. Qed.

(** ** Cache storage *)

Lemma keys_put_entry (s : CacheStorage) n k r :
  keys_of (put_entry s n k r) = keys_of s.
Proof.
  unfold keys_of.
  induction s as [|[m c] s IH]; simpl; [done|].
  case_bool_decide; simpl; [done|]. by f_equal.
Qed.

Lemma keys_open_cache (s : CacheStorage) n :
  keys_of (open_cache s n) = if has_cache s n then keys_of s else keys_of s ++ [n].
Proof.
  unfold open_cache. destruct (has_cache s n); [done|].
  unfold keys_of. by rewrite fmap_app.
Qed.

Lemma keys_delete_cache (s : CacheStorage) n :
  keys_of (delete_cache s n) =
  List.filter (λ m, negb (bool_decide (m = n))) (keys_of s).
Proof.
  unfold keys_of.
  induction s as [|[m c] s IH]; simpl; [done|].
  destruct (negb (bool_decide (m = n))); simpl; by f_equal.
Qed.

Lemma delete_put_entry (s : CacheStorage) n k r :
  delete_cache (put_entry s n k r) n = delete_cache s n.
Proof.
  induction s as [|[m c] s IH]; simpl; [done|].
  case_bool_decide as E; simpl; rewrite (bool_decide_decide (m = n)).
  - by rewrite decide_True.
  - rewrite decide_False by done. simpl. by rewrite IH.
Qed.

Lemma delete_open_cache (s : CacheStorage) n :
  delete_cache (open_cache s n) n = delete_cache s n.
Proof.
  unfold open_cache. destruct (has_cache s n); [done|].
  unfold delete_cache. rewrite List.filter_app. simpl.
  rewrite bool_decide_true by done. simpl. by rewrite app_nil_r.
Qed.

Lemma open_cache_present (s : CacheStorage) n :
  n ∈ keys_of s → open_cache s n = s.
Proof.
  intros H. unfold open_cache, has_cache. by rewrite bool_decide_true.
Qed.

Lemma elem_of_keys_open (s : CacheStorage) n : n ∈ keys_of (open_cache s n).
Proof.
  rewrite keys_open_cache. unfold has_cache. case_bool_decide; [done|].
  apply elem_of_app. right. by apply list_elem_of_singleton.
Qed.


Lemma elem_of_filter_bool {A} (f : A → bool) (l : list A) x :
  x ∈ List.filter f l ↔ x ∈ l ∧ f x = true.
Proof. rewrite !list_elem_of_In. apply List.filter_In. Qed.



(** ** Probe and inventory never reject *)

Global Instance same_core_refl : Reflexive same_core.
Proof. by intros w. Qed.

Global Instance same_core_trans : Transitive same_core.
Proof.
  intros a b c (?&?&?) (?&?&?). unfold same_core. split_and!; congruence.
Qed.

Lemma getBasePath_run env w :
  ∃ b w', getBasePath env w = (Ok b, w', []) ∧ same_core w w'.
Proof.
  unfold getBasePath, bind, get. simpl.
  destruct (BASE_PATH w) as [b|]; simpl; [by eexists _, _|].
  destruct (scope_pathname env) as [p|]; simpl; [by eexists _, _|].
  destruct (truthy (location_pathname env)); simpl; by eexists _, _.
Qed.

Lemma getBasePath_result env w :
  ∃ w', getBasePath env w = (Ok (base_path env w), w', []) ∧ same_core w w'.
Proof.
  destruct (getBasePath_run env w) as (b & w' & E & H).
  exists w'. split; [|done]. unfold base_path, result. by rewrite E.
Qed.

Lemma getAssets_run env w :
  ∃ w', getAssets env w
        = (Ok ((λ p, base_path env w +:+ p) <$> asset_paths), w', [])
        ∧ same_core w w'.
Proof.
  destruct (getBasePath_result env w) as (w' & E & H).
  exists w'. split; [|done]. unfold getAssets, bind. by rewrite E.
Qed.

Lemma fetchVersion_run env w :
  ∃ w', fetchVersion env w
        = (Ok (remote_version env w), w', [Fetched (version_url env w)])
        ∧ same_core w w'.
Proof.
  destruct (getBasePath_result env w) as (w' & E & H).
  exists w'. split; [|done].
  unfold fetchVersion, try_catch, bind. rewrite E.
  unfold remote_version, version_url, fetch.
  destruct (net env _) as [r|]; simpl; [|done].
  destruct (ok r); simpl; [|done].
  unfold json_version. by destruct (body r).
Qed.

Lemma remote_version_known env w :
  remote_version env w = None ∨ truthy (remote_version env w) = true.
Proof.
  unfold remote_version. destruct (net env _) as [r|]; [|by left].
  destruct (ok r); [|by left]. destruct (body r); [by left|].
  apply or_null_truthy.
Qed.

Lemma head_reverse_elem_of {A} (l : list A) x : head (reverse l) = Some x → x ∈ l.
Proof.
  intros H. apply elem_of_reverse. destruct (reverse l); simplify_eq/=. left.
Qed.

Lemma latest_elem_of (s : CacheStorage) name :
  latest s = Some name → name ∈ keys_of s ∧ startsWith name PREFIX = true.
Proof.
  unfold latest, sort. intros H%head_reverse_elem_of.
  rewrite merge_sort_Permutation in H.
  by apply elem_of_filter_bool in H.
Qed.

Lemma StronglySorted_last {A} (R : relation A) (l : list A) x y :
  StronglySorted R (l ++ [x]) → y ∈ l → R y x.
Proof.
  induction l as [|z l IH]; intros Hs Hin; [by apply elem_of_nil in Hin|].
  simpl in Hs. apply StronglySorted_inv in Hs as [Hs Hall].
  apply elem_of_cons in Hin as [->|Hin]; [|by apply IH].
  rewrite Forall_app, Forall_singleton in Hall. tauto.
Qed.

Lemma latest_greatest (s : CacheStorage) name other :
  latest s = Some name → other ∈ keys_of s → startsWith other PREFIX = true →
  String.le other name.
Proof.
  unfold latest, sort. intros H Ho Hp.
  set (l := List.filter _ _) in *.
  assert (other ∈ merge_sort String.le l) as Hin.
  { rewrite merge_sort_Permutation. by apply elem_of_filter_bool. }
  assert (StronglySorted String.le (merge_sort String.le l)) as Hs
    by apply (StronglySorted_merge_sort _).
  revert H Hin Hs. generalize (merge_sort String.le l). clear.
  intros l. destruct l as [|x l _] using rev_ind; intros H Hin Hs.
  - by apply elem_of_nil in Hin.
  - rewrite reverse_app in H. simpl in H. simplify_eq.
    apply elem_of_app in Hin as [Hin| ->%list_elem_of_singleton]; [|done].
    by eapply StronglySorted_last.
Qed.

Lemma latest_None (s : CacheStorage) :
  latest s = None ↔ Forall (λ n, startsWith n PREFIX = false) (keys_of s).
Proof.
  unfold latest, sort. set (l := List.filter _ _).
  assert (reverse (merge_sort String.le l) = [] ↔ l = []) as Hnil.
  { split.
    - intros H. apply Permutation_nil_r. rewrite <- (merge_sort_Permutation String.le l).
      by rewrite <- (reverse_involutive (merge_sort _ _)), H.
    - intros ->. done. }
  split.
  - intros H. assert (l = []) as Hl.
    { apply Hnil. by destruct (reverse _). }
    apply Forall_forall. intros n Hn.
    destruct (startsWith n PREFIX) eqn:E; [|done].
    assert (n ∈ l) as Hin by by apply elem_of_filter_bool.
    rewrite Hl in Hin. by apply elem_of_nil in Hin.
  - intros H. assert (l = []) as ->; [|done].
    destruct l as [|x l'] eqn:E; [done|].
    assert (x ∈ l) as Hin by (rewrite E; left).
    apply elem_of_filter_bool in Hin as [Hin Hp].
    rewrite Forall_forall in H. rewrite (H _ Hin) in Hp. done.
Qed.

Lemma stored_version_known entry :
  stored_version entry = None ∨ truthy (stored_version entry) = true.
Proof.
  destruct entry as [[st [t|v]]|]; simpl; auto using or_null_truthy.
Qed.

Lemma local_version_known env s :
  local_version env s = None ∨ truthy (local_version env s) = true.
Proof.
  unfold local_version. destruct (keys_rejects _); [by left|].
  destruct (latest s) as [name|]; [|by left].
  destruct (match_version name) as [v|] eqn:E.
  - right. simpl. by eapply match_version_nonempty.
  - destruct (_ || _); [by left|]. apply stored_version_known.
Qed.

(** The inventory never rejects and leaves the state as it was. *)
Lemma getCachedVersion_run env w :
  ∃ t, getCachedVersion env w = (Ok (local_version env (caches w)), w, t).
Proof.
  unfold getCachedVersion, try_catch, bind, caches_keys, local_version.
  destruct (keys_rejects (storage env)) eqn:Hk; simpl; [by eexists|].
  assert (latest (caches w)
          = head (reverse (sort (List.filter (λ name, startsWith name PREFIX)
                                   (keys_of (caches w)))))) as Hl by done.
  destruct (List.filter _ (keys_of (caches w))) as [|x l].
  { rewrite Hl. by eexists. }
  cbn [length Nat.eqb]. rewrite <- Hl. clear Hl.
  destruct (latest (caches w)) as [name|] eqn:Hl; simpl; [|by eexists].
  destruct (match_version name) as [v|] eqn:Hm; simpl; [by eexists|].
  unfold caches_open, cache_match.
  destruct (open_rejects (storage env)) eqn:Ho; simpl; [by eexists|].
  apply latest_elem_of in Hl as [Hin _].
  rewrite (open_cache_present _ _ Hin).
  assert (set_caches (caches w) w = w) as -> by by destruct w.
  destruct (match_rejects (storage env)) eqn:Hr; simpl; [by eexists|].
  destruct (lookup_cache (caches w) name ≫= _) as [[st [txt|v]]|]; simpl;
    by eexists.
Qed.

Lemma truthy_known (v : option string) :
  v = None ∨ truthy v = true → truthy v = bool_decide (v ≠ None).
Proof.
  intros [->| H]; [done|]. rewrite H. destruct v; [|done].
  by rewrite bool_decide_true.
Qed.

(** ** Version resolution *)

(** The outcome of [checkForUpdate] in terms of the two versions. *)
Lemma checkForUpdate_run env w :
  ∃ w' t,
    checkForUpdate env w
    = (Ok (truthy (remote_version env w)
           && (negb (truthy (local_version env (caches w)))
               || negb (bool_decide (remote_version env w
                                     = local_version env (caches w))))),
       w', t)
    ∧ same_core w w'.
Proof.
  destruct (fetchVersion_run env w) as (w1 & E1 & H1).
  destruct (getCachedVersion_run env w1) as (t2 & E2).
  unfold checkForUpdate, try_catch, bind. rewrite E1.
  destruct (truthy (remote_version env w)); simpl;
    [|eexists _, _; split; [reflexivity | done]].
  rewrite E2. pose proof H1 as (_ & _ & ->).
  destruct (truthy (local_version env (caches w))); simpl;
    eexists _, _; (split; [reflexivity | done]).
Qed.

(** C2. For every remote and local version, [checkForUpdate] answers true
    exactly when the remote version is known and differs from the local
    one, or is known while the local one is unknown; it answers false in
    every other case, in particular whenever the probe of the remote
    version fails (the request rejects, the status is not a success, or the
    body is not a descriptor). *)
Theorem checkForUpdate_decides env w :
  let remote := remote_version env w in
  let local := local_version env (caches w) in
  result (fetchVersion env w) = Ok remote
  ∧ (∀ w', caches w' = caches w → result (getCachedVersion env w') = Ok local)
  ∧ (∃ hasUpdate,
       result (checkForUpdate env w) = Ok hasUpdate
       ∧ (hasUpdate = true ↔
          (remote ≠ None ∧ remote ≠ local) ∨ (remote ≠ None ∧ local = None)))
  ∧ (match net env (version_url env w) with
     | None => True
     | Some r => ok r = false ∨ ∃ text, body r = Opaque text
     end → result (checkForUpdate env w) = Ok false).
Proof.
  intros remote local.
  destruct (fetchVersion_run env w) as (w1 & E1 & H1).
  destruct (checkForUpdate_run env w) as (w2 & t2 & E2 & H2).
  assert (truthy remote = bool_decide (remote ≠ None)) as Hr
    by apply truthy_known, remote_version_known.
  assert (truthy local = bool_decide (local ≠ None)) as Hl
    by apply truthy_known, local_version_known.
  split_and!.
  - unfold result. by rewrite E1.
  - intros w' Hw'. destruct (getCachedVersion_run env w') as (t & E).
    unfold result. rewrite E. simpl. by rewrite Hw'.
  - eexists. split; [unfold result; by rewrite E2|].
    fold remote local. rewrite Hr, Hl.
    rewrite andb_true_iff, orb_true_iff, !negb_true_iff,
      !bool_decide_eq_true, !bool_decide_eq_false.
    destruct remote, local; intuition congruence.
  - intros Hfail. unfold result. rewrite E2. simpl. f_equal.
    fold remote. replace remote with (@None string); [done|].
    unfold remote, remote_version.
    destruct (net env _) as [r|]; [|done].
    destruct Hfail as [->|[text ->]]; [done|]. by destruct (ok r).
Qed.

(** ** Downloads *)

Lemma stable_refl c w : stable c w w.
Proof. by repeat split. Qed.

Lemma stable_trans c w1 w2 w3 : stable c w1 w2 → stable c w2 w3 → stable c w1 w3.
Proof.
  intros (?&?&?&?&?) (?&?&?&?&?). unfold stable. split_and!; congruence.
Qed.

Lemma cache_put_run env c k r w :
  ∃ res w', cache_put env c k r w = (res, w', [Put c (resolve env k)])
            ∧ stable c w w'.
Proof.
  unfold cache_put. destruct (put_fails _ _).
  - eexists _, _. split; [done | apply stable_refl].
  - eexists _, _. split; [done|]. unfold stable. simpl.
    by rewrite keys_put_entry, delete_put_entry.
Qed.

Lemma download_run env c v t a w :
  ∃ success w' tr,
    download env c v t a w = (Ok (a, success), w', tr)
    ∧ stable c w w' ∧ Forall is_transfer tr.
Proof.
  unfold download, try_catch, bind, fetch.
  destruct (net env _) as [r|]; simpl.
  2:{ eexists _, _, _. split_and!; [done | apply stable_refl|].
      by repeat constructor. }
  destruct (ok r); simpl.
  2:{ eexists _, _, _. split_and!; [done | apply stable_refl|].
      by repeat constructor. }
  destruct (cache_put_run env c a r w) as (res & w' & -> & Hs).
  destruct res; simpl; eexists _, _, _;
    (split_and!; [done | done | by repeat constructor]).
Qed.

Lemma downloads_run env c v t assets w :
  ∃ results w' tr,
    all_settled (download env c v t <$> assets) w = (Ok results, w', tr)
    ∧ stable c w w' ∧ Forall is_transfer tr.
Proof.
  revert w. induction assets as [|a assets IH]; intros w.
  - eexists _, _, _. split_and!; [done | apply stable_refl | constructor].
  - rewrite fmap_cons. cbn [all_settled].
    destruct (download_run env c v t a w) as (s & w1 & t1 & -> & H1 & F1).
    destruct (IH w1) as (rs & w2 & t2 & -> & H2 & F2).
    eexists _, _, _. split_and!; [done | by eapply stable_trans|].
    by apply Forall_app.
Qed.

Lemma fetches_run env urls w :
  ∃ rs, all_settled (fetch env <$> urls) w = (Ok rs, w, Fetched <$> (resolve env <$> urls)).
Proof.
  induction urls as [|u urls [rs IH]]; [by eexists|].
  rewrite !fmap_cons. cbn [all_settled].
  unfold fetch at 1. destruct (net env _); rewrite IH; by eexists.
Qed.

Lemma puts_run env c (entries : list (string * Response)) w :
  ∃ res w' tr,
    for_each entries (λ ur, cache_put env c ur.1 ur.2) w = (res, w', tr)
    ∧ stable c w w' ∧ Forall is_transfer tr.
Proof.
  revert w. induction entries as [|[u r] entries IH]; intros w.
  - eexists _, _, _. split_and!; [done | apply stable_refl | constructor].
  - cbn [for_each]. unfold bind at 1. cbn [fst snd].
    destruct (cache_put_run env c u r w) as (res & w1 & -> & H1).
    destruct res as [[]|e].
    + destruct (IH w1) as (res2 & w2 & t2 & -> & H2 & F2).
      eexists _, _, _. split_and!; [done | by eapply stable_trans|].
      by repeat constructor.
    + eexists _, _, _. split_and!; [done | done | by repeat constructor].
Qed.

Lemma Forall_transfer_fetched (urls : list string) :
  Forall is_transfer (Fetched <$> urls).
Proof. induction urls; by constructor. Qed.

Lemma cache_addAll_run env c urls w :
  ∃ res w' tr,
    cache_addAll env c urls w = (res, w', tr)
    ∧ stable c w w' ∧ Forall is_transfer tr.
Proof.
  unfold cache_addAll, promise_all, bind.
  destruct (fetches_run env urls w) as (rs & ->).
  destruct (first_error rs); simpl.
  { eexists _, _, _. split_and!; [done | apply stable_refl|].
    rewrite app_nil_r. apply Forall_transfer_fetched. }
  destruct (forallb _ (values rs)); simpl.
  - destruct (puts_run env c (zip urls (values rs)) w)
      as (res & w' & tr & -> & H & F).
    eexists _, _, _. split_and!; [done | done|].
    rewrite app_nil_r. apply Forall_app. split; [apply Forall_transfer_fetched | done].
  - eexists _, _, _. split_and!; [done | apply stable_refl|].
    rewrite !app_nil_r. apply Forall_transfer_fetched.
Qed.

(** ** Resolution of the generation name *)

Lemma initializeCacheName_run env w :
  ∃ w' t,
    initializeCacheName env w = (Ok tt, w', Fetched (version_url env w) :: t)
    ∧ (CACHE_NAME w', CURRENT_VERSION w') = resolved env w
    ∧ caches w' = caches w.
Proof.
  destruct (fetchVersion_run env w) as (w1 & E1 & Hn & Hv & Hc).
  unfold initializeCacheName, bind, resolved. rewrite E1.
  destruct (remote_version_known env w) as [Hr|Hr].
  2:{ rewrite Hr. apply truthy_Some in Hr as Hs. rewrite Hs. simpl.
      by eexists _, _. }
  rewrite Hr. simpl.
  destruct (getCachedVersion_run env w1) as (t2 & ->). rewrite Hc.
  destruct (local_version_known env (caches w)) as [Hl|Hl].
  2:{ rewrite Hl. apply truthy_Some in Hl as Hs. rewrite Hs. simpl.
      by eexists _, _. }
  rewrite Hl. simpl.
  eexists _, _. split_and!; [done | by rewrite Hv | done].
Qed.

Lemma install_start_core env w : same_core w (install_start env w).
Proof. unfold install_start. by destruct (_ && _). Qed.

(** Install with working [caches.open]: the pointer is the resolved one and
    the resolved generation exists afterwards; no other name is added. *)
Lemma install_run env w :
  open_rejects (storage env) = false →
  ∃ w' t,
    install env w = (Ok tt, w', t)
    ∧ (CACHE_NAME w', CURRENT_VERSION w') = resolved env (install_start env w)
    ∧ keys_of (caches w')
      = keys_of (open_cache (caches w) (resolved env (install_start env w)).1).
Proof.
  intros Hopen.
  pose proof (install_start_core env w) as (_ & _ & Hc0).
  destruct (initializeCacheName_run env (install_start env w))
    as (w1 & t1 & E1 & Hp & Hc1).
  destruct (getAssets_run env w1) as (w2 & E2 & Hn2 & Hv2 & Hc2).
  unfold install. unfold bind at 1. unfold get at 1.
  unfold bind at 1.
  assert ((if bool_decide (BASE_PATH w = None) && truthy (location_pathname env)
           then assign_BASE_PATH
                  (strip_trailing_slash
                     (strip_last_segment (default "" (location_pathname env))))
           else ret ()) w = (Ok tt, install_start env w, [])) as ->.
  { unfold install_start. by destruct (_ && _). }
  unfold bind at 1. rewrite E1.
  unfold bind at 1. rewrite E2.
  unfold bind at 1. unfold get at 1.
  unfold bind at 1. unfold caches_open at 1. rewrite Hopen.
  set (w3 := set_caches _ w2).
  unfold bind at 1.
  set (body := try_catch _ _).
  assert (∃ w4 t4, body w3 = (Ok tt, w4, t4) ∧ stable (CACHE_NAME w2) w3 w4)
    as (w4 & t4 & -> & Hs).
  { unfold body, try_catch.
    destruct (cache_addAll_run env (CACHE_NAME w2)
                ((λ p, base_path env w1 +:+ p) <$> asset_paths) w3)
      as (res & w4 & t4 & -> & Hs & _).
    destruct res as [[]|e]; [by eexists _, _|].
    unfold bind.
    edestruct (downloads_run env (CACHE_NAME w2)) as (rs & w5 & t5 & -> & Hs5 & _).
    eexists _, _. split; [done|]. by eapply stable_trans. }
  simpl. destruct Hs as (Hn4 & Hv4 & _ & Hk4 & _).
  eexists _, _. split_and!; [done | |].
  - rewrite Hn4, Hv4. simpl. rewrite Hn2, Hv2. done.
  - rewrite Hk4. simpl. rewrite Hc2, Hc1, <- Hc0.
    f_equal. f_equal. rewrite Hn2. by rewrite <- Hp.
Qed.

Lemma remote_version_offline env w :
  (∀ u, net env u = None) → remote_version env w = None.
Proof. intros H. unfold remote_version. by rewrite H. Qed.

(** C3. Version resolution follows the stated priority: a known remote
    version is adopted whatever the local state; otherwise a known local
    version is adopted; otherwise the hardcoded default generation name is
    used. Fully offline and without any stored generation, install thereby
    creates exactly the generation of the default name. *)
Theorem initializeCacheName_priority env w :
  let remote := remote_version env w in
  let local := local_version env (caches w) in
  let w' := state (initializeCacheName env w) in
  result (fetchVersion env w) = Ok remote
  ∧ (∀ w1, caches w1 = caches w → result (getCachedVersion env w1) = Ok local)
  ∧ result (initializeCacheName env w) = Ok tt
  ∧ (∀ v, remote = Some v →
       CACHE_NAME w' = PREFIX +:+ v ∧ CURRENT_VERSION w' = Some v)
  ∧ (∀ v, remote = None → local = Some v →
       CACHE_NAME w' = PREFIX +:+ v ∧ CURRENT_VERSION w' = Some v)
  ∧ (remote = None → local = None → CACHE_NAME w' = "totem-cache-v1")
  ∧ ((∀ u, net env u = None) → caches w = [] →
     open_rejects (storage env) = false →
       result (install env w) = Ok tt
       ∧ CACHE_NAME (state (install env w)) = "totem-cache-v1"
       ∧ keys_of (caches (state (install env w))) = ["totem-cache-v1"]).
Proof.
  intros remote local w'.
  destruct (initializeCacheName_run env w) as (w1 & t1 & E & Hp & Hc).
  assert (w' = w1) as -> by (unfold w', state; by rewrite E).
  unfold resolved in Hp. fold remote local in Hp.
  split_and!.
  - destruct (fetchVersion_run env w) as (w2 & -> & _). done.
  - intros w2 Hw2. destruct (getCachedVersion_run env w2) as (t2 & ->).
    unfold result, local. cbn [fst]. by rewrite Hw2.
  - unfold result. by rewrite E.
  - intros v Hv. rewrite Hv in Hp. by simplify_eq.
  - intros v Hr Hl. rewrite Hr, Hl in Hp. by simplify_eq.
  - intros Hr Hl. rewrite Hr, Hl in Hp. by simplify_eq.
  - intros Hnet Hempty Hopen.
    destruct (install_run env w Hopen) as (w2 & t2 & E2 & Hp2 & Hk2).
    pose proof (install_start_core env w) as (_ & _ & Hc0).
    unfold resolved in Hp2, Hk2.
    rewrite (remote_version_offline _ _ Hnet), Hc0, Hempty in Hp2, Hk2.
    assert (local_version env [] = None) as Hnone.
    { unfold local_version. by destruct (keys_rejects _). }
    rewrite Hnone in Hp2, Hk2. simpl in Hk2.
    unfold result, state. rewrite E2. simpl. by simplify_eq.
Qed.

(** The first run of a worker that is offline and finds no storage. *)
Lemma install_offline_first_run :
  CACHE_NAME (state (install (kiosk unreachable healthy) (started [])))
  = "totem-cache-v1"
  ∧ caches (state (install (kiosk unreachable healthy) (started [])))
    = [("totem-cache-v1", ∅)]
  ∧ result (install (kiosk unreachable healthy) (started [])) = Ok tt.
Proof. split_and!; by vm_compute. Qed.

(** The update check on a worker whose stored generation is that of
    version 1, against a site at version 2, at version 1, and unreachable;
    and with nothing stored. *)
Lemma checkForUpdate_examples :
  result (checkForUpdate (kiosk (site "2") healthy) active_v1) = Ok true
  ∧ result (checkForUpdate (kiosk (site "1") healthy) active_v1) = Ok false
  ∧ result (checkForUpdate (kiosk unreachable healthy) active_v1) = Ok false
  ∧ result (checkForUpdate (kiosk (site "1") healthy) (started [])) = Ok true
  ∧ result (checkForUpdate (kiosk unreachable healthy) (started [])) = Ok false.
Proof. split_and!; by vm_compute. Qed.

(** ** Deletion of generations *)

Lemma set_caches_id w : set_caches (caches w) w = w.
Proof. by destruct w. Qed.

Lemma deletes_settled env names w :
  ∃ rs,
    all_settled (caches_delete env <$> names) w
    = (Ok rs, set_caches (delete_all env (caches w) names) w, Deleted <$> names)
    ∧ first_error rs
      = if delete_rejects (storage env) && bool_decide (names ≠ [])
        then Some "delete" else None.
Proof.
  unfold delete_all. revert w. induction names as [|n names IH]; intros w.
  - exists []. rewrite andb_false_r. split; [|done]. simpl.
    destruct (delete_rejects _); by rewrite set_caches_id.
  - rewrite !fmap_cons. cbn [all_settled]. unfold caches_delete at 1.
    destruct (delete_rejects (storage env)) eqn:Hd.
    + destruct (IH w) as (rs & -> & Hrs). eexists. split; [done|]. done.
    + destruct (IH (set_caches (delete_cache (caches w) n) w)) as (rs & -> & Hrs).
      eexists. split; [done|]. simpl in *. done.
Qed.

Lemma deletes_run env names w :
  ∃ res,
    promise_all (caches_delete env <$> names) w
    = (res, set_caches (delete_all env (caches w) names) w, Deleted <$> names)
    ∧ (delete_rejects (storage env) = false → ∃ l, res = Ok l)
    ∧ (names = [] → ∃ l, res = Ok l)
    ∧ (delete_rejects (storage env) = true → names ≠ [] → res = Throw "delete").
Proof.
  unfold promise_all, bind.
  destruct (deletes_settled env names w) as (rs & -> & ->).
  destruct (delete_rejects (storage env)) eqn:Hd; simpl.
  - case_bool_decide as Hn; simpl; rewrite app_nil_r.
    + eexists. split_and!; [done | done | done | done].
    + eexists. split_and!; [done | done | eauto | done].
  - rewrite app_nil_r. eexists. split_and!; [done | eauto | eauto | done].
Qed.

Lemma keys_foldl_delete (s : CacheStorage) (names : list string) :
  keys_of (foldl delete_cache s names)
  = List.filter (λ n, negb (bool_decide (n ∈ names))) (keys_of s).
Proof.
  revert s. induction names as [|m names IH]; intros s; cbn [foldl].
  - induction (keys_of s) as [|k ks IHk]; cbn [List.filter]; [done|].
    rewrite bool_decide_false by apply not_elem_of_nil. cbn [negb]. by f_equal.
  - rewrite IH, keys_delete_cache. clear.
    induction (keys_of s) as [|k ks IHk]; cbn [List.filter]; [done|].
    destruct (decide (k = m)) as [->|Hne].
    + rewrite (bool_decide_true (m = m)) by done. cbn [negb].
      rewrite (bool_decide_true (m ∈ m :: names)) by left. cbn [negb]. done.
    + rewrite (bool_decide_false (k = m)) by done. cbn [negb List.filter].
      destruct (decide (k ∈ names)) as [Hin|Hnin].
      * rewrite (bool_decide_true (k ∈ names)) by done.
        rewrite (bool_decide_true (k ∈ m :: names)) by by right. done.
      * rewrite (bool_decide_false (k ∈ names)) by done.
        rewrite (bool_decide_false (k ∈ m :: names)).
        -- cbn [negb]. by f_equal.
        -- intros [?|?]%elem_of_cons; done.
Qed.

(** ** Activation *)

Lemma activate_run env w :
  ∃ res w' t,
    activate env w = (res, w', t)
    ∧ (CACHE_NAME w', CURRENT_VERSION w')
      = (if truthy (CURRENT_VERSION w)
         then (CACHE_NAME w, CURRENT_VERSION w) else resolved env w)
    ∧ (truthy (CURRENT_VERSION w) = false →
       ∃ rest, t = trace (initializeCacheName env w) ++ rest).
Proof.
  unfold activate. unfold bind at 1. unfold get at 1. unfold bind at 1.
  assert (∃ w1 t1,
    (if negb (truthy (CURRENT_VERSION w)) then initializeCacheName env else ret ()) w
    = (Ok tt, w1, t1)
    ∧ (CACHE_NAME w1, CURRENT_VERSION w1)
      = (if truthy (CURRENT_VERSION w)
         then (CACHE_NAME w, CURRENT_VERSION w) else resolved env w)
    ∧ (truthy (CURRENT_VERSION w) = false → t1 = trace (initializeCacheName env w)))
    as (w1 & t1 & -> & H1).
  { destruct (truthy (CURRENT_VERSION w)); simpl; [by eexists _, _|].
    destruct (initializeCacheName_run env w) as (w1 & t1 & E & Hp & Hc).
    rewrite E. by eexists _, _. }
  unfold bind at 1, caches_keys.
  destruct (keys_rejects _); simpl.
  { destruct H1 as [Hp Ht]. eexists _, _, _. split_and!; [done | done|].
    intros ->%Ht. by eexists. }
  unfold bind at 1. unfold get at 1. unfold bind at 1.
  set (old := superseded _ _).
  assert (∃ r2 t2,
    (if (0 <? length old)%nat
     then let! deleted := promise_all (caches_delete env <$> old) in ret ()
     else ret ()) w1
    = (r2, set_caches (if (0 <? length old)%nat
                       then delete_all env (caches w1) old else caches w1) w1, t2))
    as (r2 & t2 & ->).
  { destruct (0 <? length old)%nat; [|rewrite set_caches_id; by eexists _, _].
    unfold bind. destruct (deletes_run env old w1) as (res & -> & _).
    destruct res; by eexists _, _. }
  destruct H1 as [Hp Ht].
  destruct r2; simpl; eexists _, _, _; (split; [done|]);
    (split; [exact Hp | intros ->%Ht; by eexists]).
Qed.

(** C10. When neither the remote nor the local version is known,
    [initializeCacheName] names the default generation and leaves
    [CURRENT_VERSION] unset, so the name of the pointer carries an
    identifier while its version component carries none; and an activate
    event that finds [CURRENT_VERSION] unset runs the resolution again,
    network request included, and finds it unset again while both versions
    stay unknown. *)
Theorem default_leaves_version_unset env w :
  CURRENT_VERSION w = None →
  remote_version env w = None →
  local_version env (caches w) = None →
  let w' := state (initializeCacheName env w) in
  CACHE_NAME w' = "totem-cache-v1"
  ∧ CURRENT_VERSION w' = None
  ∧ match_version (CACHE_NAME w') = Some "v1"
  ∧ ∀ env2 w2,
      CURRENT_VERSION w2 = None →
      (∃ rest,
         trace (activate env2 w2) = trace (initializeCacheName env2 w2) ++ rest)
      ∧ Fetched (version_url env2 w2) ∈ trace (activate env2 w2)
      ∧ (remote_version env2 w2 = None →
         local_version env2 (caches w2) = None →
         CURRENT_VERSION (state (activate env2 w2)) = None).
Proof.
  intros Hv Hr Hl w'.
  destruct (initializeCacheName_run env w) as (w1 & t1 & E & Hp & Hc).
  assert (w' = w1) as -> by (unfold w', state; by rewrite E).
  unfold resolved in Hp. rewrite Hr, Hl, Hv in Hp.
  injection Hp as Hname Hversion.
  split_and!; [done | done | by rewrite Hname |].
  clear. intros env w Hv.
  destruct (activate_run env w) as (res & w' & t & E & H).
  rewrite Hv in H. simpl in H. destruct H as (Hp & Ht).
  destruct (Ht eq_refl) as (rest & ->). clear Ht.
  unfold trace at 1 3, state. rewrite E. simpl.
  split_and!.
  - by eexists.
  - destruct (initializeCacheName_run env w) as (w1 & t1 & -> & _).
    unfold trace. simpl. left.
  - intros Hr Hl. unfold resolved in Hp. rewrite Hr, Hl, Hv in Hp. congruence.
Qed.

(** C10 at a worker that starts offline with an empty storage. *)
Lemma default_leaves_version_unset_witness :
  CACHE_NAME (state (initializeCacheName (kiosk unreachable healthy) (started [])))
  = "totem-cache-v1"
  ∧ CURRENT_VERSION
      (state (initializeCacheName (kiosk unreachable healthy) (started [])))
    = None.
Proof.
  destruct (default_leaves_version_unset (kiosk unreachable healthy) (started [])
              eq_refl eq_refl eq_refl) as (Hname & Hversion & _).
  split; [exact Hname | exact Hversion].
Defined.

(** ** Update *)

Lemma bind_assoc {A B C} (m : M A) (k : A → M B) (h : B → M C) w :
  bind (bind m k) h w = bind m (λ a, bind (k a) h) w.
Proof.
  unfold bind. destruct (m w) as [[[a|e] w1] t1]; [|done].
  destruct (k a w1) as [[[b|e] w2] t2]; [|done].
  destruct (h b w2) as [[r w3] t3]. by rewrite app_assoc.
Qed.

Lemma bind_ext {A B} (m : M A) (k k' : A → M B) w :
  (∀ a w1, k a w1 = k' a w1) → bind m k w = bind m k' w.
Proof.
  intros H. unfold bind. destruct (m w) as [[[a|e] w1] t1]; [|done].
  by rewrite H.
Qed.

Lemma bind_ret_l {A B} (a : A) (k : A → M B) w : bind (ret a) k w = k a w.
Proof. unfold bind, ret. by destruct (k a w) as [[r w1] t1]. Qed.

Lemma update_body_split env v w :
  update_body env v w
  = (let! passed := update_gate env v in
     if negb passed then update_abort env v else update_commit env v) w.
Proof.
  unfold update_body, update_gate, update_abort, update_commit.
  rewrite bind_assoc. apply bind_ext. intros assets w1.
  rewrite bind_assoc. apply bind_ext. intros c w2.
  rewrite bind_assoc. apply bind_ext. intros rs w3.
  by rewrite bind_ret_l.
Qed.

Lemma update_gate_run env v w :
  let new := PREFIX +:+ v in
  if open_rejects (storage env) then
    ∃ w1, update_gate env v w = (Throw "open", w1, [Opened new]) ∧ same_core w w1
  else
    ∃ passed w1 t,
      update_gate env v w = (Ok passed, w1, Opened new :: t)
      ∧ CACHE_NAME w1 = CACHE_NAME w
      ∧ CURRENT_VERSION w1 = CURRENT_VERSION w
      ∧ keys_of (caches w1) = keys_of (open_cache (caches w) new)
      ∧ delete_cache (caches w1) new = delete_cache (caches w) new
      ∧ Forall is_transfer t.
Proof.
  intros new.
  destruct (getAssets_run env w) as (w1 & E1 & Hn1 & Hv1 & Hc1).
  unfold update_gate. fold new.
  destruct (open_rejects (storage env)) eqn:Hopen.
  { unfold bind at 1. rewrite E1. unfold bind, caches_open. rewrite Hopen.
    eexists. split; [done|]. by split_and!. }
  unfold bind at 1. rewrite E1.
  unfold bind at 1. unfold caches_open at 1. rewrite Hopen.
  unfold bind at 1.
  destruct (downloads_run env new v (now env)
              ((λ p, base_path env w +:+ p) <$> asset_paths)
              (set_caches (open_cache (caches w1) new) w1))
    as (rs & w3 & t3 & -> & Hs & F).
  destruct Hs as (Hn3 & Hv3 & _ & Hk3 & Hd3). simpl in *.
  eexists _, _, _. split_and!; [done | congruence | congruence | | |].
  - by rewrite Hk3, Hc1.
  - by rewrite Hd3, delete_open_cache, Hc1.
  - by rewrite app_nil_r.
Qed.

(** The update itself never rejects: whatever its [try] block throws is
    caught and turned into a broadcast. *)
Lemma update_never_rejects env v w :
  ∃ w' t, updateCacheForNewVersion env v w = (Ok tt, w', t).
Proof.
  unfold updateCacheForNewVersion, try_catch.
  destruct (update_body env v w) as [[[[]|e] w1] t1]; [by eexists _, _|].
  unfold broadcast. by eexists _, _.
Qed.

Lemma update_when_body_ok env v w :
  result (update_body env v w) = Ok tt →
  updateCacheForNewVersion env v w = update_body env v w.
Proof.
  unfold updateCacheForNewVersion, try_catch, result.
  destruct (update_body env v w) as [[[[]|e] w1] t1]; [done|]. intros [=].
Qed.

Lemma update_when_body_throws env v w e :
  result (update_body env v w) = Throw e →
  updateCacheForNewVersion env v w
  = (Ok tt, state (update_body env v w),
     trace (update_body env v w)
     ++ ((λ c, PostClient c (CACHE_UPDATE_FAILED e)) <$> clients env)).
Proof.
  unfold updateCacheForNewVersion, try_catch, result, state, trace.
  destruct (update_body env v w) as [[[[]|e'] w1] t1]; [intros [=]|].
  intros [= ->]. done.
Qed.

(** The run of an update whose gate fails, when [caches.delete] works. *)
Lemma update_abort_run env v w :
  result (update_gate env v w) = Ok false →
  delete_rejects (storage env) = false →
  ∃ w' t,
    update_body env v w
    = (Ok tt, w', Opened (PREFIX +:+ v) :: t ++ [Deleted (PREFIX +:+ v)])
    ∧ CACHE_NAME w' = CACHE_NAME w
    ∧ CURRENT_VERSION w' = CURRENT_VERSION w
    ∧ caches w' = delete_cache (caches w) (PREFIX +:+ v)
    ∧ Forall is_transfer t.
Proof.
  intros Hgate Hdel. rewrite update_body_split.
  pose proof (update_gate_run env v w) as H. simpl in H.
  destruct (open_rejects (storage env)).
  { destruct H as (w1 & E & _). unfold result in Hgate. by rewrite E in Hgate. }
  destruct H as (passed & w1 & t & E & Hn & Hv & Hk & Hd & F).
  unfold result in Hgate. rewrite E in Hgate. simpl in Hgate. simplify_eq.
  unfold bind at 1. rewrite E. simpl negb. cbv iota.
  unfold update_abort, bind, caches_delete. rewrite Hdel. simpl.
  eexists _, t. split_and!; [reflexivity | done | done | done | done].
Qed.

(** The commit step from the state [w1] the downloads leave behind. *)
Lemma update_commit_at env v w1 :
  let new := PREFIX +:+ v in
  let old := superseded new (keys_of (caches w1)) in
  ∃ res w' posts,
    update_commit env v w1
    = (res, w',
       [AssignCacheName new; AssignVersion v; Keys]
       ++ (if keys_rejects (storage env) then [] else (Deleted <$> old) ++ posts))
    ∧ (∀ e, e ∈ posts → ∃ c, e = PostClient c (CACHE_UPDATED v))
    ∧ CACHE_NAME w' = new
    ∧ CURRENT_VERSION w' = Some v
    ∧ (res = Ok tt →
       keys_rejects (storage env) = false
       ∧ caches w' = delete_all env (caches w1) old
       ∧ (delete_rejects (storage env) = true → old = [])).
Proof.
  intros new old. unfold update_commit. fold new.
  unfold bind at 1. unfold assign_CACHE_NAME at 1.
  unfold bind at 1. unfold assign_CURRENT_VERSION at 1.
  unfold bind at 1. unfold caches_keys at 1.
  destruct (keys_rejects (storage env)); cbn [fst snd caches CACHE_NAME].
  { eexists _, _, []. split_and!; [reflexivity | | done | done | intros [=]].
    intros e He. by apply elem_of_nil in He. }
  fold old. unfold bind at 1.
  match goal with
  | |- context [promise_all _ ?w] =>
      destruct (deletes_run env old w) as (res & -> & Hok & Hnil & Hthrow)
  end.
  cbn [caches] in *.
  destruct res as [l|e].
  - unfold broadcast.
    eexists _, _, _. split_and!; [reflexivity | | done | done |].
    + intros e (c & -> & _)%list_elem_of_fmap. by eexists.
    + intros _. split_and!; [done | done |].
      intros Hr. destruct (decide (old = [])) as [|Hne]; [done|].
      by specialize (Hthrow Hr Hne).
  - eexists _, _, [].
    split_and!; [by rewrite !app_nil_r | | done | done | intros [=]].
    intros e0 He. by apply elem_of_nil in He.
Qed.

(** The run of an update whose gate passes. *)
Lemma update_commit_run env v w :
  result (update_gate env v w) = Ok true →
  let new := PREFIX +:+ v in
  ∃ res w1 w' t posts,
    update_body env v w
    = (res, w',
       Opened new :: t
       ++ [AssignCacheName new; AssignVersion v; Keys]
       ++ (if keys_rejects (storage env) then []
           else (Deleted <$> superseded new (keys_of (caches w1))) ++ posts))
    ∧ Forall is_transfer t
    ∧ (∀ e, e ∈ posts → ∃ c, e = PostClient c (CACHE_UPDATED v))
    ∧ keys_of (caches w1) = keys_of (open_cache (caches w) new)
    ∧ CACHE_NAME w' = new
    ∧ CURRENT_VERSION w' = Some v
    ∧ (res = Ok tt →
       keys_rejects (storage env) = false
       ∧ caches w' = delete_all env (caches w1) (superseded new (keys_of (caches w1)))
       ∧ (delete_rejects (storage env) = true →
          superseded new (keys_of (caches w1)) = [])).
Proof.
  intros Hgate new. rewrite update_body_split.
  pose proof (update_gate_run env v w) as H. simpl in H. fold new in H.
  destruct (open_rejects (storage env)).
  { destruct H as (w1 & E & _). unfold result in Hgate. by rewrite E in Hgate. }
  destruct H as (passed & w1 & t & E & Hn & Hv & Hk & Hd & F).
  unfold result in Hgate. rewrite E in Hgate. simpl in Hgate. simplify_eq.
  unfold bind at 1. rewrite E. cbn [negb].
  destruct (update_commit_at env v w1)
    as (res & w' & posts & -> & Hposts & Hn' & Hv' & Hres).
  exists res, w1, w', t, posts. split_and!; done.
Qed.

(** ** Order of reassignment and deletion *)

Lemma pointer_safe_quiet ptr (l1 l2 : list Event) :
  (∀ n, Deleted n ∉ l1) → (∀ n, AssignCacheName n ∉ l1) →
  pointer_safe ptr (l1 ++ l2) = pointer_safe ptr l2.
Proof.
  induction l1 as [|e l1 IH]; intros Hd Ha; [done|].
  assert (pointer_safe ptr (l1 ++ l2) = pointer_safe ptr l2) as IH'.
  { apply IH; intros n Hn; [apply (Hd n) | apply (Ha n)]; by right. }
  destruct e; simpl; try done.
  - exfalso. apply (Hd name). left.
  - exfalso. apply (Ha name). left.
Qed.

Lemma pointer_safe_others ptr (l : list Event) :
  (∀ n, AssignCacheName n ∉ l) → (∀ n, Deleted n ∈ l → n ≠ ptr) →
  pointer_safe ptr l = true.
Proof.
  induction l as [|e l IH]; intros Ha Hd; [done|].
  assert (pointer_safe ptr l = true) as IH'.
  { apply IH; [intros n Hn; apply (Ha n); by right | intros n Hn; apply Hd; by right]. }
  destruct e; simpl; try done.
  - rewrite IH', andb_true_r, negb_true_iff, bool_decide_eq_false.
    apply Hd. left.
  - exfalso. apply (Ha name). left.
Qed.

Lemma transfer_not_deleted (t : list Event) n :
  Forall is_transfer t → Deleted n ∉ t.
Proof. intros F H. rewrite Forall_forall in F. by apply F in H. Qed.

Lemma transfer_not_assigned (t : list Event) n :
  Forall is_transfer t → AssignCacheName n ∉ t.
Proof. intros F H. rewrite Forall_forall in F. by apply F in H. Qed.

Lemma superseded_spec keep names n :
  n ∈ superseded keep names ↔ n ∈ names ∧ startsWith n PREFIX = true ∧ n ≠ keep.
Proof.
  unfold superseded. rewrite elem_of_filter_bool, andb_true_iff, negb_true_iff,
    bool_decide_eq_false. tauto.
Qed.

(** The trace of an update whose gate passes. *)
Lemma update_trace env v w :
  result (update_gate env v w) = Ok true →
  let new := PREFIX +:+ v in
  ∃ t tail,
    trace (updateCacheForNewVersion env v w)
    = (Opened new :: t) ++ AssignCacheName new :: AssignVersion v :: Keys :: tail
    ∧ Forall is_transfer t
    ∧ (∀ e, e ∈ tail →
         (∃ n, e = Deleted n ∧ startsWith n PREFIX = true ∧ n ≠ new)
         ∨ (∃ c m, e = PostClient c m)).
Proof.
  intros Hgate new.
  destruct (update_commit_run env v w Hgate)
    as (res & w1 & w' & t & posts & E & F & Hposts & Hk & Hn & Hv & Hres).
  fold new in E. exists t.
  destruct res as [[]|e].
  - rewrite update_when_body_ok by (unfold result; by rewrite E).
    unfold trace. rewrite E. cbn [snd]. eexists. split_and!; [reflexivity | done|].
    intros e He. destruct (keys_rejects _); [by apply elem_of_nil in He|].
    apply elem_of_app in He as [(n & -> & Hn')%list_elem_of_fmap | He].
    + left. exists n. apply superseded_spec in Hn'. tauto.
    + right. destruct (Hposts _ He) as (c & ->). by eexists _, _.
  - rewrite (update_when_body_throws env v w e) by (unfold result; by rewrite E).
    unfold trace. rewrite E. cbn [snd].
    exists ((if keys_rejects (storage env) then []
             else (Deleted <$> superseded new (keys_of (caches w1))) ++ posts)
            ++ ((λ c, PostClient c (CACHE_UPDATE_FAILED e)) <$> clients env)).
    split_and!; [|done|].
    + cbn [app]. f_equal. rewrite <- app_assoc. reflexivity.
    + intros e0 He.
      apply elem_of_app in He as [He | (c & -> & _)%list_elem_of_fmap].
      2:{ right. by eexists _, _. }
      destruct (keys_rejects _); [by apply elem_of_nil in He|].
      apply elem_of_app in He as [(n & -> & Hn')%list_elem_of_fmap | He].
      * left. exists n. apply superseded_spec in Hn'. tauto.
      * right. destruct (Hposts _ He) as (c & ->). by eexists _, _.
Qed.

(** An update whose gate passes, run without the steps of another task in
    between: every deletion comes after the reassignment of the pointer to
    the new generation, none before it; what is deleted then is a prefixed
    generation other than the new one, so at no step of that run is the
    generation the pointer names at that step deleted. *)
Theorem deletion_follows_reassignment env v w :
  result (update_gate env v w) = Ok true →
  ∃ before after,
    trace (updateCacheForNewVersion env v w)
    = before ++ AssignCacheName (PREFIX +:+ v) :: after
    ∧ (∀ n, Deleted n ∉ before)
    ∧ (∀ n, (AssignCacheName n ∉ before) ∧ (AssignCacheName n ∉ after))
    ∧ (∀ n, Deleted n ∈ after → n ≠ PREFIX +:+ v ∧ startsWith n PREFIX = true)
    ∧ pointer_safe (CACHE_NAME w) (trace (updateCacheForNewVersion env v w)) = true.
Proof.
  intros Hgate.
  destruct (update_trace env v w Hgate) as (t & tail & E & F & Htail).
  set (new := PREFIX +:+ v) in *.
  assert (∀ n, Deleted n ∉ Opened new :: t) as Hb1.
  { intros n [?|H]%elem_of_cons; [done|]. by eapply transfer_not_deleted. }
  assert (∀ n, AssignCacheName n ∉ Opened new :: t) as Hb2.
  { intros n [?|H]%elem_of_cons; [done|]. by eapply transfer_not_assigned. }
  assert (∀ n, AssignCacheName n ∉ AssignVersion v :: Keys :: tail) as Ha1.
  { intros n [?|[?|H]%elem_of_cons]%elem_of_cons; [done|done|].
    destruct (Htail _ H) as [(m & ? & _)|(c & m & ?)]; done. }
  assert (∀ n, Deleted n ∈ AssignVersion v :: Keys :: tail →
               n ≠ new ∧ startsWith n PREFIX = true) as Ha2.
  { intros n [?|[?|H]%elem_of_cons]%elem_of_cons; [done|done|].
    destruct (Htail _ H) as [(m & ? & ? & ?)|(c & m & ?)]; [|done].
    by simplify_eq. }
  exists (Opened new :: t), (AssignVersion v :: Keys :: tail).
  split_and!; [done | done | done | done|].
  rewrite E, pointer_safe_quiet by done. cbn [pointer_safe].
  apply pointer_safe_others.
  - intros n Hn. apply (Ha1 n). by do 2 right.
  - intros n Hn. apply Ha2. by do 2 right.
Qed.

(** That order at an update from version 1 to version 2 with the site
    reachable. *)
Lemma deletion_follows_reassignment_witness :
  ∃ before after,
    trace (updateCacheForNewVersion (kiosk (site "2") healthy) "2" active_v1)
    = before ++ AssignCacheName "totem-cache-2" :: after
    ∧ (∀ n, Deleted n ∉ before)
    ∧ (∀ n, (AssignCacheName n ∉ before) ∧ (AssignCacheName n ∉ after))
    ∧ (∀ n, Deleted n ∈ after → n ≠ "totem-cache-2" ∧ startsWith n PREFIX = true)
    ∧ pointer_safe "totem-cache-1"
        (trace (updateCacheForNewVersion (kiosk (site "2") healthy) "2" active_v1))
      = true.
Proof.
  apply (deletion_follows_reassignment (kiosk (site "2") healthy) "2" active_v1).
  vm_compute. reflexivity.
Defined.

(** ** Outcome of an update *)

Lemma keys_after_commit env (s : CacheStorage) new :
  let old := superseded new (keys_of s) in
  (delete_rejects (storage env) = true → old = []) →
  ∀ n, n ∈ keys_of (delete_all env s old) ↔ n ∈ keys_of s ∧ n ∉ old.
Proof.
  intros old Hrej n. unfold delete_all.
  destruct (delete_rejects (storage env)).
  - rewrite (Hrej eq_refl). split; [|tauto]. intros H. split; [done|].
    apply not_elem_of_nil.
  - rewrite keys_foldl_delete, elem_of_filter_bool, negb_true_iff,
      bool_decide_eq_false. done.
Qed.


(** C1, what the code does. When the gate fails (and [caches.delete]
    works) the update returns normally: the pointer keeps its value and the
    storage is the previous one without any generation of the new name,
    that is, the new generation is gone and every generation of another
    name is as it was. No message at all is posted to the clients: the
    failure notification is sent only from the [catch] block, which this
    path does not enter. *)
Theorem update_abort_is_silent env v w :
  result (update_gate env v w) = Ok false →
  delete_rejects (storage env) = false →
  result (updateCacheForNewVersion env v w) = Ok tt
  ∧ CACHE_NAME (state (updateCacheForNewVersion env v w)) = CACHE_NAME w
  ∧ CURRENT_VERSION (state (updateCacheForNewVersion env v w)) = CURRENT_VERSION w
  ∧ caches (state (updateCacheForNewVersion env v w))
    = delete_cache (caches w) (PREFIX +:+ v)
  ∧ (∀ c m, PostClient c m ∉ trace (updateCacheForNewVersion env v w)).
Proof.
  intros Hgate Hdel.
  destruct (update_abort_run env v w Hgate Hdel) as (w' & t & E & Hn & Hv & Hc & F).
  rewrite update_when_body_ok by (unfold result; by rewrite E).
  unfold result, state, trace. rewrite E. cbn [fst snd].
  split_and!; [done | done | done | done|].
  intros c m [?|[H|H%list_elem_of_singleton]%elem_of_app]%elem_of_cons;
    [done | | done].
  rewrite Forall_forall in F. by apply F in H.
Qed.

(** C1 at an update to version 2 while the site is unreachable: every
    download fails, and the clients hear nothing. *)
Lemma update_abort_is_silent_witness :
  result (update_gate (kiosk unreachable healthy) "2" active_v1) = Ok false
  ∧ caches (state (updateCacheForNewVersion (kiosk unreachable healthy) "2" active_v1))
    = caches active_v1
  ∧ ∀ c m, PostClient c m
           ∉ trace (updateCacheForNewVersion (kiosk unreachable healthy) "2" active_v1).
Proof.
  assert (result (update_gate (kiosk unreachable healthy) "2" active_v1) = Ok false)
    as Hgate by (vm_compute; reflexivity).
  destruct (update_abort_is_silent (kiosk unreachable healthy) "2" active_v1
              Hgate eq_refl) as (_ & _ & _ & Hc & Hsilent).
  split_and!; [exact Hgate | rewrite Hc; vm_compute; reflexivity | exact Hsilent].
Defined.

(** The same abort when the version asked for is the stored one: the
    generation deleted is the active one, and the pointer goes on naming it. *)
Lemma update_abort_deletes_generation_of_same_name :
  result (update_gate (kiosk unreachable healthy) "1" active_v1) = Ok false
  ∧ caches (state (updateCacheForNewVersion (kiosk unreachable healthy) "1" active_v1))
    = []
  ∧ CACHE_NAME (state (updateCacheForNewVersion (kiosk unreachable healthy) "1" active_v1))
    = "totem-cache-1".
Proof. split_and!; by vm_compute. Qed.

(** ** Acknowledgment of [UPDATE_VERSION] *)

Lemma message_update_run env w v :
  nonempty v = true →
  message_handler env (UPDATE_VERSION (Some v)) true w
  = (Ok tt, state (updateCacheForNewVersion env v w),
     trace (updateCacheForNewVersion env v w)
     ++ [PostPort (CACHE_UPDATE_COMPLETE v)]).
Proof.
  intros Hv. unfold message_handler. cbn [truthy default]. rewrite Hv.
  unfold bind, state, trace, id.
  destruct (update_never_rejects env v w) as (w' & t & ->). done.
Qed.

(** C9. An [UPDATE_VERSION] message that carries a version and a reply
    port is always answered with [CACHE_UPDATE_COMPLETE] for that version,
    as the last effect of the handler, however the update ended: after an
    abort at the gate the pointer is the old one, and after an error caught
    inside the update the failure has been broadcast to every client, and
    in both cases the acknowledgment is posted all the same. There are runs
    of both kinds in which the pointer acknowledged is not the one named
    after the supplied version. *)
Theorem update_version_always_acknowledged :
  (∀ env w v,
     nonempty v = true →
     let run := message_handler env (UPDATE_VERSION (Some v)) true w in
     result run = Ok tt
     ∧ trace run
       = trace (updateCacheForNewVersion env v w)
         ++ [PostPort (CACHE_UPDATE_COMPLETE v)]
     ∧ (result (update_gate env v w) = Ok false →
        delete_rejects (storage env) = false →
        CACHE_NAME (state run) = CACHE_NAME w
        ∧ CURRENT_VERSION (state run) = CURRENT_VERSION w)
     ∧ (∀ e, result (update_body env v w) = Throw e →
             ∀ c, c ∈ clients env →
                  PostClient c (CACHE_UPDATE_FAILED e) ∈ trace run))
  ∧ (∃ env w v,
       nonempty v = true
       ∧ result (update_gate env v w) = Ok false
       ∧ PostPort (CACHE_UPDATE_COMPLETE v)
         ∈ trace (message_handler env (UPDATE_VERSION (Some v)) true w)
       ∧ CACHE_NAME (state (message_handler env (UPDATE_VERSION (Some v)) true w))
         ≠ PREFIX +:+ v)
  ∧ (∃ env w v e c,
       nonempty v = true
       ∧ result (update_body env v w) = Throw e
       ∧ PostClient c (CACHE_UPDATE_FAILED e)
         ∈ trace (message_handler env (UPDATE_VERSION (Some v)) true w)
       ∧ PostPort (CACHE_UPDATE_COMPLETE v)
         ∈ trace (message_handler env (UPDATE_VERSION (Some v)) true w)
       ∧ CACHE_NAME (state (message_handler env (UPDATE_VERSION (Some v)) true w))
         ≠ PREFIX +:+ v).
Proof.
  split_and!.
  - intros env w v Hv run. unfold run. rewrite (message_update_run env w v Hv).
    unfold result, state, trace. cbn [fst snd]. split_and!; [done | done | |].
    + intros Hgate Hdel.
      destruct (update_abort_run env v w Hgate Hdel) as (w' & t & E & Hn & Hc & _).
      rewrite update_when_body_ok by (unfold result; by rewrite E).
      by rewrite E.
    + intros e He c Hc. rewrite (update_when_body_throws env v w e He).
      cbn [snd]. apply elem_of_app. left. apply elem_of_app. right.
      apply list_elem_of_fmap. by exists c.
  - exists (kiosk unreachable healthy), active_v1, "2".
    split_and!; [done | by vm_compute | | by vm_compute].
    rewrite message_update_run by done. cbn [trace snd].
    apply elem_of_app. right. left.
  - exists (kiosk (site "2") no_storage), active_v1, "2", "open", 1.
    split_and!; [done | by vm_compute | | | by vm_compute].
    + vm_compute. right. left.
    + rewrite message_update_run by done. cbn [trace snd].
      apply elem_of_app. right. left.
Qed.

(** ** Inventory *)

Lemma latest_of_greatest_suffix (s : CacheStorage) (v : string) :
  PREFIX +:+ v ∈ keys_of s →
  (∀ v', PREFIX +:+ v' ∈ keys_of s → String.le v' v) →
  latest s = Some (PREFIX +:+ v).
Proof.
  intros Hin Hmax.
  destruct (latest s) as [name|] eqn:Hl.
  - f_equal. apply latest_elem_of in Hl as Hname. destruct Hname as [Hk Hp].
    destruct (prefix_split _ _ Hp) as (v' & ->).
    apply (anti_symm String.le).
    + apply le_append. by apply Hmax.
    + eapply latest_greatest; [done | done | apply startsWith_PREFIX].
  - exfalso. rewrite latest_None, Forall_forall in Hl.
    specialize (Hl _ Hin). by rewrite startsWith_PREFIX in Hl.
Qed.

(** C8, as the code has it. The inventory never rejects and changes
    nothing. When no persisted name carries the prefix it answers unknown
    at once, reading no generation. Otherwise it takes the greatest
    prefixed name. Whenever the pattern finds a version in that name, that
    version is the answer and no generation is read; a suffix that is not
    empty and holds no line terminator is so returned, and is then the
    greatest suffix. Only when the pattern finds no version in that name
    does the inventory read the version field of the descriptor stored in
    that generation under [/version.json], answering unknown when there is
    none. Unknown is also the answer whenever a storage operation it needs
    rejects: [caches.keys] in every case, [caches.open] or [cache.match]
    where the descriptor is read. *)
Theorem getCachedVersion_spec env w :
  state (getCachedVersion env w) = w
  ∧ (keys_rejects (storage env) = true →
     result (getCachedVersion env w) = Ok None)
  ∧ (keys_rejects (storage env) = false →
     (Forall (λ n, startsWith n PREFIX = false) (keys_of (caches w)) →
      getCachedVersion env w = (Ok None, w, [Keys]))
     ∧ (∀ name v, latest (caches w) = Some name → match_version name = Some v →
                  getCachedVersion env w = (Ok (Some v), w, [Keys]))
     ∧ (∀ v, PREFIX +:+ v ∈ keys_of (caches w) →
             (∀ v', PREFIX +:+ v' ∈ keys_of (caches w) → String.le v' v) →
             nonempty v = true → dot_plus v = v →
             result (getCachedVersion env w) = Ok (Some v))
     ∧ (∀ name, latest (caches w) = Some name → match_version name = None →
                result (getCachedVersion env w)
                = Ok (if open_rejects (storage env) || match_rejects (storage env)
                      then None
                      else stored_version
                             (lookup_cache (caches w) name
                                ≫= (.!! resolve env "/version.json"))))).
Proof.
  destruct (getCachedVersion_run env w) as (t & E).
  split_and!.
  - unfold state. by rewrite E.
  - intros Hkeys. unfold result, local_version in *. rewrite E. cbn [fst].
    by rewrite Hkeys.
  - clear t E. intros Hkeys. split_and!.
    + intros Hnone.
      unfold getCachedVersion, try_catch, bind, caches_keys. rewrite Hkeys.
      cbn [fst snd].
      assert (List.filter (λ name, startsWith name PREFIX) (keys_of (caches w)) = [])
        as ->; [|done].
      induction Hnone as [|n l Hn _ IH]; [done|]. cbn [List.filter]. by rewrite Hn.
    + intros name v Hl Hmv.
      unfold getCachedVersion, try_catch, bind, caches_keys. rewrite Hkeys.
      cbn [fst snd].
      assert (latest (caches w)
              = head (reverse (sort (List.filter (λ name, startsWith name PREFIX)
                                       (keys_of (caches w)))))) as Hl' by done.
      destruct (List.filter _ (keys_of (caches w))) as [|x l].
      { rewrite Hl in Hl'. done. }
      cbn [length Nat.eqb]. rewrite <- Hl', Hl. cbn [fst snd]. by rewrite Hmv.
    + intros v Hin Hmax Hne Hdot.
      destruct (getCachedVersion_run env w) as (t & ->).
      unfold result, local_version. cbn [fst]. rewrite Hkeys.
      rewrite (latest_of_greatest_suffix _ _ Hin Hmax).
      by rewrite (match_version_suffix _ Hne Hdot).
    + intros name Hl Hm.
      destruct (getCachedVersion_run env w) as (t & ->).
      unfold result, local_version. cbn [fst].
      by rewrite Hkeys, Hl, Hm.
Qed.

(** C8 at a storage with the generations of versions 1 and 2. *)
Lemma getCachedVersion_spec_witness :
  result (getCachedVersion (kiosk unreachable healthy)
            {| CACHE_NAME := "totem-cache-2"; CURRENT_VERSION := Some "2";
               BASE_PATH := None;
               caches := [("totem-cache-2", ∅); ("totem-cache-1", ∅)] |})
  = Ok (Some "2").
Proof.
  refine (proj1 (proj2 (proj2 (proj2 (proj2 (getCachedVersion_spec
    (kiosk unreachable healthy)
    {| CACHE_NAME := "totem-cache-2"; CURRENT_VERSION := Some "2";
       BASE_PATH := None;
       caches := [("totem-cache-2", ∅); ("totem-cache-1", ∅)] |})) eq_refl)))
    "2" _ _ eq_refl eq_refl).
  - left.
  - intros v' [H|[H|H%elem_of_nil]%elem_of_cons]%elem_of_cons; [| |done].
    + apply (inj (String.app PREFIX)) in H. by subst.
    + apply (inj (String.app PREFIX)) in H. subst. by vm_compute.
Defined.

(** The inventory with [caches.keys] rejecting, and with [caches.open]
    rejecting where the greatest prefixed name has no version in it. *)
Lemma getCachedVersion_rejections :
  result (getCachedVersion (kiosk unreachable no_keys) active_with_descriptor)
  = Ok None
  ∧ result (getCachedVersion (kiosk unreachable healthy)
              (started [("totem-cache-", {["https://kiosk/version.json"
                                           := descriptor "5"]})]))
    = Ok (Some "5")
  ∧ result (getCachedVersion (kiosk unreachable no_open)
              (started [("totem-cache-", {["https://kiosk/version.json"
                                           := descriptor "5"]})]))
    = Ok None.
Proof. split_and!; by vm_compute. Qed.

(** C8 as stated fails where no persisted name carries the prefix: the
    newest (and only) stored cache holds a descriptor of version 7, yet the
    inventory answers unknown after listing the names, without opening or
    reading any cache. *)
Lemma getCachedVersion_without_prefix_reads_nothing :
  Forall (λ n, startsWith n PREFIX = false) (keys_of (caches foreign_only))
  ∧ stored_version
      (lookup_cache (caches foreign_only) "pages-cache"
         ≫= (.!! resolve (kiosk unreachable healthy) "/version.json"))
    = Some "7"
  ∧ getCachedVersion (kiosk unreachable healthy) foreign_only
    = (Ok None, foreign_only, [Keys]).
Proof. split_and!; [by repeat constructor | by vm_compute | by vm_compute]. Qed.

(** ** Serving *)

Lemma match_any_app_empty (s : CacheStorage) n k :
  match_any (s ++ [(n, ∅)]) k = match_any s k.
Proof.
  induction s as [|[m c] s IH]; simpl; [done|].
  destruct (c !! k); [done | exact IH].
Qed.

Lemma match_any_open (s : CacheStorage) n k :
  match_any (open_cache s n) k = match_any s k.
Proof.
  unfold open_cache. destruct (has_cache s n); [done|].
  apply match_any_app_empty.
Qed.

Lemma match_any_Some (s : CacheStorage) k n r :
  match_any s k = Some (n, r) → ∃ c, (n, c) ∈ s ∧ c !! k = Some r.
Proof.
  induction s as [|[m c] s IH]; simpl; [done|].
  destruct (c !! k) as [r'|] eqn:E.
  - intros [= -> ->]. exists c. split; [left | done].
  - intros (c' & Hin & Hc)%IH. exists c'. split; [by right | done].
Qed.

Lemma fetch_handler_version env req w :
  version_request env w req →
  ∃ w1, same_core w w1
        ∧ fetch_handler env req w
          = (let! r := serve_version env req in ret (Responded r, false)) w1.
Proof.
  intros (Hm & Hu & Hf & Hp).
  destruct (getBasePath_result env w) as (w1 & E & Hcore).
  exists w1. split; [done|].
  unfold fetch_handler. rewrite bool_decide_true by done. cbn [negb].
  rewrite Hu. cbn [negb]. rewrite Hf. cbn [orb].
  assert (bool_decide (pathname req = "/favicon.ico") = false) as ->.
  { apply bool_decide_eq_false. intros H. rewrite H in Hf. by vm_compute in Hf. }
  unfold bind at 1. rewrite E.
  assert (bool_decide (pathname req = base_path env w +:+ "/version.json")
          || endsWith (pathname req) "/version.json" = true) as ->.
  { destruct Hp as [->| ->]; [by rewrite bool_decide_true | apply orb_true_r]. }
  by destruct (bind _ _ w1) as [[r w2] t2].
Qed.

(** What the descriptor branch answers when the network answers and the
    refresh of the stored entry, if one is attempted, goes through: the
    network's response, the storage not having been searched. *)
Lemma serve_version_network env req w r :
  net env (resolve env (url req)) = Some r →
  ok r = false
  ∨ (open_rejects (storage env) = false ∧ put_fails env r = false) →
  result (serve_version env req w) = Ok r
  ∧ Matched (resolve env (url req)) ∉ trace (serve_version env req w).
Proof.
  intros Hnet Hcase.
  unfold serve_version, try_catch, bind, fetch. rewrite Hnet.
  destruct (ok r) eqn:Hok.
  - destruct Hcase as [|[Hopen Hput]]; [done|].
    unfold store_current, bind, get, caches_open, cache_put.
    rewrite Hopen, Hput. unfold result, trace. cbn [fst snd]. split; [done|].
    intros [?|[?|[?|?%elem_of_nil]%elem_of_cons]%elem_of_cons]%elem_of_cons; done.
  - unfold result, trace. cbn [fst snd]. split; [done|].
    intros [?|?%elem_of_nil]%elem_of_cons; done.
Qed.

(** What it answers when the network fails: the stored copy that
    [caches.match] finds, else the 503 response. *)
Lemma serve_version_offline env req w :
  net env (resolve env (url req)) = None →
  match_rejects (storage env) = false →
  result (serve_version env req w)
  = Ok (default offline (snd <$> match_any (caches w) (resolve env (url req)))).
Proof.
  intros Hnet Hmatch.
  unfold serve_version, try_catch, bind, fetch, caches_match.
  rewrite Hnet, Hmatch. unfold result. cbn [fst snd].
  by destruct (match_any _ _) as [[n c]|].
Qed.

(** C5, where the code departs from it. The network answers the request
    for the descriptor with a successful response, but writing that
    response into the current generation rejects: the handler then takes
    the path meant for a failed network and answers with the stored copy
    (or with 503 when there is none), having searched the storage. *)
Theorem serve_version_falls_back_when_put_rejects env req w r :
  net env (resolve env (url req)) = Some r →
  ok r = true →
  open_rejects (storage env) = false →
  put_rejects (storage env) = true →
  match_rejects (storage env) = false →
  result (serve_version env req w)
  = Ok (default offline (snd <$> match_any (caches w) (resolve env (url req))))
  ∧ Matched (resolve env (url req)) ∈ trace (serve_version env req w).
Proof.
  intros Hnet Hok Hopen Hput Hmatch.
  unfold serve_version, try_catch, bind, fetch. rewrite Hnet, Hok.
  unfold store_current, bind, get, caches_open, cache_put, caches_match, put_fails.
  rewrite Hopen, Hput, Hmatch. unfold result, trace.
  cbn [orb fst snd caches set_caches].
  rewrite match_any_open. split.
  - by destruct (match_any _ _) as [[n c]|].
  - destruct (match_any _ _) as [[n c]|]; cbn [fst snd];
      apply elem_of_app; right; left.
Qed.

(** C5 at its failing input: the site publishes version 2, the write into
    the cache rejects, and the page is handed the stored descriptor of
    version 1. *)
Lemma serve_version_falls_back_when_put_rejects_witness :
  net (kiosk (site "2") full_disk) "https://kiosk/version.json"
  = Some (descriptor "2")
  ∧ result (fetch_handler (kiosk (site "2") full_disk) version_json
              active_with_descriptor)
    = Ok (Responded (descriptor "1"), false).
Proof.
  split; [reflexivity|].
  destruct (fetch_handler_version (kiosk (site "2") full_disk) version_json
              active_with_descriptor) as (w1 & Hcore & ->).
  { unfold version_request. split_and!; [done | done | done | by right]. }
  destruct (serve_version_falls_back_when_put_rejects
              (kiosk (site "2") full_disk) version_json w1 (descriptor "2")
              eq_refl eq_refl eq_refl eq_refl eq_refl) as [Hres _].
  destruct Hcore as (_ & _ & Hc). rewrite Hc in Hres.
  unfold bind, result in *.
  destruct (serve_version _ _ w1) as [[r w2] t2]. cbn [fst] in Hres. subst r.
  reflexivity.
Defined.

Lemma serve_from_network_run env req w :
  ∃ r w' t, serve_from_network env req w = (Ok (r, false), w', t).
Proof.
  unfold serve_from_network, try_catch. unfold bind at 1, fetch.
  destruct (net env _) as [r|]; cbn [fst snd].
  - unfold bind. destruct (ok r).
    + unfold try_catch.
      destruct (store_current env req r w) as [[[[]|e'] w2] t2];
        by eexists _, _, _.
    + by eexists _, _, _.
  - destruct (is_media _); by eexists _, _, _.
Qed.

(** The cache-first branch starts a background refresh only when it
    answers with the entry [caches.match] found, and then changes nothing. *)
Lemma serve_cache_first_refreshing env req w r w' t :
  serve_cache_first env req w = (Ok (r, true), w', t) →
  ∃ n, match_any (caches w) (resolve env (url req)) = Some (n, r)
       ∧ w' = w
       ∧ t = [Matched (resolve env (url req)); Fetched (resolve env (url req))].
Proof.
  unfold serve_cache_first, try_catch. unfold bind at 1. unfold caches_match at 1.
  destruct (match_rejects (storage env)) eqn:Hrej; cbn [fst snd].
  { unfold bind, caches_match. rewrite Hrej. intros [=]. }
  destruct (match_any (caches w) _) as [[n c]|] eqn:Hm; cbn [fmap option_fmap option_map snd].
  - unfold bind, emit, ret. cbn. intros [= <- <- <-]. by exists n.
  - destruct (serve_from_network_run env req w) as (r1 & w1 & t1 & ->).
    intros [=].
Qed.

Lemma background_refresh_run env req w :
  ∃ w', background_refresh env req w = (Ok tt, w', trace (background_refresh env req w))
        ∧ CACHE_NAME w' = CACHE_NAME w
        ∧ (∀ e, e ∈ trace (background_refresh env req w) →
                e = Opened (CACHE_NAME w)
                ∨ e = Put (CACHE_NAME w) (resolve env (url req))).
Proof.
  unfold background_refresh.
  destruct (net env _) as [r|]; [|exists w; split_and!; [done|done|]].
  2:{ intros e H. by apply elem_of_nil in H. }
  destruct (ok r); [|exists w; split_and!; [done|done|]].
  2:{ intros e H. by apply elem_of_nil in H. }
  unfold try_catch, store_current, bind, get, caches_open, cache_put, trace.
  destruct (open_rejects _); cbn [fst snd].
  { eexists. split_and!; [done|done|].
    intros e [->|H%elem_of_nil]%elem_of_cons; [by left | done]. }
  destruct (put_fails _ _); cbn [fst snd]; (eexists; split_and!; [done|done|]);
    intros e [->|[->|H%elem_of_nil]%elem_of_cons]%elem_of_cons; auto; done.
Qed.

(** C6, as the code has it. A request answered from the cache is answered
    with the first entry that [caches.match] finds for it across all stored
    caches in creation order; that is the entry of the generation the
    pointer names whenever no other cache holds the request. Answering
    writes nothing. The background refresh writes, if at all, into the
    generation named by the pointer as it is when the refresh runs, which
    is the pointer of the start of the task only if nothing has reassigned
    it in between. *)
Theorem serve_from_cache env req w r w' t :
  fetch_handler env req w = (Ok (Responded r, true), w', t) →
  (∃ n, match_any (caches w) (resolve env (url req)) = Some (n, r))
  ∧ ((∀ n c, (n, c) ∈ caches w → n ≠ CACHE_NAME w →
             c !! resolve env (url req) = None) →
     match_any (caches w) (resolve env (url req)) = Some (CACHE_NAME w, r))
  ∧ same_core w w'
  ∧ t = [Matched (resolve env (url req)); Fetched (resolve env (url req))]
  ∧ (∀ env2 w2 n k,
       Put n k ∈ trace (background_refresh env2 req w2) →
       n = CACHE_NAME w2 ∧ k = resolve env2 (url req)).
Proof.
  intros Hrun.
  assert (∃ n, match_any (caches w) (resolve env (url req)) = Some (n, r)
          ∧ same_core w w'
          ∧ t = [Matched (resolve env (url req)); Fetched (resolve env (url req))])
    as (n & Hm & Hcore & Ht).
  { revert Hrun. unfold fetch_handler.
    destruct (negb (bool_decide (method req = "GET"))); [intros [=]|].
    destruct (negb (startsWith (url req) "http")); [intros [=]|].
    destruct (_ || _); [intros [=]|].
    destruct (getBasePath_result env w) as (w1 & E & Hcore).
    unfold bind at 1. rewrite E.
    destruct (_ || _).
    { unfold bind. destruct (serve_version env req w1) as [[[r1|e] w2] t2];
        cbn; intros [=]. }
    unfold bind at 1.
    destruct (serve_cache_first env req w1) as [[[[r1 b]|e] w2] t2] eqn:Hs;
      cbn; [|intros [=]].
    intros [= -> -> <- <-].
    destruct (serve_cache_first_refreshing env req w1 r w2 t2 Hs)
      as (n & Hm & -> & ->).
    destruct Hcore as (? & ? & Hc). rewrite Hc in Hm. exists n.
    split_and!; [done | by split_and! | done]. }
  split_and!; [by exists n | | done | done |].
  - intros Honly. rewrite Hm. do 2 f_equal.
    destruct (match_any_Some _ _ _ _ Hm) as (c & Hin & Hc).
    destruct (decide (n = CACHE_NAME w)) as [|Hne]; [done|].
    rewrite (Honly _ _ Hin Hne) in Hc. done.
  - intros env2 w2 n' k Hput.
    destruct (background_refresh_run env2 req w2) as (w3 & _ & _ & Hev).
    destruct (Hev _ Hput) as [H|H]; [done|]. by injection H as -> ->.
Qed.

(** C6 at a request for the document while version 1 is active. *)
Lemma serve_from_cache_witness :
  match_any (caches active_v1) "https://kiosk/index.html"
  = Some ("totem-cache-1", page "v1").
Proof.
  refine (proj1 (proj2 (serve_from_cache (kiosk (site "1") healthy) index_html
    active_v1 (page "v1") active_v1
    [Matched "https://kiosk/index.html"; Fetched "https://kiosk/index.html"]
    _)) _).
  - vm_compute. reflexivity.
  - intros n c [[= -> ->]|H%elem_of_nil]%elem_of_cons Hne; [|done].
    exfalso. apply Hne. reflexivity.
Defined.

(** C6 as stated fails when an update commits between the answer and the
    background refresh of one request: the answer is the entry of
    [totem-cache-1], the generation the pointer names when the task starts,
    and the refresh of the same task writes into [totem-cache-2]. *)
Lemma serve_task_mixes_generations :
  let env := kiosk (site "2") healthy in
  let answered := fetch_handler env index_html active_v1 in
  let updated := updateCacheForNewVersion env "2" (state answered) in
  let refreshed := background_refresh env index_html (state updated) in
  CACHE_NAME active_v1 = "totem-cache-1"
  ∧ result answered = Ok (Responded (page "v1"), true)
  ∧ match_any (caches active_v1) "https://kiosk/index.html"
    = Some ("totem-cache-1", page "v1")
  ∧ trace refreshed
    = [Opened "totem-cache-2"; Put "totem-cache-2" "https://kiosk/index.html"]
  ∧ ¬ (∀ n k, Put n k ∈ trace refreshed → n = CACHE_NAME active_v1).
Proof.
  intros env answered updated refreshed.
  assert (trace refreshed
          = [Opened "totem-cache-2"; Put "totem-cache-2" "https://kiosk/index.html"])
    as Ht by by vm_compute.
  split_and!; [done | by vm_compute | by vm_compute | done |].
  intros H.
  assert (Put "totem-cache-2" "https://kiosk/index.html" ∈ trace refreshed) as Hin
    by (rewrite Ht; right; left).
  apply H in Hin. discriminate Hin.
Qed.

(** The same departure without any update in between: a worker restarted
    by the browser has its pointer back at the initial name, answers from
    the generation an earlier run stored, and refreshes into a cache of the
    initial name, which it thereby creates. *)
Lemma serve_after_restart_mixes_generations :
  result (fetch_handler (kiosk (site "1") healthy) index_html restarted)
  = Ok (Responded (page "v1"), true)
  ∧ match_any (caches restarted) "https://kiosk/index.html"
    = Some ("totem-cache-1", page "v1")
  ∧ trace (background_refresh (kiosk (site "1") healthy) index_html restarted)
    = [Opened "totem-cache-v9"; Put "totem-cache-v9" "https://kiosk/index.html"]
  ∧ keys_of (caches (state (background_refresh (kiosk (site "1") healthy)
                              index_html restarted)))
    = ["totem-cache-1"; "totem-cache-v9"].
Proof. split_and!; by vm_compute. Qed.

(** ** The older variant's update *)

(** The older update deletes the generation the pointer named before and
    no other: started on a restarted worker, whose pointer holds its
    initial name, it leaves the generation of the earlier run next to the
    new one. *)
Lemma legacy_update_leaves_stale_generation :
  keys_of (caches (state (Legacy.updateCacheForNewVersion
                            (kiosk (site "2") healthy) "2" legacy_restarted)))
  = ["totem-cache-1"; "totem-cache-2"]
  ∧ CACHE_NAME (state (Legacy.updateCacheForNewVersion
                         (kiosk (site "2") healthy) "2" legacy_restarted))
    = "totem-cache-2".
Proof. split; by vm_compute. Qed.

(** Asked for the version that is already active, the older update deletes
    the generation it has just refreshed, which the pointer names. *)
Lemma legacy_update_to_same_version_deletes_active :
  trace (Legacy.updateCacheForNewVersion (kiosk unreachable healthy) "1" active_v1)
  = [Opened "totem-cache-1";
     Fetched "https://kiosk/"; Fetched "https://kiosk/index.html";
     Fetched "https://kiosk/style.css"; Fetched "https://kiosk/main.js";
     Fetched "https://kiosk/media/video1.mp4";
     Fetched "https://kiosk/media/image1.png";
     Fetched "https://kiosk/manifest.json"; Fetched "https://kiosk/version.json";
     AssignCacheName "totem-cache-1"; AssignVersion "1";
     Deleted "totem-cache-1";
     PostClient 1 (CACHE_UPDATED "1"); PostClient 2 (CACHE_UPDATED "1")]
  ∧ caches (state (Legacy.updateCacheForNewVersion
                     (kiosk unreachable healthy) "1" active_v1)) = [].
Proof. split; by vm_compute. Qed.

(** * Further properties of the worker *)

(** ** Strings, continued *)

Lemma string_app_cons (x : ascii) (a b : string) :
  String x a +:+ b = String x (a +:+ b).
Proof. reflexivity. Qed.

Lemma string_app_nil_l (b : string) : "" +:+ b = b.
Proof. reflexivity. Qed.

Lemma string_app_assoc (a b c : string) : (a +:+ b) +:+ c = a +:+ (b +:+ c).
Proof.
  induction a as [|x a IH]; [done|]. by rewrite !string_app_cons, IH.
Qed.

Lemma string_app_nil_r (a : string) : a +:+ "" = a.
Proof. induction a as [|x a IH]; [done|]. by rewrite string_app_cons, IH. Qed.

Lemma rev_app_spec (s acc : string) :
  String.rev_app s acc = String.rev s +:+ acc.
Proof.
  unfold String.rev. revert acc. induction s as [|x s IH]; intros acc; [done|].
  cbn [String.rev_app]. rewrite (IH (String x acc)), (IH (String x "")).
  by rewrite string_app_assoc.
Qed.

Lemma rev_cons (x : ascii) (s : string) :
  String.rev (String x s) = String.rev s +:+ String x "".
Proof. unfold String.rev at 1. cbn [String.rev_app]. apply rev_app_spec. Qed.

Lemma rev_append (a b : string) :
  String.rev (a +:+ b) = String.rev b +:+ String.rev a.
Proof.
  induction a as [|x a IH].
  - by rewrite string_app_nil_l, string_app_nil_r.
  - by rewrite string_app_cons, !rev_cons, IH, string_app_assoc.
Qed.

Lemma rev_involutive (s : string) : String.rev (String.rev s) = s.
Proof.
  induction s as [|x s IH]; [done|].
  by rewrite rev_cons, rev_append, IH.
Qed.

Lemma endsWith_append (b s : string) : endsWith (b +:+ s) s = true.
Proof. unfold endsWith. rewrite rev_append. apply prefix_append. Qed.

Lemma has_char_rev c (s : string) : has_char c (String.rev s) = has_char c s.
Proof.
  induction s as [|x s IH]; [done|].
  rewrite rev_cons. cbn [has_char]. rewrite <- IH.
  generalize (String.rev s). intros r. induction r as [|y r IHr].
  - done.
  - rewrite string_app_cons. cbn [has_char]. rewrite IHr.
    destruct (Ascii.eqb y c), (Ascii.eqb x c); done.
Qed.

Lemma strip_trailing_slash_append (p : string) :
  strip_trailing_slash (p +:+ "/") = p.
Proof.
  unfold strip_trailing_slash. rewrite rev_append.
  change (String.rev "/") with "/". rewrite string_app_cons, string_app_nil_l.
  cbn [Ascii.eqb Bool.eqb]. apply rev_involutive.
Qed.

Lemma drop_through_slash_append (f r : string) :
  has_char "/" f = false →
  drop_through_slash (f +:+ String "/" r) = Some r.
Proof.
  induction f as [|x f IH]; intros H; [done|].
  rewrite string_app_cons. cbn [drop_through_slash has_char] in *.
  apply orb_false_elim in H as [Hx Hf]. rewrite Hx. by apply IH.
Qed.

Lemma strip_last_segment_append (p f : string) :
  has_char "/" f = false →
  strip_last_segment (p +:+ String "/" f) = p.
Proof.
  intros H. unfold strip_last_segment.
  rewrite rev_append, rev_cons, string_app_assoc.
  rewrite string_app_cons, string_app_nil_l.
  rewrite drop_through_slash_append by by rewrite has_char_rev.
  by rewrite rev_involutive.
Qed.

(** A needle without the character [c] cannot straddle an occurrence of
    [c]. *)
Lemma prefix_no_cross (f b s : string) c :
  has_char c f = false →
  String.prefix f (b +:+ String c s) = String.prefix f b.
Proof.
  revert f. induction b as [|x b IH]; intros f H.
  - rewrite string_app_nil_l. destruct f as [|y f]; [done|].
    cbn [String.prefix has_char] in *.
    apply orb_false_elim in H as [Hy _].
    destruct (ascii_dec y c) as [->|]; [|done].
    by rewrite Ascii.eqb_refl in Hy.
  - rewrite string_app_cons. destruct f as [|y f]; [done|].
    cbn [String.prefix has_char] in *.
    apply orb_false_elim in H as [_ Hf].
    destruct (ascii_dec y x); [by apply IH | done].
Qed.

Lemma includes_no_cross (f b s : string) c :
  has_char c f = false →
  includes (b +:+ String c s) f = includes b f || includes (String c s) f.
Proof.
  intros H. induction b as [|x b IH].
  - rewrite string_app_nil_l. cbn [includes]. rewrite orb_false_r.
    destruct f as [|y f]; [done|]. done.
  - rewrite string_app_cons. cbn [includes]. rewrite IH.
    rewrite <- string_app_cons, (prefix_no_cross _ _ _ _ H).
    cbn [includes]. by rewrite !orb_assoc.
Qed.

(** ** Base path *)

Lemma getBasePath_fixed env w b :
  BASE_PATH w = Some b → getBasePath env w = (Ok b, w, []).
Proof. intros H. unfold getBasePath, bind, get. cbn. by rewrite H. Qed.

(** X1. The base path is resolved once: as soon as the scope, the worker's
    location or an earlier call has given one, it is memoised, and every
    later call returns it unchanged whatever the environment has become,
    touching nothing. When neither scope nor location is available the
    answer is the empty path and nothing is memoised. *)
Theorem getBasePath_memoized env w :
  result (getBasePath env w) = Ok (base_path env w)
  ∧ (BASE_PATH w ≠ None ∨ scope_pathname env ≠ None
     ∨ truthy (location_pathname env) = true →
     BASE_PATH (state (getBasePath env w)) = Some (base_path env w)
     ∧ ∀ env2, getBasePath env2 (state (getBasePath env w))
               = (Ok (base_path env w), state (getBasePath env w), []))
  ∧ (BASE_PATH w = None → scope_pathname env = None →
     truthy (location_pathname env) = false →
     base_path env w = "" ∧ state (getBasePath env w) = w).
Proof.
  unfold base_path, result, state, getBasePath, bind, get. cbn.
  destruct (BASE_PATH w) as [b|] eqn:Hb; cbn.
  { split_and!; [done | | done]. intros _. split; [done|].
    intros env2. by rewrite Hb. }
  destruct (scope_pathname env) as [p|]; cbn.
  { split_and!; [done | | done]. intros _. split; done. }
  destruct (truthy (location_pathname env)); cbn.
  - split_and!; [done | | done]. intros _. split; done.
  - split_and!; [done | | done]. intros [?|[?|?]]; done.
Qed.

(** X2. With nothing memoised and a registration scope whose path is
    [p/], the base path is [p]: the asset list is the eight paths under
    [p], and the version probe asks for [p/version.json] with the clock as
    cache-busting parameter. *)
Theorem base_path_of_scope env w p :
  BASE_PATH w = None →
  scope_pathname env = Some (p +:+ "/") →
  base_path env w = p
  ∧ result (getAssets env w)
    = Ok [p +:+ "/"; p +:+ "/index.html"; p +:+ "/style.css"; p +:+ "/main.js";
          p +:+ "/media/video2.mp4"; p +:+ "/media/image2.png";
          p +:+ "/manifest.json"; p +:+ "/version.json"]
  ∧ trace (fetchVersion env w)
    = [Fetched (resolve env (p +:+ "/version.json?t=" +:+ pretty (now env)))].
Proof.
  intros Hb Hs.
  assert (base_path env w = p) as Hp.
  { unfold base_path, result, getBasePath, bind, get. cbn. rewrite Hb, Hs. cbn.
    apply strip_trailing_slash_append. }
  split_and!; [done | |].
  - destruct (getAssets_run env w) as (w1 & -> & _). by rewrite Hp.
  - destruct (fetchVersion_run env w) as (w1 & -> & _).
    unfold version_url. by rewrite Hp.
Qed.

(** X2 at a kiosk deployed under [/totem-test/]. *)
Lemma base_path_of_scope_witness :
  base_path
    {| net := unreachable; now := 7%N; clients := [];
       scope_pathname := Some "/totem-test/";
       location_pathname := Some "/totem-test/service-worker.js";
       origin := "https://kiosk"; storage := healthy |}
    (started [])
  = "/totem-test".
Proof.
  refine (proj1 (base_path_of_scope
    {| net := unreachable; now := 7%N; clients := [];
       scope_pathname := Some "/totem-test/";
       location_pathname := Some "/totem-test/service-worker.js";
       origin := "https://kiosk"; storage := healthy |}
    (started []) "/totem-test" eq_refl eq_refl)).
Defined.

(** ** Entries of the storage *)

Lemma lookup_cache_None (s : CacheStorage) n :
  n ∉ keys_of s → lookup_cache s n = None.
Proof.
  induction s as [|[m c] s IH]; [done|]. cbn. intros Hin.
  apply not_elem_of_cons in Hin as [Hne Hin].
  rewrite bool_decide_false by done. by apply IH.
Qed.

Lemma entry_open (s : CacheStorage) n m k :
  entry (open_cache s n) m k = entry s m k.
Proof.
  unfold entry, open_cache, has_cache. case_bool_decide as Hin; [done|].
  induction s as [|[x c] s IH]; cbn.
  - by case_bool_decide.
  - case_bool_decide as E; [done|]. apply IH. intros Hx. apply Hin. by right.
Qed.

Lemma entry_put_eq (s : CacheStorage) n k r :
  n ∈ keys_of s → entry (put_entry s n k r) n k = Some r.
Proof.
  unfold entry. induction s as [|[m c] s IH]; cbn; [by intros ?%elem_of_nil|].
  intros H. case_bool_decide as E; cbn.
  - rewrite bool_decide_true by done. cbn. apply lookup_insert_eq.
  - rewrite bool_decide_false by done. apply IH.
    apply elem_of_cons in H as [|]; [congruence | done].
Qed.

Lemma entry_put_ne (s : CacheStorage) n k r m j :
  m ≠ n ∨ j ≠ k → entry (put_entry s n k r) m j = entry s m j.
Proof.
  unfold entry. intros H. induction s as [|[x c] s IH]; cbn; [done|].
  case_bool_decide as E; cbn.
  - subst x. case_bool_decide as E2; cbn; [|done].
    destruct H as [H|H]; [congruence|]. by apply lookup_insert_ne.
  - case_bool_decide as E2; [done | exact IH].
Qed.

Lemma entry_delete_ne (s : CacheStorage) n m k :
  m ≠ n → entry (delete_cache s n) m k = entry s m k.
Proof.
  unfold entry. intros H. induction s as [|[x c] s IH]; cbn; [done|].
  case_bool_decide as E; cbn.
  - subst x. rewrite bool_decide_false by done. exact IH.
  - case_bool_decide as E2; [done | exact IH].
Qed.

Lemma entry_is_match (s : CacheStorage) n k r :
  entry s n k = Some r → is_Some (match_any s k).
Proof.
  unfold entry. induction s as [|[x c] s IH]; cbn; [done|].
  case_bool_decide as E; cbn.
  - intros ->. done.
  - intros Hs. destruct (c !! k); [done | by apply IH].
Qed.

Lemma match_any_put_present (s : CacheStorage) n k r :
  n ∈ keys_of s →
  (∀ m c, (m, c) ∈ s → m ≠ n → c !! k = None) →
  match_any (put_entry s n k r) k = Some (n, r).
Proof.
  induction s as [|[x c] s IH]; intros Hin H; [by apply elem_of_nil in Hin|].
  cbn [put_entry]. case_bool_decide as E; cbn [match_any].
  - subst x. by rewrite lookup_insert_eq.
  - rewrite (H x c) by (done || left).
    apply elem_of_cons in Hin as [|Hin]; [cbn in *; congruence|].
    apply IH; [done|]. intros m c' Hm. apply H. by right.
Qed.

Lemma match_any_put_absent (s : CacheStorage) n k r :
  (∀ m c, (m, c) ∈ s → m ≠ n → c !! k = None) →
  n ∉ keys_of s →
  match_any (put_entry (s ++ [(n, ∅)]) n k r) k = Some (n, r).
Proof.
  induction s as [|[x c] s IH]; intros H Hin.
  - cbn. rewrite bool_decide_true by done. cbn. by rewrite lookup_insert_eq.
  - apply not_elem_of_cons in Hin as [Hne Hin]. cbn in Hne.
    cbn [app put_entry]. rewrite bool_decide_false by done. cbn [match_any].
    rewrite (H x c) by (done || left).
    apply IH; [|done]. intros m c' Hm. apply H. by right.
Qed.

(** Writing into the cache [n], opened first, an entry for a key that no
    cache of another name holds: [caches.match] finds that entry. *)
Lemma match_any_put (s : CacheStorage) n k r :
  (∀ m c, (m, c) ∈ s → m ≠ n → c !! k = None) →
  match_any (put_entry (open_cache s n) n k r) k = Some (n, r).
Proof.
  intros H. unfold open_cache, has_cache. case_bool_decide as Hin.
  - by apply match_any_put_present.
  - by apply match_any_put_absent.
Qed.

Lemma match_any_None (s : CacheStorage) k :
  match_any s k = None → ∀ m c, (m, c) ∈ s → c !! k = None.
Proof.
  induction s as [|[x c] s IH]; cbn; [by intros _ ?? ?%elem_of_nil|].
  destruct (c !! k) eqn:E; [done|].
  intros Hs m c' [[= -> ->]|Hin]%elem_of_cons; [done | by eapply IH].
Qed.

(** ** Downloads, exactly *)

Lemma download_exact env c v a w :
  ∃ tr,
    download env c v (now env) a w
    = (Ok (a, fetched env v a),
       set_caches (store_download env c v (caches w) a) w, tr)
    ∧ Forall is_transfer tr.
Proof.
  unfold download, try_catch, bind, fetch, fetched, store_download, store_with,
    delivered.
  destruct (net env _) as [r|]; cbn [fst snd].
  2:{ rewrite set_caches_id. eexists. split; [done | by repeat constructor]. }
  destruct (ok r); cbn [andb fst snd].
  2:{ rewrite set_caches_id. eexists. split; [done | by repeat constructor]. }
  unfold cache_put. destruct (put_fails _ _); cbn [negb fst snd].
  - rewrite set_caches_id. eexists. split; [done | by repeat constructor].
  - eexists. split; [done | by repeat constructor].
Qed.

Lemma downloads_exact env c v assets w :
  ∃ tr,
    all_settled (download env c v (now env) <$> assets) w
    = (Ok ((λ a, Ok (a, fetched env v a)) <$> assets),
       set_caches (foldl (store_download env c v) (caches w) assets) w, tr)
    ∧ Forall is_transfer tr.
Proof.
  revert w. induction assets as [|a assets IH]; intros w.
  - cbn. rewrite set_caches_id. eexists. split; [done | constructor].
  - rewrite !fmap_cons. cbn [all_settled foldl].
    destruct (download_exact env c v a w) as (t1 & -> & F1).
    destruct (IH (set_caches (store_download env c v (caches w) a) w))
      as (t2 & -> & F2).
    eexists. split; [done | by apply Forall_app].
Qed.

Lemma keys_store_with d env c (s : CacheStorage) a :
  keys_of (store_with d env c s a) = keys_of s.
Proof. unfold store_with. destruct (d a); [|done]. apply keys_put_entry. Qed.

Lemma keys_store_all d env c (s : CacheStorage) assets :
  keys_of (foldl (store_with d env c) s assets) = keys_of s.
Proof.
  revert s. induction assets as [|a assets IH]; intros s; [done|].
  cbn. by rewrite IH, keys_store_with.
Qed.

Lemma entry_store_all_other d env c (s : CacheStorage) assets m k :
  m ≠ c ∨ k ∉ resolve env <$> assets →
  entry (foldl (store_with d env c) s assets) m k = entry s m k.
Proof.
  revert s. induction assets as [|a assets IH]; intros s H; [done|].
  cbn [foldl]. rewrite IH.
  - unfold store_with. destruct (d a); [|done].
    apply entry_put_ne. destruct H as [H|H]; [by left | right].
    intros ->. apply H. rewrite fmap_cons. left.
  - destruct H as [H|H]; [by left | right].
    intros Hin. apply H. rewrite fmap_cons. by right.
Qed.

(** After the writes into an existing cache [c], under keys that are
    pairwise distinct, the entry of an asset is the response written for
    it, else what was there before. *)
Lemma entry_store_all d env c (s : CacheStorage) assets a :
  NoDup (resolve env <$> assets) → c ∈ keys_of s → a ∈ assets →
  entry (foldl (store_with d env c) s assets) c (resolve env a)
  = match d a with
    | Some r => Some r
    | None => entry s c (resolve env a)
    end.
Proof.
  revert s. induction assets as [|x assets IH]; intros s Hnd Hc Ha;
    [by apply elem_of_nil in Ha|].
  rewrite fmap_cons in Hnd. apply NoDup_cons in Hnd as [Hx Hnd].
  cbn [foldl]. apply elem_of_cons in Ha as [->|Ha].
  - rewrite entry_store_all_other by by right.
    unfold store_with. destruct (d x); [|done].
    by apply entry_put_eq.
  - rewrite IH by (done || by rewrite keys_store_with).
    destruct (d a); [done|].
    unfold store_with. destruct (d x); [|done].
    apply entry_put_ne. right. intros E. apply Hx. rewrite <- E.
    apply list_elem_of_fmap. by exists a.
Qed.

(** Every asset URL is resolved in the same way: by one prefix put before
    its path. *)
Lemma resolve_under_base env (b : string) :
  ∃ pre, ∀ p, startsWith p "/" = true → resolve env (b +:+ p) = pre +:+ p.
Proof.
  unfold resolve, startsWith. destruct b as [|x b].
  - exists (origin env). intros p Hp. by rewrite string_app_nil_l, Hp.
  - destruct (ascii_dec "/" x) as [<-|Hne].
    + exists (origin env +:+ String "/" b). intros p _.
      rewrite string_app_cons. cbn [String.prefix].
      destruct (ascii_dec "/" "/"); [|done].
      assert (String.prefix "" (b +:+ p) = true) as -> by by destruct (b +:+ p).
      by rewrite <- string_app_cons, string_app_assoc.
    + exists (String x b). intros p _.
      rewrite string_app_cons. cbn [String.prefix].
      by destruct (ascii_dec "/" x).
Qed.

Lemma NoDup_asset_keys env (b : string) :
  NoDup (resolve env <$> ((λ p, b +:+ p) <$> asset_paths)).
Proof.
  destruct (resolve_under_base env b) as (pre & Hpre).
  assert (resolve env <$> ((λ p, b +:+ p) <$> asset_paths)
          = (λ p, pre +:+ p) <$> asset_paths) as ->.
  { rewrite <- list_fmap_compose. apply Forall_fmap_ext_1.
    unfold asset_paths. repeat constructor; cbn; by apply Hpre. }
  apply (NoDup_fmap_2 _). unfold asset_paths.
  apply (bool_decide_unpack _). by vm_compute.
Qed.

(** ** The gate *)

Lemma find_under_base (b f : string) (paths : list string) :
  has_char "/" f = false → includes b f = false →
  Forall (λ p, ∃ t, p = String "/" t) paths →
  List.find (λ a, includes a f) ((λ p, b +:+ p) <$> paths)
  = (λ p, b +:+ p) <$> List.find (λ p, includes p f) paths.
Proof.
  intros Hf Hb. induction 1 as [|p paths (t & ->) _ IH]; [done|].
  rewrite fmap_cons. cbn [List.find].
  rewrite includes_no_cross, Hb by done. cbn [orb].
  destruct (includes (String "/" t) f); [done | exact IH].
Qed.

Lemma existsb_results {A} `{EqDecision A} (g : A → bool) (x : A) (l : list A) :
  existsb (λ r : Res (A * bool),
             match r with
             | Ok (a, success) => bool_decide (Some a = Some x) && success
             | Throw _ => false
             end)
          ((λ a, Ok (a, g a)) <$> l)
  = bool_decide (x ∈ l) && g x.
Proof.
  induction l as [|a l IH]; [done|].
  rewrite fmap_cons. cbn [existsb]. rewrite IH.
  destruct (decide (a = x)) as [->|Hne].
  - rewrite bool_decide_true by done.
    rewrite (bool_decide_true (x ∈ x :: l)) by left.
    cbn. by destruct (g x), (bool_decide (x ∈ l)).
  - rewrite bool_decide_false by congruence. cbn [andb orb].
    f_equal. apply bool_decide_ext. rewrite elem_of_cons. intuition congruence.
Qed.

Lemma asset_paths_rooted : Forall (λ p, ∃ t, p = String "/" t) asset_paths.
Proof. unfold asset_paths. repeat constructor; by eexists. Qed.

(** The essential file [f], found in the asset list as the path [p],
    counts as arrived exactly when the download of the asset at [p]
    succeeded. *)
Lemma essential_arrived (b f p : string) (g : string → bool) :
  has_char "/" f = false → includes b f = false →
  List.find (λ q, includes q f) asset_paths = Some p →
  existsb (λ r : Res (string * bool),
             match r with
             | Ok (a, success) =>
                 bool_decide
                   (Some a = List.find (λ a, includes a f)
                               ((λ p, b +:+ p) <$> asset_paths))
                 && success
             | Throw _ => false
             end)
          ((λ a, Ok (a, g a)) <$> ((λ p, b +:+ p) <$> asset_paths))
  = g (b +:+ p).
Proof.
  intros Hf Hb Hp.
  rewrite (find_under_base b f asset_paths Hf Hb asset_paths_rooted), Hp.
  cbn [fmap option_fmap option_map].
  rewrite existsb_results, bool_decide_true; [done|].
  apply list_elem_of_fmap. exists p. split; [done|].
  apply List.find_some in Hp as [Hin _]. by apply list_elem_of_In.
Qed.

Lemma update_gate_exact env v w :
  open_rejects (storage env) = false →
  let new := PREFIX +:+ v in
  let assets := (λ p, base_path env w +:+ p) <$> asset_paths in
  ∃ w1 t,
    update_gate env v w
    = (Ok (hasEssential assets ((λ a, Ok (a, fetched env v a)) <$> assets)),
       w1, Opened new :: t)
    ∧ CACHE_NAME w1 = CACHE_NAME w
    ∧ CURRENT_VERSION w1 = CURRENT_VERSION w
    ∧ caches w1
      = foldl (store_download env new v) (open_cache (caches w) new) assets
    ∧ Forall is_transfer t.
Proof.
  intros Hopen new assets.
  destruct (getAssets_run env w) as (w1 & E1 & Hn1 & Hv1 & Hc1).
  unfold update_gate. fold new. unfold bind at 1. rewrite E1. fold assets.
  unfold bind at 1. unfold caches_open at 1. rewrite Hopen.
  unfold bind at 1.
  destruct (downloads_exact env new v assets
              (set_caches (open_cache (caches w1) new) w1)) as (t & -> & F).
  cbn [ret fst snd caches set_caches].
  eexists _, t. split_and!; [by rewrite app_nil_r | done | done | | done].
  cbn. by rewrite Hc1.
Qed.

(** X3. When the base path contains none of the names [index.html],
    [main.js], [style.css], [version.json], the gate of the update passes
    exactly when the download of at least one of these four assets
    succeeded (a successful answer to the cache-busting request, written
    into the new generation). The root document, the media files and the
    manifest do not count. *)
Theorem update_gate_iff env v w :
  open_rejects (storage env) = false →
  Forall (λ f, includes (base_path env w) f = false) essentialFiles →
  result (update_gate env v w)
  = Ok (existsb (λ f, fetched env v (base_path env w +:+ String "/" f))
                essentialFiles).
Proof.
  intros Hopen Hb.
  destruct (update_gate_exact env v w Hopen) as (w1 & t & -> & _).
  unfold result. cbn [fst]. f_equal.
  unfold essentialFiles in *.
  apply Forall_cons in Hb as [H1 Hb]. apply Forall_cons in Hb as [H2 Hb].
  apply Forall_cons in Hb as [H3 Hb]. apply Forall_cons in Hb as [H4 _].
  unfold hasEssential, essentialFiles. cbn [existsb].
  rewrite (essential_arrived _ "index.html" "/index.html") by done.
  rewrite (essential_arrived _ "main.js" "/main.js") by done.
  rewrite (essential_arrived _ "style.css" "/style.css") by done.
  rewrite (essential_arrived _ "version.json" "/version.json") by done.
  done.
Qed.

(** X3 at a site on which only the stylesheet is missing, and at an
    unreachable one. *)
Lemma update_gate_iff_witness :
  result (update_gate (kiosk (site_without "style.css" "2") healthy) "2" active_v1)
  = Ok true
  ∧ result (update_gate (kiosk unreachable healthy) "2" active_v1) = Ok false.
Proof.
  split.
  - rewrite (update_gate_iff (kiosk (site_without "style.css" "2") healthy) "2"
               active_v1 eq_refl); [by vm_compute|].
    repeat constructor.
  - rewrite (update_gate_iff (kiosk unreachable healthy) "2" active_v1 eq_refl);
      [by vm_compute|].
    repeat constructor.
Defined.

(** ** What a committed update stores *)

Lemma entry_delete_all env (s : CacheStorage) names m k :
  m ∉ names → entry (delete_all env s names) m k = entry s m k.
Proof.
  unfold delete_all. destruct (delete_rejects _); [done|].
  revert s. induction names as [|n names IH]; intros s H; [done|].
  apply not_elem_of_cons in H as [Hne H]. cbn [foldl].
  rewrite IH by done. by apply entry_delete_ne.
Qed.

Lemma gate_needs_open env v w passed :
  result (update_gate env v w) = Ok passed → open_rejects (storage env) = false.
Proof.
  intros H. pose proof (update_gate_run env v w) as Hrun. cbn in Hrun.
  destruct (open_rejects (storage env)); [|done].
  destruct Hrun as (w1 & E & _). unfold result in H. by rewrite E in H.
Qed.

(** The storage and the pointer after an update whose gate passes and
    whose [try] block completes. *)
Lemma update_committed env v w :
  result (update_gate env v w) = Ok true →
  result (update_body env v w) = Ok tt →
  let new := PREFIX +:+ v in
  let assets := (λ p, base_path env w +:+ p) <$> asset_paths in
  let filled :=
    foldl (store_download env new v) (open_cache (caches w) new) assets in
  let w' := state (updateCacheForNewVersion env v w) in
  CACHE_NAME w' = new ∧ CURRENT_VERSION w' = Some v
  ∧ caches w' = delete_all env filled (superseded new (keys_of filled))
  ∧ keys_rejects (storage env) = false
  ∧ (delete_rejects (storage env) = true → superseded new (keys_of filled) = []).
Proof.
  intros Hgate Hbody new assets filled w'. unfold w'.
  rewrite update_when_body_ok by done.
  pose proof (gate_needs_open _ _ _ _ Hgate) as Hopen.
  destruct (update_gate_exact env v w Hopen) as (w1 & t & E & Hn & Hv & Hc & F).
  fold new assets in Hc. fold filled in Hc.
  revert Hbody. rewrite update_body_split. unfold result, state, bind in *.
  destruct (update_gate env v w) as [[r0 w0] t0]. cbn [fst] in Hgate. subst r0.
  injection E as _ -> ->. cbn [negb].
  destruct (update_commit_at env v w1)
    as (res & w2 & posts & -> & _ & Hn2 & Hv2 & Hres).
  cbn [fst snd]. intros ->. destruct (Hres eq_refl) as (Hk & Hc2 & Hrej).
  rewrite Hc in Hc2, Hrej. by split_and!.
Qed.




(** X4. After an update that passes the gate and completes, the new
    generation holds, under the original URL of each asset, the response
    to that asset's cache-busting request whenever its download succeeded;
    for an asset whose download failed it holds what a generation of that
    name held before the update (nothing, if there was none). *)
Theorem update_stores_downloads env v w p :
  result (update_gate env v w) = Ok true →
  result (update_body env v w) = Ok tt →
  p ∈ asset_paths →
  entry (caches (state (updateCacheForNewVersion env v w))) (PREFIX +:+ v)
        (resolve env (base_path env w +:+ p))
  = match delivered env v (base_path env w +:+ p) with
    | Some r => Some r
    | None => entry (caches w) (PREFIX +:+ v) (resolve env (base_path env w +:+ p))
    end.
Proof.
  intros Hgate Hbody Hp.
  destruct (update_committed env v w Hgate Hbody) as (_ & _ & -> & _ & _).
  rewrite entry_delete_all by (rewrite superseded_spec; tauto).
  unfold store_download.
  rewrite entry_store_all.
  - destruct (delivered _ _ _); [done | apply entry_open].
  - apply NoDup_asset_keys.
  - apply elem_of_keys_open.
  - apply list_elem_of_fmap. by exists p.
Qed.

(** X4 at an update to version 2 on a site that lacks the stylesheet:
    the document of version 2 is stored under its plain URL, the
    stylesheet is not. *)
Lemma update_stores_downloads_witness :
  entry (caches (state (updateCacheForNewVersion
                          (kiosk (site_without "style.css" "2") healthy) "2"
                          active_v1)))
        "totem-cache-2" "https://kiosk/index.html"
  = Some (page "https://kiosk/index.html?_v=2&_t=1733054400")
  ∧ entry (caches (state (updateCacheForNewVersion
                            (kiosk (site_without "style.css" "2") healthy) "2"
                            active_v1)))
          "totem-cache-2" "https://kiosk/style.css"
    = None.
Proof.
  split.
  - refine (eq_trans (update_stores_downloads
      (kiosk (site_without "style.css" "2") healthy) "2" active_v1 "/index.html"
      _ _ _) _); [by vm_compute | by vm_compute | | by vm_compute].
    right. left.
  - refine (eq_trans (update_stores_downloads
      (kiosk (site_without "style.css" "2") healthy) "2" active_v1 "/style.css"
      _ _ _) _); [by vm_compute | by vm_compute | | by vm_compute].
    do 2 right. left.
Defined.

(** X5. After a completed update to a version [v] (not empty, free of line
    terminators) the inventory reports [v], whatever generations were
    stored before; the next update check therefore answers true exactly
    when the remote version is known and is not [v]. *)
Theorem update_then_inventory env v w env2 :
  result (update_gate env v w) = Ok true →
  result (update_body env v w) = Ok tt →
  nonempty v = true → dot_plus v = v →
  keys_rejects (storage env2) = false →
  result (getCachedVersion env2 (state (updateCacheForNewVersion env v w)))
  = Ok (Some v)
  ∧ result (checkForUpdate env2 (state (updateCacheForNewVersion env v w)))
    = Ok (match remote_version env2 (state (updateCacheForNewVersion env v w)) with
          | Some r => negb (bool_decide (r = v))
          | None => false
          end).
Proof.
  intros Hgate Hbody Hne Hdot Hkeys.
  destruct (update_committed env v w Hgate Hbody) as (_ & _ & Hc & _ & Hrej).
  set (w' := state (updateCacheForNewVersion env v w)) in *.
  set (new := PREFIX +:+ v) in *.
  set (filled := foldl _ _ _) in *.
  pose proof (keys_after_commit env filled new Hrej) as Hmem. rewrite <- Hc in Hmem.
  assert (local_version env2 (caches w') = Some v) as Hlocal.
  { unfold local_version. rewrite Hkeys.
    rewrite (latest_of_greatest_suffix _ v).
    - by rewrite (match_version_suffix _ Hne Hdot).
    - apply Hmem. split; [|rewrite superseded_spec; tauto].
      unfold filled, store_download. rewrite keys_store_all.
      apply elem_of_keys_open.
    - intros v' [Hin Hold]%Hmem.
      destruct (decide (PREFIX +:+ v' = new)) as [E|Hne'].
      + apply (inj (String.app PREFIX)) in E. by subst.
      + exfalso. apply Hold, superseded_spec.
        split_and!; [done | apply startsWith_PREFIX | done]. }
  split.
  - destruct (getCachedVersion_run env2 w') as (t & ->). unfold result. cbn [fst].
    by rewrite Hlocal.
  - destruct (checkForUpdate_run env2 w') as (w2 & t & -> & _).
    unfold result. cbn [fst]. f_equal. rewrite Hlocal. cbn [truthy].
    rewrite Hne. cbn [negb orb].
    destruct (remote_version_known env2 w') as [Hr|Hr].
    + by rewrite Hr.
    + rewrite Hr. cbn [andb]. apply truthy_Some in Hr. rewrite Hr.
      cbn [default from_option id]. f_equal. apply bool_decide_ext.
      split; [by intros [= ->] | by intros ->].
Qed.

(** X5 at an update from version 1 to version 2, checked afterwards
    against the same site. *)
Lemma update_then_inventory_witness :
  result (checkForUpdate (kiosk (site "2") healthy)
            (state (updateCacheForNewVersion (kiosk (site "2") healthy) "2"
                      active_v1)))
  = Ok false.
Proof.
  refine (eq_trans (proj2 (update_then_inventory (kiosk (site "2") healthy) "2"
    active_v1 (kiosk (site "2") healthy) _ _ eq_refl eq_refl eq_refl)) _);
    by vm_compute.
Defined.

Lemma update_commit_keys_reject env v w1 :
  keys_rejects (storage env) = true →
  update_commit env v w1
  = (Throw "keys",
     {| CACHE_NAME := PREFIX +:+ v; CURRENT_VERSION := Some v;
        BASE_PATH := BASE_PATH w1; caches := caches w1 |},
     [AssignCacheName (PREFIX +:+ v); AssignVersion v; Keys]).
Proof.
  intros H. unfold update_commit, bind, assign_CACHE_NAME, assign_CURRENT_VERSION,
    caches_keys. by rewrite H.
Qed.

(** X6. When [caches.keys] rejects after the gate has passed, the update
    ends in its [catch] block with the pointer already reassigned: the
    clients are told [CACHE_UPDATE_FAILED], yet the pointer names the new
    generation, which holds the downloads, and no generation has been
    deleted. *)
Theorem update_fails_after_commit env v w :
  result (update_gate env v w) = Ok true →
  keys_rejects (storage env) = true →
  CACHE_NAME (state (updateCacheForNewVersion env v w)) = PREFIX +:+ v
  ∧ CURRENT_VERSION (state (updateCacheForNewVersion env v w)) = Some v
  ∧ caches (state (updateCacheForNewVersion env v w))
    = foldl (store_download env (PREFIX +:+ v) v)
            (open_cache (caches w) (PREFIX +:+ v))
            ((λ p, base_path env w +:+ p) <$> asset_paths)
  ∧ (∀ c, c ∈ clients env →
          PostClient c (CACHE_UPDATE_FAILED "keys")
          ∈ trace (updateCacheForNewVersion env v w))
  ∧ (∀ c ver, PostClient c (CACHE_UPDATED ver)
              ∉ trace (updateCacheForNewVersion env v w))
  ∧ (∀ n, Deleted n ∉ trace (updateCacheForNewVersion env v w)).
Proof.
  intros Hgate Hkeys.
  pose proof (gate_needs_open _ _ _ _ Hgate) as Hopen.
  destruct (update_gate_exact env v w Hopen) as (w1 & t & E & Hn & Hv & Hc & F).
  assert (update_body env v w
          = (Throw "keys",
             {| CACHE_NAME := PREFIX +:+ v; CURRENT_VERSION := Some v;
                BASE_PATH := BASE_PATH w1; caches := caches w1 |},
             (Opened (PREFIX +:+ v) :: t)
             ++ [AssignCacheName (PREFIX +:+ v); AssignVersion v; Keys])) as Hbody.
  { rewrite update_body_split. unfold result, bind in *.
    destruct (update_gate env v w) as [[r0 w0] t0]. cbn [fst] in Hgate. subst r0.
    injection E as _ -> ->. cbn [negb].
    by rewrite (update_commit_keys_reject env v w1 Hkeys). }
  rewrite (update_when_body_throws env v w "keys")
    by (unfold result; by rewrite Hbody).
  unfold state, trace. rewrite Hbody. cbn [fst snd caches CACHE_NAME CURRENT_VERSION].
  rewrite Forall_forall in F.
  split_and!; [done | done | done | | |].
  - intros c Hin. apply elem_of_app. right. apply list_elem_of_fmap. by exists c.
  - intros c ver [[?|[Hin|Hin]%elem_of_app]%elem_of_cons|Hin]%elem_of_app.
    + done.
    + by apply F in Hin.
    + apply elem_of_cons in Hin as [?|[?|[?|?%elem_of_nil]%elem_of_cons]%elem_of_cons];
        done.
    + apply list_elem_of_fmap in Hin as (c' & ? & _). done.
  - intros n [[?|[Hin|Hin]%elem_of_app]%elem_of_cons|Hin]%elem_of_app.
    + done.
    + by apply F in Hin.
    + apply elem_of_cons in Hin as [?|[?|[?|?%elem_of_nil]%elem_of_cons]%elem_of_cons];
        done.
    + apply list_elem_of_fmap in Hin as (c' & ? & _). done.
Qed.

(** X6 at an update to version 2 with the site reachable and [caches.keys]
    rejecting. *)
Lemma update_fails_after_commit_witness :
  CACHE_NAME (state (updateCacheForNewVersion (kiosk (site "2") no_keys) "2"
                       active_v1))
  = "totem-cache-2"
  ∧ keys_of (caches (state (updateCacheForNewVersion (kiosk (site "2") no_keys) "2"
                              active_v1)))
    = ["totem-cache-1"; "totem-cache-2"].
Proof.
  destruct (update_fails_after_commit (kiosk (site "2") no_keys) "2" active_v1)
    as (Hn & _ & Hc & _); [by vm_compute | done |].
  split; [exact Hn|]. rewrite Hc. by vm_compute.
Defined.

(** ** Activation, exactly *)

Lemma foldl_delete_filter (s : CacheStorage) (names : list string) :
  foldl delete_cache s names
  = List.filter (λ nc, negb (bool_decide (nc.1 ∈ names))) s.
Proof.
  revert s. induction names as [|n names IH]; intros s; cbn [foldl].
  - induction s as [|nc s IHs]; [done|]. cbn [List.filter].
    rewrite bool_decide_false by apply not_elem_of_nil. cbn [negb]. by f_equal.
  - rewrite IH. unfold delete_cache. clear.
    induction s as [|nc s IHs]; [done|]. cbn [List.filter].
    destruct (decide (nc.1 = n)) as [E|E].
    + rewrite (bool_decide_true (nc.1 = n)) by done. cbn [negb].
      rewrite (bool_decide_true (nc.1 ∈ n :: names)) by (rewrite E; left).
      cbn [negb]. exact IHs.
    + rewrite (bool_decide_false (nc.1 = n)) by done. cbn [negb List.filter].
      destruct (decide (nc.1 ∈ names)) as [Hin|Hin].
      * rewrite (bool_decide_true (nc.1 ∈ names)) by done.
        rewrite (bool_decide_true (nc.1 ∈ n :: names)) by by right.
        cbn [negb]. exact IHs.
      * rewrite (bool_decide_false (nc.1 ∈ names)) by done.
        rewrite (bool_decide_false (nc.1 ∈ n :: names))
          by (intros [?|?]%elem_of_cons; done).
        cbn [negb]. by f_equal.
Qed.

Lemma delete_superseded env keep (s : CacheStorage) :
  delete_rejects (storage env) = false →
  delete_all env s (superseded keep (keys_of s)) = swept keep s.
Proof.
  intros H. unfold delete_all, swept. rewrite H, foldl_delete_filter.
  apply List.filter_ext_in. intros [n c] Hin. cbn [fst]. f_equal.
  apply list_elem_of_In in Hin.
  destruct (startsWith n PREFIX && negb (bool_decide (n = keep))) eqn:E.
  - apply bool_decide_eq_true, superseded_spec.
    apply andb_true_iff in E as [E1 E2].
    apply negb_true_iff, bool_decide_eq_false in E2.
    split_and!; [|done|done]. apply list_elem_of_fmap. by exists (n, c).
  - apply bool_decide_eq_false. rewrite superseded_spec. intros (_ & E1 & E2).
    rewrite E1 in E. cbn in E. apply negb_false_iff, bool_decide_eq_true in E. done.
Qed.

Lemma swept_idempotent keep (s : CacheStorage) :
  swept keep (swept keep s) = swept keep s.
Proof.
  unfold swept. induction s as [|nc s IH]; [done|]. cbn [List.filter].
  destruct (negb _) eqn:E; [|exact IH]. cbn [List.filter]. rewrite E. by f_equal.
Qed.

Lemma superseded_swept keep (s : CacheStorage) :
  superseded keep (keys_of (swept keep s)) = [].
Proof.
  unfold superseded, swept, keys_of. induction s as [|[n c] s IH]; [done|].
  cbn [List.filter fst]. destruct (negb _) eqn:E; [|exact IH].
  cbn [fmap list_fmap List.filter fst].
  apply negb_true_iff in E. rewrite E. exact IH.
Qed.

Lemma getCachedVersion_quiet env w :
  Forall is_quiet (trace (getCachedVersion env w)).
Proof.
  unfold getCachedVersion, try_catch, bind, caches_keys, trace.
  destruct (keys_rejects _); cbn [fst snd]; [by repeat constructor|].
  destruct (Nat.eqb _ 0); [by repeat constructor|].
  destruct (head _) as [name|]; cbn; [|by repeat constructor].
  destruct (match_version name); cbn; [by repeat constructor|].
  unfold caches_open, cache_match.
  destruct (open_rejects _); cbn; [by repeat constructor|].
  destruct (match_rejects _); cbn; [by repeat constructor|].
  destruct (lookup_cache _ _ ≫= _) as [[st [txt|ver]]|]; cbn;
    by repeat constructor.
Qed.

Lemma initializeCacheName_quiet env w :
  Forall is_quiet (trace (initializeCacheName env w)).
Proof.
  destruct (fetchVersion_run env w) as (w2 & Ef & _).
  unfold initializeCacheName, bind, trace. rewrite Ef.
  destruct (truthy (remote_version env w)); cbn; [by repeat constructor|].
  pose proof (getCachedVersion_quiet env w2) as Hq. unfold trace in Hq.
  destruct (getCachedVersion env w2) as [[[lv|e] w3] t3]; cbn in *.
  - destruct (truthy lv); cbn; constructor; try done;
      (apply Forall_app; split; [done | by repeat constructor]).
  - by constructor.
Qed.

(** The run of activate when listing and deleting work. *)
Lemma activate_exact env w :
  keys_rejects (storage env) = false →
  delete_rejects (storage env) = false →
  ∃ w1 t1,
    (if negb (truthy (CURRENT_VERSION w)) then initializeCacheName env else ret ()) w
    = (Ok tt, w1, t1)
    ∧ activate env w
      = (Ok tt, set_caches (swept (CACHE_NAME w1) (caches w1)) w1,
         t1 ++ Keys :: (Deleted <$> superseded (CACHE_NAME w1) (keys_of (caches w1)))
            ++ [Claim])
    ∧ caches w1 = caches w
    ∧ (truthy (CURRENT_VERSION w) = true → w1 = w).
Proof.
  intros Hkeys Hdel.
  assert (∃ w1 t1,
    (if negb (truthy (CURRENT_VERSION w)) then initializeCacheName env else ret ()) w
    = (Ok tt, w1, t1) ∧ caches w1 = caches w
    ∧ (truthy (CURRENT_VERSION w) = true → w1 = w))
    as (w1 & t1 & E1 & Hc & Hsame).
  { destruct (truthy (CURRENT_VERSION w)); cbn [negb]; [by eexists _, _|].
    destruct (initializeCacheName_run env w) as (w1 & t1 & -> & _ & Hc).
    by eexists _, _. }
  exists w1, t1. split_and!; [done | | done | done].
  unfold activate. unfold bind at 1. unfold get at 1. unfold bind at 1.
  rewrite E1. unfold bind at 1, caches_keys. rewrite Hkeys.
  unfold bind at 1. unfold get at 1. unfold bind at 1.
  set (old := superseded (CACHE_NAME w1) (keys_of (caches w1))).
  pose proof (delete_superseded env (CACHE_NAME w1) (caches w1) Hdel) as Hsw.
  fold old in Hsw.
  destruct (0 <? length old)%nat eqn:Hlen.
  - unfold bind at 1. destruct (deletes_run env old w1) as (res & -> & Hok & _).
    destruct (Hok Hdel) as (l & ->). rewrite Hsw. unfold emit, ret. cbn.
    by rewrite app_nil_r.
  - assert (old = []) as Hnil.
    { destruct old; [done|]. cbn in Hlen. done. }
    rewrite Hnil in *. unfold delete_all in Hsw. rewrite Hdel in Hsw. cbn in Hsw.
    rewrite <- Hsw, set_caches_id. unfold emit, ret. cbn. done.
Qed.

(** X7. When listing and deleting caches work, activate leaves of the
    storage exactly this: every cache that does not carry the prefix, and
    the generation the pointer names after the resolution, each with its
    entries untouched; every other prefixed generation is deleted, and
    [clients.claim] is the last thing it does. A pointer whose version is
    already set is left as it is. *)
Theorem activate_sweeps env w :
  keys_rejects (storage env) = false →
  delete_rejects (storage env) = false →
  result (activate env w) = Ok tt
  ∧ caches (state (activate env w))
    = swept (CACHE_NAME (state (activate env w))) (caches w)
  ∧ (truthy (CURRENT_VERSION w) = true →
     CACHE_NAME (state (activate env w)) = CACHE_NAME w
     ∧ CURRENT_VERSION (state (activate env w)) = CURRENT_VERSION w)
  ∧ (∀ n, Deleted n ∈ trace (activate env w) →
          n ≠ CACHE_NAME (state (activate env w)) ∧ startsWith n PREFIX = true)
  ∧ last (trace (activate env w)) = Some Claim.
Proof.
  intros Hkeys Hdel.
  destruct (activate_exact env w Hkeys Hdel) as (w1 & t1 & E1 & -> & Hc & Hsame).
  unfold result, state, trace. cbn [fst snd caches CACHE_NAME CURRENT_VERSION set_caches].
  split_and!; [done | by rewrite Hc | by intros ->%Hsame | |].
  - intros n [Hin|Hin]%elem_of_app.
    + exfalso. destruct (truthy (CURRENT_VERSION w)) eqn:Ht; cbn [negb] in E1.
      * injection E1 as _ <-. by apply elem_of_nil in Hin.
      * pose proof (initializeCacheName_quiet env w) as Hq.
        unfold trace in Hq. rewrite E1 in Hq. cbn [snd] in Hq.
        rewrite Forall_forall in Hq. by apply Hq in Hin.
    + apply elem_of_cons in Hin as [?|Hin]; [done|].
      apply elem_of_app in Hin as [Hin|Hin].
      * apply list_elem_of_fmap in Hin as (m & [= ->] & Hm).
        apply superseded_spec in Hm. tauto.
      * apply list_elem_of_singleton in Hin. done.
  - by rewrite !app_comm_cons, app_assoc, last_snoc.
Qed.

(** X7 at a storage that holds a stale generation, the active one and a
    cache of another application. *)
Lemma activate_sweeps_witness :
  caches (state (activate (kiosk unreachable healthy) crowded))
  = [("other-app", {["https://kiosk/data" := page "data"]});
     ("totem-cache-2", {["https://kiosk/index.html" := page "v2"]})].
Proof.
  destruct (activate_sweeps (kiosk unreachable healthy) crowded eq_refl eq_refl)
    as (_ & Hc & Hp & _).
  rewrite Hc. destruct (Hp eq_refl) as [-> _]. by vm_compute.
Defined.

(** X8. Once activate has run with listing and deleting working and has
    left a version in [CURRENT_VERSION], running it again changes nothing
    and deletes nothing, whatever the environment has become. *)
Theorem activate_idempotent env env2 w :
  keys_rejects (storage env) = false → delete_rejects (storage env) = false →
  keys_rejects (storage env2) = false → delete_rejects (storage env2) = false →
  truthy (CURRENT_VERSION (state (activate env w))) = true →
  state (activate env2 (state (activate env w))) = state (activate env w)
  ∧ (∀ n, Deleted n ∉ trace (activate env2 (state (activate env w)))).
Proof.
  intros Hk Hd Hk2 Hd2 Ht.
  destruct (activate_exact env w Hk Hd) as (w1 & t1 & E1 & E & Hc & Hsame).
  revert Ht. unfold state, trace. rewrite E. cbn [fst snd]. intros Ht.
  set (w' := set_caches _ w1) in *.
  destruct (activate_exact env2 w' Hk2 Hd2) as (w2 & t2 & E2 & E' & _ & Hsame2).
  specialize (Hsame2 Ht). subst w2.
  rewrite Ht in E2. cbn [negb] in E2. injection E2 as <-.
  assert (CACHE_NAME w' = CACHE_NAME w1) as Hn by done.
  assert (caches w' = swept (CACHE_NAME w1) (caches w1)) as Hcw by done.
  rewrite Hn, Hcw, swept_idempotent, superseded_swept in E'.
  assert (set_caches (swept (CACHE_NAME w1) (caches w1)) w' = w') as Hfix
    by (unfold w'; by destruct w1).
  rewrite Hfix in E'. clearbody w'.
  rewrite E'. cbn [fst snd]. split; [done|].
  intros n [?|[?|?%elem_of_nil]%elem_of_cons]%elem_of_cons; done.
Qed.

(** X8 at a worker that resolves version 2 from the site, then activates
    once more while offline. *)
Lemma activate_idempotent_witness :
  state (activate (kiosk unreachable healthy)
           (state (activate (kiosk (site "2") healthy) restarted)))
  = state (activate (kiosk (site "2") healthy) restarted).
Proof.
  refine (proj1 (activate_idempotent (kiosk (site "2") healthy)
    (kiosk unreachable healthy) restarted eq_refl eq_refl eq_refl eq_refl _)).
  by vm_compute.
Defined.

(** ** Serving, exactly *)

Lemma not_version_path (b p : string) :
  endsWith p "/version.json" = false →
  bool_decide (p = b +:+ "/version.json") || endsWith p "/version.json" = false.
Proof.
  intros H. rewrite H, orb_false_r. apply bool_decide_eq_false. intros ->.
  by rewrite endsWith_append in H.
Qed.

Lemma not_favicon_path (p : string) :
  endsWith p "/favicon.ico" = false →
  endsWith p "/favicon.ico" || bool_decide (p = "/favicon.ico") = false.
Proof.
  intros H. rewrite H. cbn [orb]. apply bool_decide_eq_false. intros ->.
  by vm_compute in H.
Qed.

(** A request for anything but the favicon and the descriptor goes to the
    cache-first branch, after the base path has been looked up. *)
Lemma fetch_handler_cache_first env req w :
  cache_first_request req →
  ∃ w1, same_core w w1
        ∧ fetch_handler env req w
          = (let! rb := serve_cache_first env req in ret (Responded rb.1, rb.2)) w1.
Proof.
  intros (Hm & Hu & Hf & Hv).
  destruct (getBasePath_result env w) as (w1 & E & Hcore).
  exists w1. split; [done|].
  unfold fetch_handler. rewrite bool_decide_true by done. cbn [negb].
  rewrite Hu. cbn [negb]. rewrite not_favicon_path by done.
  unfold bind at 1. rewrite E. rewrite not_version_path by done.
  by destruct (bind _ _ w1) as [[r w2] t2].
Qed.

Lemma legacy_fetch_handler_cache_first env req w :
  cache_first_request req →
  ∃ w1, same_core w w1
        ∧ Legacy.fetch_handler env req w
          = (let! rb := Legacy.serve_cache_first env req in
             ret (Responded rb.1, rb.2)) w1.
Proof.
  intros (Hm & Hu & Hf & Hv).
  destruct (getBasePath_result env w) as (w1 & E & Hcore).
  exists w1. split; [done|].
  unfold Legacy.fetch_handler. rewrite bool_decide_true by done. cbn [negb].
  rewrite Hu. cbn [negb].
  unfold bind at 1. rewrite E. rewrite not_version_path by done.
  by destruct (bind _ _ w1) as [[r w2] t2].
Qed.

Ltac handler_events :=
  repeat first
    [ apply Forall_nil_2
    | apply Forall_cons_2; [unfold handler_event; auto 6|] ].

(** The handler's write, whatever the storage does. *)
Lemma store_current_exact env req r w :
  ∃ res t,
    store_current env req r w
    = (res, set_caches (refreshed env w (resolve env (url req)) r) w, t)
    ∧ (open_rejects (storage env) = false → put_fails env r = false →
       res = Ok tt)
    ∧ Forall (handler_event env req w) t
    ∧ (open_rejects (storage env) = true → ∀ n j, Put n j ∉ t).
Proof.
  unfold store_current, bind, get, caches_open, cache_put, refreshed.
  destruct (open_rejects _); cbn [fst snd].
  { rewrite set_caches_id. eexists _, _. split_and!; [done | done | |].
    - handler_events.
    - intros _ n j [?|?%elem_of_nil]%elem_of_cons; done. }
  destruct (put_fails _ _); cbn [fst snd CACHE_NAME caches set_caches];
    (eexists _, _; split_and!; [done | done | | done]);
    handler_events.
Qed.

(** The cache-first branch when [caches.match] works. *)
Lemma serve_cache_first_exact env req w :
  match_rejects (storage env) = false →
  ∃ t,
    serve_cache_first env req w
    = match match_any (caches w) (resolve env (url req)) with
      | Some (_, r) => (Ok (r, true), w, t)
      | None =>
          match net env (resolve env (url req)) with
          | Some r =>
              (Ok (r, false),
               if ok r
               then set_caches (refreshed env w (resolve env (url req)) r) w
               else w, t)
          | None =>
              (Ok (if is_media (url req) then not_found else offline, false), w, t)
          end
      end.
Proof.
  intros Hm.
  unfold serve_cache_first, try_catch. unfold bind at 1. unfold caches_match at 1.
  rewrite Hm.
  destruct (match_any (caches w) _) as [[n r]|];
    cbn [fmap option_fmap option_map snd].
  { unfold bind, emit, ret. cbn. by eexists. }
  unfold serve_from_network, try_catch. unfold bind at 1. unfold fetch at 1.
  destruct (net env _) as [r|]; cbn [fst snd].
  2:{ destruct (is_media _); cbn; by eexists. }
  unfold bind at 1. destruct (ok r).
  - unfold try_catch.
    destruct (store_current_exact env req r w) as (res & t & -> & _).
    destruct res as [[]|e]; cbn; by eexists.
  - cbn. by eexists.
Qed.

(** X9. A GET request for anything but the favicon and the descriptor is
    always answered when [caches.match] works, whatever [caches.open] and
    [cache.put] do: with the stored entry that [caches.match] finds,
    whatever the network says; on a miss with the network's response,
    whatever its status; and on a miss without network with 404 for a
    media file and 503 otherwise, the storage being left as it was. *)
Theorem cache_first_always_answers env req w :
  cache_first_request req →
  match_rejects (storage env) = false →
  (∀ n r, match_any (caches w) (resolve env (url req)) = Some (n, r) →
     result (fetch_handler env req w) = Ok (Responded r, true)
     ∧ caches (state (fetch_handler env req w)) = caches w)
  ∧ (match_any (caches w) (resolve env (url req)) = None →
     (∀ r, net env (resolve env (url req)) = Some r →
        result (fetch_handler env req w) = Ok (Responded r, false))
     ∧ (net env (resolve env (url req)) = None →
        result (fetch_handler env req w)
        = Ok (Responded (if is_media (url req) then not_found else offline), false)
        ∧ caches (state (fetch_handler env req w)) = caches w)).
Proof.
  intros Hreq Hm.
  destruct (fetch_handler_cache_first env req w Hreq) as (w1 & (_ & _ & Hc) & ->).
  destruct (serve_cache_first_exact env req w1 Hm) as (t & E).
  rewrite Hc in E. unfold result, state, bind. rewrite E. clear E.
  split.
  - intros n r ->. cbn. done.
  - intros ->. split.
    + intros r ->. done.
    + intros ->. cbn. done.
Qed.

(** X9 at a request for a video that is not stored while the site is
    unreachable, and at one for the stored document. *)
Lemma cache_first_always_answers_witness :
  result (fetch_handler (kiosk unreachable no_open) video_mp4 active_v1)
  = Ok (Responded not_found, false)
  ∧ result (fetch_handler (kiosk unreachable no_open) index_html active_v1)
    = Ok (Responded (page "v1"), true).
Proof.
  destruct (cache_first_always_answers (kiosk unreachable no_open) video_mp4
              active_v1) as [_ Hmiss]; [by vm_compute | done |].
  destruct (cache_first_always_answers (kiosk unreachable no_open) index_html
              active_v1) as [Hhit _]; [by vm_compute | done |].
  split.
  - exact (proj1 (proj2 (Hmiss eq_refl) eq_refl)).
  - exact (proj1 (Hhit "totem-cache-1" (page "v1") eq_refl)).
Defined.

(** ** What serving a request may touch *)

(** The two answering branches either leave the state as it is, writing
    nothing, or the network has answered the request with a success and
    the state is the one after the handler's write. *)
Lemma serve_version_effects env req w :
  ∃ res w' t,
    serve_version env req w = (res, w', t)
    ∧ Forall (handler_event env req w) t
    ∧ ((w' = w ∧ ∀ n j, Put n j ∉ t)
       ∨ ∃ r, net env (resolve env (url req)) = Some r ∧ ok r = true
              ∧ w' = set_caches (refreshed env w (resolve env (url req)) r) w).
Proof.
  unfold serve_version, try_catch. unfold bind at 1. unfold fetch at 1.
  destruct (net env _) as [r|] eqn:Hnet; cbn [fst snd].
  - unfold bind at 1. destruct (ok r) eqn:Hok.
    + destruct (store_current_exact env req r w) as (res & t & -> & _ & F & _).
      destruct res as [[]|e]; cbn [fst snd ret app].
      * eexists _, _, _. split_and!; [done | | right; by exists r].
        rewrite app_nil_r. apply Forall_cons_2; [unfold handler_event; auto|done].
      * unfold bind, caches_match.
        destruct (match_rejects _); [|destruct (match_any _ _) as [[n c]|]];
          cbn [fst snd fmap option_fmap option_map ret app];
          (eexists _, _, _; split_and!; [done | | right; by exists r]);
          (apply Forall_cons_2; [unfold handler_event; auto|]);
          (apply Forall_app; split; [done|]); handler_events.
    + cbn. eexists _, _, _. split_and!; [done | handler_events | left].
      split; [done|]. intros n j [?|?%elem_of_nil]%elem_of_cons; done.
  - unfold bind, caches_match.
    destruct (match_rejects _); [|destruct (match_any _ _) as [[n c]|]];
      cbn [fst snd fmap option_fmap option_map ret app];
      (eexists _, _, _; split_and!; [done | handler_events | left]);
      (split; [done|]);
      intros n' j [?|[?|?%elem_of_nil]%elem_of_cons]%elem_of_cons; done.
Qed.

Lemma serve_from_network_effects env req w :
  ∃ rb w' t,
    serve_from_network env req w = (Ok rb, w', t)
    ∧ Forall (handler_event env req w) t
    ∧ ((w' = w ∧ ∀ n j, Put n j ∉ t)
       ∨ ∃ r, net env (resolve env (url req)) = Some r ∧ ok r = true
              ∧ w' = set_caches (refreshed env w (resolve env (url req)) r) w).
Proof.
  unfold serve_from_network, try_catch. unfold bind at 1. unfold fetch at 1.
  destruct (net env _) as [r|] eqn:Hnet; cbn [fst snd].
  - unfold bind at 1. destruct (ok r) eqn:Hok.
    + unfold try_catch.
      destruct (store_current_exact env req r w) as (res & t & -> & _ & F & _).
      destruct res as [[]|e]; cbn [fst snd ret app];
        (eexists _, _, _; split_and!; [done | | right; by exists r]);
        rewrite ?app_nil_r;
        (apply Forall_cons_2; [unfold handler_event; auto|done]).
    + cbn. eexists _, _, _. split_and!; [done | handler_events | left].
      split; [done|]. intros n j [?|?%elem_of_nil]%elem_of_cons; done.
  - destruct (is_media _); cbn;
      (eexists _, _, _; split_and!; [done | handler_events | left]);
      (split; [done|]); intros n j [?|?%elem_of_nil]%elem_of_cons; done.
Qed.

Lemma serve_cache_first_effects env req w :
  ∃ res w' t,
    serve_cache_first env req w = (res, w', t)
    ∧ Forall (handler_event env req w) t
    ∧ ((w' = w ∧ ∀ n j, Put n j ∉ t)
       ∨ ∃ r, net env (resolve env (url req)) = Some r ∧ ok r = true
              ∧ w' = set_caches (refreshed env w (resolve env (url req)) r) w).
Proof.
  unfold serve_cache_first, try_catch. unfold bind at 1. unfold caches_match at 1.
  destruct (match_rejects _) eqn:Hm; cbn [fst snd].
  { unfold bind, caches_match. rewrite Hm. cbn.
    eexists _, _, _. split_and!; [done | handler_events | left].
    split; [done|].
    intros n j [?|[?|?%elem_of_nil]%elem_of_cons]%elem_of_cons; done. }
  destruct (match_any _ _) as [[n c]|]; cbn [fmap option_fmap option_map snd].
  { unfold bind, emit, ret. cbn.
    eexists _, _, _. split_and!; [done | handler_events | left].
    split; [done|].
    intros n' j [?|[?|?%elem_of_nil]%elem_of_cons]%elem_of_cons; done. }
  destruct (serve_from_network_effects env req w) as (rb & w' & t & -> & F & H).
  cbn. eexists _, _, _. split_and!; [done | | ].
  - apply Forall_cons_2; [unfold handler_event; auto | done].
  - destruct H as [[-> Hp]|H]; [left | by right]. split; [done|].
    intros n j [?|?]%elem_of_cons; [done | by eapply Hp].
Qed.

Lemma refreshed_core env w w1 k r :
  same_core w w1 → refreshed env w1 k r = refreshed env w k r.
Proof. intros (Hn & _ & Hc). unfold refreshed. by rewrite Hn, Hc. Qed.

Lemma entry_refreshed env w k r m j :
  m ≠ CACHE_NAME w ∨ j ≠ k →
  entry (refreshed env w k r) m j = entry (caches w) m j.
Proof.
  intros H. unfold refreshed. destruct (open_rejects _); [done|].
  destruct (put_fails _ _); [apply entry_open|].
  by rewrite entry_put_ne, entry_open.
Qed.

(** X10. Whatever the request, the network and the storage do, the fetch
    handler never reassigns the pointer or the version, never deletes a
    cache and never posts a message: all it does is ask the network and
    the storage for the request's URL, open the generation the pointer
    names, and write under that URL into that generation. It writes only
    for a GET request that the network has answered with a success, and
    every entry under another URL or in another cache stays as it was. *)
Theorem fetch_handler_effects env req w :
  CACHE_NAME (state (fetch_handler env req w)) = CACHE_NAME w
  ∧ CURRENT_VERSION (state (fetch_handler env req w)) = CURRENT_VERSION w
  ∧ Forall (handler_event env req w) (trace (fetch_handler env req w))
  ∧ (∀ n j, Put n j ∈ trace (fetch_handler env req w) →
       method req = "GET"
       ∧ ∃ r, net env (resolve env (url req)) = Some r ∧ ok r = true)
  ∧ (caches (state (fetch_handler env req w)) = caches w
     ∨ ∃ r, net env (resolve env (url req)) = Some r ∧ ok r = true
            ∧ caches (state (fetch_handler env req w))
              = refreshed env w (resolve env (url req)) r)
  ∧ (∀ m j, m ≠ CACHE_NAME w ∨ j ≠ resolve env (url req) →
       entry (caches (state (fetch_handler env req w))) m j
       = entry (caches w) m j).
Proof.
  assert (∃ res w' t,
    fetch_handler env req w = (res, w', t)
    ∧ Forall (handler_event env req w) t
    ∧ ((same_core w w' ∧ ∀ n j, Put n j ∉ t)
       ∨ ∃ r, method req = "GET"
              ∧ net env (resolve env (url req)) = Some r ∧ ok r = true
              ∧ CACHE_NAME w' = CACHE_NAME w
              ∧ CURRENT_VERSION w' = CURRENT_VERSION w
              ∧ caches w' = refreshed env w (resolve env (url req)) r))
    as (res & w' & t & -> & F & H).
  { unfold fetch_handler. case_bool_decide as Hget; cbn [negb].
    2:{ eexists _, _, _. split_and!; [done | constructor | left].
        split; [done|]. intros n j ?%elem_of_nil. done. }
    destruct (negb (startsWith (url req) "http")).
    { eexists _, _, _. split_and!; [done | constructor | left].
      split; [done|]. intros n j ?%elem_of_nil. done. }
    destruct (_ || _).
    { eexists _, _, _. split_and!; [done | constructor | left].
      split; [done|]. intros n j ?%elem_of_nil. done. }
    destruct (getBasePath_result env w) as (w1 & E & Hcore).
    unfold bind at 1. rewrite E.
    pose proof Hcore as (Hn & Hv & Hc).
    assert (∀ e, handler_event env req w1 e → handler_event env req w e) as Hev
      by (intros e; unfold handler_event; by rewrite Hn).
    destruct (_ || _).
    - destruct (serve_version_effects env req w1) as (r1 & w2 & t2 & E2 & F & H).
      unfold bind. rewrite E2.
      assert (∃ res, (match r1 with
                      | Ok a => let '(r, w3, t3) := ret (Responded a, false) w2 in
                                (r, w3, t2 ++ t3)
                      | Throw e => (Throw e, w2, t2)
                      end) = (res, w2, t2)) as (res & ->).
      { destruct r1; cbn; rewrite ?app_nil_r; by eexists. }
      cbn [app]. eexists _, _, _. split_and!; [done | by eapply Forall_impl |].
      destruct H as [[-> Hp]|(r & Hnet & Hok & ->)]; [by left | right].
      exists r. cbn. by rewrite (refreshed_core env w w1).
    - destruct (serve_cache_first_effects env req w1) as (r1 & w2 & t2 & E2 & F & H).
      unfold bind. rewrite E2.
      assert (∃ res, (match r1 with
                      | Ok a => let '(r, w3, t3) := ret (Responded a.1, a.2) w2 in
                                (r, w3, t2 ++ t3)
                      | Throw e => (Throw e, w2, t2)
                      end) = (res, w2, t2)) as (res & ->).
      { destruct r1; cbn; rewrite ?app_nil_r; by eexists. }
      cbn [app]. eexists _, _, _. split_and!; [done | by eapply Forall_impl |].
      destruct H as [[-> Hp]|(r & Hnet & Hok & ->)]; [by left | right].
      exists r. cbn. by rewrite (refreshed_core env w w1). }
  unfold state, trace. cbn [fst snd].
  destruct H as [[(Hn & Hv & Hc) Hp]|(r & Hget & Hnet & Hok & Hn & Hv & Hc)].
  - split_and!; [done | done | done | | by left | by rewrite Hc].
    intros n j Hin. by apply Hp in Hin.
  - split_and!; [done | done | done | | right; by exists r |].
    + intros _ _ _. split; [done | by exists r].
    + intros m j Hmj. rewrite Hc. by apply entry_refreshed.
Qed.

(** ** Stored once, served afterwards *)

Lemma resolve_origin env env2 u :
  origin env2 = origin env → resolve env2 u = resolve env u.
Proof. intros H. unfold resolve. by rewrite H. Qed.

Lemma put_fails_partial env r : partial r = true → put_fails env r = true.
Proof. intros H. unfold put_fails. rewrite H. apply orb_true_r. Qed.

Lemma put_works env r :
  put_rejects (storage env) = false → partial r = false → put_fails env r = false.
Proof. intros H1 H2. unfold put_fails. by rewrite H1, H2. Qed.

Lemma match_any_refreshed env w k r :
  open_rejects (storage env) = false → put_fails env r = false →
  (∀ m c, (m, c) ∈ caches w → m ≠ CACHE_NAME w → c !! k = None) →
  match_any (refreshed env w k r) k = Some (CACHE_NAME w, r).
Proof.
  intros Ho Hp H. unfold refreshed. rewrite Ho, Hp. by apply match_any_put.
Qed.

(** A write that is rejected leaves every lookup as it was. *)
Lemma match_any_unrefreshed env w k r j :
  put_fails env r = true →
  match_any (refreshed env w k r) j = match_any (caches w) j.
Proof.
  intros Hp. unfold refreshed. destruct (open_rejects _); [done|].
  rewrite Hp. apply match_any_open.
Qed.

(** X11. A request that misses the storage and that the network answers
    with a success is handed that answer. When [caches.open] and
    [cache.put] work and the answer is not a partial one, the handler has
    stored it, so that the same request is answered from the storage
    afterwards with that very response, whatever the network has become,
    and starts a background refresh. A partial answer (status 206, what a
    request for a range of a video gets) is [ok] as well, but [cache.put]
    rejects it and the handler swallows the rejection: nothing is stored,
    the same request misses again and is then answered by the network or,
    without network, with 404 for a media file and 503 otherwise. *)
Theorem miss_then_hit env env2 req w r :
  cache_first_request req →
  match_rejects (storage env) = false →
  open_rejects (storage env) = false →
  put_rejects (storage env) = false →
  match_any (caches w) (resolve env (url req)) = None →
  net env (resolve env (url req)) = Some r → ok r = true →
  origin env2 = origin env →
  match_rejects (storage env2) = false →
  result (fetch_handler env req w) = Ok (Responded r, false)
  ∧ (partial r = false →
     entry (caches (state (fetch_handler env req w))) (CACHE_NAME w)
           (resolve env (url req)) = Some r
     ∧ result (fetch_handler env2 req (state (fetch_handler env req w)))
       = Ok (Responded r, true))
  ∧ (partial r = true →
     match_any (caches (state (fetch_handler env req w))) (resolve env (url req))
     = None
     ∧ result (fetch_handler env2 req (state (fetch_handler env req w)))
       = Ok (Responded
               (default (if is_media (url req) then not_found else offline)
                        (net env2 (resolve env (url req)))), false)).
Proof.
  intros Hreq Hm Ho Hp Hmiss Hnet Hok Horigin Hm2.
  destruct (fetch_handler_cache_first env req w Hreq) as (w1 & Hcore & E).
  destruct (serve_cache_first_exact env req w1 Hm) as (t & E1).
  pose proof Hcore as (Hn & _ & Hc).
  rewrite Hc, Hmiss, Hnet, Hok, (refreshed_core env w w1 _ _ Hcore) in E1.
  assert (fetch_handler env req w
          = (Ok (Responded r, false),
             set_caches (refreshed env w (resolve env (url req)) r) w1,
             t ++ [])) as Erun.
  { rewrite E. unfold bind. by rewrite E1. }
  rewrite Erun. unfold result, state. cbn [fst snd caches set_caches].
  set (w2 := set_caches (refreshed env w (resolve env (url req)) r) w1).
  destruct (fetch_handler_cache_first env2 req w2 Hreq) as (w3 & Hcore3 & ->).
  destruct (serve_cache_first_exact env2 req w3 Hm2) as (t3 & E3).
  destruct Hcore3 as (_ & _ & Hc3).
  rewrite Hc3, (resolve_origin env env2) in E3 by done.
  unfold w2 in E3. cbn [caches set_caches] in E3.
  split_and!; [done | |].
  - intros Hpart. pose proof (put_works env r Hp Hpart) as Hput.
    split.
    + unfold refreshed. rewrite Ho, Hput. apply entry_put_eq, elem_of_keys_open.
    + rewrite match_any_refreshed in E3; [|done|done|].
      * unfold bind. by rewrite E3.
      * intros m c Hin _. by eapply match_any_None.
  - intros Hpart. pose proof (put_fails_partial env r Hpart) as Hput.
    rewrite match_any_unrefreshed, Hmiss in E3 by done.
    split; [by rewrite match_any_unrefreshed|].
    unfold bind. rewrite E3. by destruct (net env2 _).
Qed.

(** X11 at the first request for the stylesheet, answered by the site, and
    the same request after the site has become unreachable; and at a
    request for a video that the site answers with a partial response,
    which is not there when the site has become unreachable. *)
Lemma miss_then_hit_witness :
  result (fetch_handler (kiosk unreachable healthy) style_css
            (state (fetch_handler (kiosk (site "1") healthy) style_css active_v1)))
  = Ok (Responded (page "https://kiosk/style.css"), true)
  ∧ result (fetch_handler (kiosk unreachable healthy) video_mp4
              (state (fetch_handler (kiosk (streaming "1") healthy) video_mp4
                        active_v1)))
    = Ok (Responded not_found, false).
Proof.
  split.
  - refine (proj2 (proj1 (proj2 (miss_then_hit (kiosk (site "1") healthy)
      (kiosk unreachable healthy) style_css active_v1
      (page "https://kiosk/style.css") _ eq_refl eq_refl eq_refl _ eq_refl eq_refl
      eq_refl eq_refl)) eq_refl)); by vm_compute.
  - refine (proj2 (proj2 (proj2 (miss_then_hit (kiosk (streaming "1") healthy)
      (kiosk unreachable healthy) video_mp4 active_v1
      (part_of "https://kiosk/media/video2.mp4") _ eq_refl eq_refl eq_refl _
      eq_refl eq_refl eq_refl eq_refl)) eq_refl)); by vm_compute.
Defined.

Lemma serve_version_exact env req w r :
  net env (resolve env (url req)) = Some r → ok r = true →
  open_rejects (storage env) = false → put_fails env r = false →
  serve_version env req w
  = (Ok r, set_caches (refreshed env w (resolve env (url req)) r) w,
     [Fetched (resolve env (url req)); Opened (CACHE_NAME w);
      Put (CACHE_NAME w) (resolve env (url req))]).
Proof.
  intros Hnet Hok Ho Hp.
  unfold serve_version, try_catch, bind, fetch. rewrite Hnet, Hok.
  unfold store_current, bind, get, caches_open, cache_put, refreshed.
  by rewrite Ho, Hp.
Qed.

(** The descriptor branch when the write after a successful request is
    rejected: the handler answers as if the network had failed. *)
Lemma serve_version_unstored env req w r :
  net env (resolve env (url req)) = Some r → ok r = true →
  open_rejects (storage env) = false → put_fails env r = true →
  match_rejects (storage env) = false →
  result (serve_version env req w)
  = Ok (default offline (snd <$> match_any (caches w) (resolve env (url req)))).
Proof.
  intros Hnet Hok Ho Hp Hm.
  unfold serve_version, try_catch, bind, fetch. rewrite Hnet, Hok.
  unfold store_current, bind, get, caches_open, cache_put, caches_match.
  rewrite Ho, Hp, Hm. unfold result. cbn [fst snd caches set_caches].
  rewrite match_any_open. by destruct (match_any _ _) as [[n c]|].
Qed.

Lemma version_path_not_favicon (p : string) :
  endsWith p "/version.json" = true → endsWith p "/favicon.ico" = false.
Proof.
  unfold endsWith.
  replace (String.rev "/version.json") with "nosj.noisrev/" by by vm_compute.
  replace (String.rev "/favicon.ico") with "oci.nocivaf/" by by vm_compute.
  generalize (String.rev p). intros s.
  destruct s as [|c s]; [done|]. cbn [String.prefix].
  destruct (ascii_dec "n" c) as [<-|]; [|done]. intros _.
  by destruct (ascii_dec "o" "n").
Qed.

Lemma fetch_handler_descriptor env req w :
  method req = "GET" → startsWith (url req) "http" = true →
  endsWith (pathname req) "/version.json" = true →
  ∃ w1, same_core w w1
        ∧ fetch_handler env req w
          = (let! r := serve_version env req in ret (Responded r, false)) w1.
Proof.
  intros Hget Hu Hv. apply fetch_handler_version.
  split_and!; [done | done | by apply version_path_not_favicon | by right].
Qed.

(** X12. A request for the descriptor that the network answers with a
    success which is not a partial response refreshes the stored copy,
    when [caches.open] and [cache.put] work: the generation the pointer
    names then holds the network's response, and as long as no other cache
    holds a descriptor under that URL, the same request is answered with
    that response once the network fails. Were the answer a partial
    response, [cache.put] would reject it and the handler would answer as
    it does when the network has failed, with the stored copy or 503. *)
Theorem descriptor_refreshed_then_served_offline env env2 req w r :
  method req = "GET" → startsWith (url req) "http" = true →
  endsWith (pathname req) "/version.json" = true →
  net env (resolve env (url req)) = Some r → ok r = true →
  open_rejects (storage env) = false → put_rejects (storage env) = false →
  (∀ m c, (m, c) ∈ caches w → m ≠ CACHE_NAME w →
          c !! resolve env (url req) = None) →
  origin env2 = origin env →
  net env2 (resolve env (url req)) = None →
  match_rejects (storage env2) = false →
  (partial r = false →
   result (fetch_handler env req w) = Ok (Responded r, false)
   ∧ entry (caches (state (fetch_handler env req w))) (CACHE_NAME w)
           (resolve env (url req)) = Some r
   ∧ result (fetch_handler env2 req (state (fetch_handler env req w)))
     = Ok (Responded r, false))
  ∧ (partial r = true → match_rejects (storage env) = false →
     result (fetch_handler env req w)
     = Ok (Responded
             (default offline
                (snd <$> match_any (caches w) (resolve env (url req)))), false)).
Proof.
  intros Hget Hu Hv Hnet Hok Ho Hp Hothers Horigin Hnet2 Hm2.
  destruct (fetch_handler_descriptor env req w Hget Hu Hv) as (w1 & Hcore & E).
  pose proof Hcore as (Hn & _ & Hc).
  split.
  - intros Hpart. pose proof (put_works env r Hp Hpart) as Hput.
    pose proof (serve_version_exact env req w1 r Hnet Hok Ho Hput) as E1.
    rewrite (refreshed_core env w w1 _ _ Hcore) in E1.
    assert (fetch_handler env req w
            = (Ok (Responded r, false),
               set_caches (refreshed env w (resolve env (url req)) r) w1,
               [Fetched (resolve env (url req)); Opened (CACHE_NAME w1);
                Put (CACHE_NAME w1) (resolve env (url req))] ++ [])) as Erun.
    { rewrite E. unfold bind. by rewrite E1. }
    rewrite Erun. unfold result, state. cbn [fst snd caches set_caches].
    split_and!; [done | |].
    + unfold refreshed. rewrite Ho, Hput. apply entry_put_eq, elem_of_keys_open.
    + set (w2 := set_caches _ w1).
      destruct (fetch_handler_descriptor env2 req w2 Hget Hu Hv)
        as (w3 & Hcore3 & ->).
      destruct Hcore3 as (_ & _ & Hc3).
      pose proof (serve_version_offline env2 req w3) as Hoff.
      rewrite (resolve_origin env env2) in Hoff by done.
      specialize (Hoff Hnet2 Hm2). rewrite Hc3 in Hoff.
      unfold w2 in Hoff. cbn [caches set_caches] in Hoff.
      rewrite match_any_refreshed in Hoff by done.
      unfold result, bind in *.
      destruct (serve_version env2 req w3) as [[r3 w4] t4]. cbn [fst] in Hoff.
      by subst r3.
  - intros Hpart Hm. pose proof (put_fails_partial env r Hpart) as Hput.
    pose proof (serve_version_unstored env req w1 r Hnet Hok Ho Hput Hm) as Hun.
    rewrite Hc in Hun. rewrite E. unfold result, bind in *.
    destruct (serve_version env req w1) as [[r3 w4] t4]. cbn [fst] in Hun.
    by subst r3.
Qed.

(** X12 at the descriptor of version 2 fetched while version 1 is active,
    then asked for again with the site unreachable. *)
Lemma descriptor_refreshed_then_served_offline_witness :
  result (fetch_handler (kiosk unreachable healthy) version_json
            (state (fetch_handler (kiosk (site "2") healthy) version_json
                      active_with_descriptor)))
  = Ok (Responded (descriptor "2"), false).
Proof.
  refine (proj2 (proj2 (proj1 (descriptor_refreshed_then_served_offline
    (kiosk (site "2") healthy) (kiosk unreachable healthy) version_json
    active_with_descriptor (descriptor "2")
    eq_refl eq_refl eq_refl eq_refl eq_refl eq_refl eq_refl _ eq_refl eq_refl
    eq_refl) eq_refl))).
  intros m c [[= -> ->]|H%elem_of_nil]%elem_of_cons Hne; [|done].
  exfalso. apply Hne. reflexivity.
Defined.

(** ** The older handler *)

(** X13. In the older handler the opening of the cache sits inside the
    [try] of the network request: when [caches.open] rejects after the
    network has answered a missed request with a success, the page is
    handed the 503 response. The current handler, which guards the write
    with a [try] of its own, hands over the network's response. *)
Theorem legacy_miss_lost_when_open_rejects env req w r :
  cache_first_request req →
  match_rejects (storage env) = false →
  open_rejects (storage env) = true →
  match_any (caches w) (resolve env (url req)) = None →
  net env (resolve env (url req)) = Some r → ok r = true →
  result (Legacy.fetch_handler env req w) = Ok (Responded offline, false)
  ∧ result (fetch_handler env req w) = Ok (Responded r, false).
Proof.
  intros Hreq Hm Ho Hmiss Hnet Hok. split.
  - destruct (legacy_fetch_handler_cache_first env req w Hreq)
      as (w1 & (_ & _ & Hc) & ->).
    unfold bind at 1. unfold Legacy.serve_cache_first. unfold bind at 1.
    unfold caches_match at 1. rewrite Hm, Hc, Hmiss.
    cbn [fmap option_fmap option_map].
    unfold try_catch, bind, fetch, get, caches_open. rewrite Hnet, Hok, Ho.
    done.
  - destruct (fetch_handler_cache_first env req w Hreq) as (w1 & (_ & _ & Hc) & ->).
    destruct (serve_cache_first_exact env req w1 Hm) as (t & E).
    rewrite Hc, Hmiss, Hnet in E. unfold result, bind. by rewrite E.
Qed.

(** X13 at the first request for the stylesheet with the site reachable
    and [caches.open] rejecting. *)
Lemma legacy_miss_lost_when_open_rejects_witness :
  result (Legacy.fetch_handler (kiosk (site "1") no_open) style_css active_v1)
  = Ok (Responded offline, false)
  ∧ result (fetch_handler (kiosk (site "1") no_open) style_css active_v1)
    = Ok (Responded (page "https://kiosk/style.css"), false).
Proof.
  apply (legacy_miss_lost_when_open_rejects (kiosk (site "1") no_open) style_css
           active_v1 (page "https://kiosk/style.css"));
    by vm_compute.
Defined.

(** ** The update check on request *)

Lemma base_path_ext env w w' :
  BASE_PATH w' = BASE_PATH w → base_path env w' = base_path env w.
Proof.
  intros H. unfold base_path, result, getBasePath, bind, get. cbn. rewrite H.
  destruct (BASE_PATH w); [done|].
  destruct (scope_pathname env); [done|].
  by destruct (truthy (location_pathname env)).
Qed.

(** Looking the base path up does not change what a later lookup gives. *)
Lemma getBasePath_again env w :
  ∃ w1, getBasePath env w = (Ok (base_path env w), w1, [])
        ∧ same_core w w1 ∧ base_path env w1 = base_path env w.
Proof.
  unfold base_path, result, getBasePath, bind, get. cbn.
  destruct (BASE_PATH w) as [b|] eqn:Hb; cbn.
  { exists w. by rewrite Hb. }
  destruct (scope_pathname env) as [p|]; cbn; [by eexists|].
  destruct (truthy (location_pathname env)); cbn; [by eexists|].
  exists w. by rewrite Hb.
Qed.

Lemma remote_version_ext env w w' :
  base_path env w' = base_path env w → remote_version env w' = remote_version env w.
Proof. intros H. unfold remote_version, version_url. by rewrite H. Qed.

Lemma fetchVersion_again env w :
  ∃ w1, fetchVersion env w
        = (Ok (remote_version env w), w1, [Fetched (version_url env w)])
        ∧ same_core w w1 ∧ base_path env w1 = base_path env w.
Proof.
  destruct (getBasePath_again env w) as (w1 & E & Hcore & Hb).
  exists w1. split; [|done].
  unfold fetchVersion, try_catch, bind. rewrite E.
  unfold remote_version, version_url, fetch.
  destruct (net env _) as [r|]; cbn; [|done].
  destruct (ok r); cbn; [|done].
  unfold json_version. by destruct (body r).
Qed.

Lemma checkForUpdate_again env w :
  ∃ w1 t,
    checkForUpdate env w
    = (Ok (truthy (remote_version env w)
           && (negb (truthy (local_version env (caches w)))
               || negb (bool_decide (remote_version env w
                                     = local_version env (caches w))))),
       w1, t)
    ∧ same_core w w1 ∧ base_path env w1 = base_path env w
    ∧ Forall is_quiet t.
Proof.
  destruct (fetchVersion_again env w) as (w1 & E1 & H1 & Hb).
  pose proof (getCachedVersion_quiet env w1) as Hq.
  destruct (getCachedVersion_run env w1) as (t2 & E2).
  unfold trace in Hq. rewrite E2 in Hq. cbn [snd] in Hq.
  unfold checkForUpdate, try_catch, bind. rewrite E1.
  destruct (truthy (remote_version env w)); cbn [negb andb].
  2:{ eexists _, _. split_and!; [reflexivity | done | done |].
      by repeat constructor. }
  rewrite E2. pose proof H1 as (_ & _ & ->).
  destruct (truthy (local_version env (caches w))); cbn [negb orb];
    (eexists _, _; split_and!; [reflexivity | done | done |]);
    cbn [app]; rewrite app_nil_r; by constructor.
Qed.

(** X14. On [CHECK_VERSION] the worker compares the remote version with
    its inventory. When the remote version is unknown or equal to the
    inventory's, nothing is written, deleted or posted, and the pointer
    and the storage stay as they are. When it is known and different, the
    remote version is probed a second time, in the world as it is then.
    If that second probe fails, nothing happens either. Otherwise the
    update is run for the version of the second probe, whether or not it
    is the one the first probe saw and whatever the inventory holds, and
    every client is then posted [UPDATE_AVAILABLE] with that version,
    whatever the update did: the posts follow the update's own effects and
    end the handler. *)
Theorem check_version_announces env later w :
  result (check_version env later w) = Ok tt
  ∧ (remote_version env w = None
     ∨ remote_version env w = local_version env (caches w) →
     same_core w (state (check_version env later w))
     ∧ Forall is_quiet (trace (check_version env later w)))
  ∧ (∀ v, remote_version env w = Some v →
          local_version env (caches w) ≠ Some v →
          (remote_version later (state (checkForUpdate env w)) = None →
           same_core w (state (check_version env later w))
           ∧ Forall is_quiet (trace (check_version env later w)))
          ∧ (∀ v2, remote_version later (state (checkForUpdate env w)) = Some v2 →
               same_core w (probed_twice env later w)
               ∧ ∃ t,
                   Forall is_quiet t
                   ∧ check_version env later w
                     = (Ok tt,
                        state (updateCacheForNewVersion later v2
                                 (probed_twice env later w)),
                        t ++ trace (updateCacheForNewVersion later v2
                                      (probed_twice env later w))
                          ++ ((λ c, PostClient c (UPDATE_AVAILABLE v2))
                                <$> clients later)))).
Proof.
  destruct (checkForUpdate_again env w) as (w1 & t1 & E1 & Hcore1 & Hb1 & Hq1).
  assert (state (checkForUpdate env w) = w1) as Hw1
    by (unfold state; by rewrite E1).
  unfold probed_twice. rewrite Hw1.
  destruct (fetchVersion_again later w1) as (w2 & E2 & Hcore2 & Hb2).
  assert (state (fetchVersion later w1) = w2) as ->
    by (unfold state; by rewrite E2).
  assert (same_core w w2) as Hcore by by etrans.
  assert (Forall is_quiet (t1 ++ [Fetched (version_url later w1)] ++ [])) as Hq2.
  { apply Forall_app. split; [done | by repeat constructor]. }
  set (hasUpdate := truthy (remote_version env w)
                    && (negb (truthy (local_version env (caches w)))
                        || negb (bool_decide (remote_version env w
                                              = local_version env (caches w)))))
    in *.
  assert (hasUpdate = false →
          check_version env later w = (Ok tt, w1, t1 ++ [])) as Hno.
  { intros H. unfold check_version, bind. by rewrite E1, H. }
  assert (hasUpdate = true → remote_version later w1 = None →
          check_version env later w
          = (Ok tt, w2, t1 ++ [Fetched (version_url later w1)] ++ [])) as Hfail.
  { intros H Hr. unfold check_version. unfold bind at 1. rewrite E1, H.
    unfold bind at 1. rewrite E2, Hr. done. }
  assert (hasUpdate = true → ∀ v2, remote_version later w1 = Some v2 →
          check_version env later w
          = (Ok tt, state (updateCacheForNewVersion later v2 w2),
             (t1 ++ [Fetched (version_url later w1)])
             ++ trace (updateCacheForNewVersion later v2 w2)
             ++ ((λ c, PostClient c (UPDATE_AVAILABLE v2)) <$> clients later)))
    as Hgo.
  { intros H v2 Hr.
    assert (truthy (Some v2) = true) as Htv.
    { destruct (remote_version_known later w1) as [H'|H']; rewrite Hr in H'; done. }
    destruct (update_never_rejects later v2 w2) as (w3 & t3 & E3).
    unfold check_version. unfold bind at 1. rewrite E1, H.
    unfold bind at 1. rewrite E2, Hr, Htv. cbn [default from_option id].
    unfold bind, broadcast, state, trace. rewrite E3. cbn [fst snd].
    by rewrite <- !app_assoc. }
  split_and!.
  - destruct hasUpdate eqn:Hu.
    + destruct (remote_version later w1) as [v2|] eqn:Hr.
      * by rewrite (Hgo eq_refl v2 eq_refl).
      * by rewrite (Hfail eq_refl eq_refl).
    + by rewrite (Hno eq_refl).
  - intros Hcase.
    assert (hasUpdate = false) as Hu.
    { unfold hasUpdate. destruct Hcase as [->|Heq]; [done|].
      rewrite <- Heq. rewrite bool_decide_true by done.
      by destruct (truthy (remote_version env w)). }
    rewrite (Hno Hu). unfold state, trace. cbn [fst snd].
    by rewrite app_nil_r.
  - intros v Hr Hl.
    assert (hasUpdate = true) as Hu.
    { unfold hasUpdate.
      assert (truthy (Some v) = true) as Htv.
      { destruct (remote_version_known env w) as [H|H]; rewrite Hr in H; done. }
      rewrite Hr, Htv. cbn [andb].
      rewrite (bool_decide_false (Some v = _)) by done. apply orb_true_r. }
    split.
    + intros Hr2. rewrite (Hfail Hu Hr2). unfold state, trace. by cbn [fst snd].
    + intros v2 Hr2. split; [done|].
      exists (t1 ++ [Fetched (version_url later w1)]).
      split; [|by apply Hgo].
      apply Forall_app. split; [done | by repeat constructor].
Qed.

(** X14 at a worker on version 1 that is asked to check while the site
    publishes version 2 and publishes version 3 by the time of the second
    probe: the cache is updated to version 3 and version 3 is announced. *)
Lemma check_version_announces_witness :
  CACHE_NAME (state (check_version (kiosk (site "2") healthy)
                       (kiosk (site "3") healthy) active_v1))
  = "totem-cache-3"
  ∧ last (trace (check_version (kiosk (site "2") healthy)
                   (kiosk (site "3") healthy) active_v1))
    = Some (PostClient 2 (UPDATE_AVAILABLE "3")).
Proof.
  assert (local_version (kiosk (site "2") healthy) (caches active_v1) ≠ Some "2")
    as Hl by by vm_compute.
  destruct (proj2 (proj2 (proj2 (check_version_announces
              (kiosk (site "2") healthy) (kiosk (site "3") healthy) active_v1))
              "2" eq_refl Hl) "3" eq_refl)
    as (_ & t & _ & ->).
  unfold state, trace. cbn [fst snd]. split; [by vm_compute|].
  change ((λ c, PostClient c (UPDATE_AVAILABLE "3"))
            <$> clients (kiosk (site "3") healthy))
    with ([PostClient 1 (UPDATE_AVAILABLE "3")]
            ++ [PostClient 2 (UPDATE_AVAILABLE "3")]).
  rewrite !app_assoc. apply last_snoc.
Defined.

(** The second probe can also fail, and then the handler does nothing
    although [checkForUpdate] has answered true; and in a world that does
    not change the update for the remote version is announced even when
    its gate has failed: the site serves the descriptor and nothing else,
    the update aborts, and the clients are told that version 2 is
    available while the pointer still names version 1. *)
Lemma check_version_examples :
  trace (check_version (kiosk (site "2") healthy) (kiosk unreachable healthy)
           active_v1)
  = [Fetched "https://kiosk/version.json?t=1733054400"; Keys;
     Fetched "https://kiosk/version.json?t=1733054400"]
  ∧ (let env := kiosk (λ u, if includes u "version.json?t="
                            then Some (descriptor "2") else None) healthy in
     trace (message_handler env CHECK_VERSION false active_v1)
     = [Fetched "https://kiosk/version.json?t=1733054400"; Keys;
        Fetched "https://kiosk/version.json?t=1733054400";
        Opened "totem-cache-2";
        Fetched "https://kiosk/?_v=2&_t=1733054400";
        Fetched "https://kiosk/index.html?_v=2&_t=1733054400";
        Fetched "https://kiosk/style.css?_v=2&_t=1733054400";
        Fetched "https://kiosk/main.js?_v=2&_t=1733054400";
        Fetched "https://kiosk/media/video2.mp4?_v=2&_t=1733054400";
        Fetched "https://kiosk/media/image2.png?_v=2&_t=1733054400";
        Fetched "https://kiosk/manifest.json?_v=2&_t=1733054400";
        Fetched "https://kiosk/version.json?_v=2&_t=1733054400";
        Deleted "totem-cache-2";
        PostClient 1 (UPDATE_AVAILABLE "2"); PostClient 2 (UPDATE_AVAILABLE "2")]
     ∧ CACHE_NAME (state (message_handler env CHECK_VERSION false active_v1))
       = "totem-cache-1").
Proof. split_and!; by vm_compute. Qed.

(** ** The older update, in general *)

Lemma legacy_getAssets_run env w :
  ∃ w', Legacy.getAssets env w
        = (Ok ((λ p, base_path env w +:+ p) <$> Legacy.asset_paths), w', [])
        ∧ same_core w w' ∧ BASE_PATH w' = BASE_PATH (state (getBasePath env w)).
Proof.
  destruct (getBasePath_result env w) as (w' & E & H).
  exists w'. split_and!; [|done|].
  - unfold Legacy.getAssets, bind. by rewrite E.
  - unfold state. by rewrite E.
Qed.

(** The sequential downloads of the older update: none rejects, and
    without network nothing is written. *)
Lemma legacy_downloads_run env c assets w :
  ∃ w' t,
    for_each assets
      (λ asset,
         try_catch
           (let! response := fetch env asset in
            if ok response then cache_put env c asset response else ret tt)
           (λ _, ret tt)) w
    = (Ok tt, w', t)
    ∧ stable c w w' ∧ Forall is_transfer t
    ∧ ((∀ u, net env u = None) → w' = w).
Proof.
  revert w. induction assets as [|a assets IH]; intros w.
  { eexists _, _. split_and!; [done | apply stable_refl | constructor | done]. }
  cbn [for_each]. unfold bind at 1.
  assert (∃ w1 t1,
    try_catch
      (let! response := fetch env a in
       if ok response then cache_put env c a response else ret tt)
      (λ _, ret tt) w = (Ok tt, w1, t1)
    ∧ stable c w w1 ∧ Forall is_transfer t1
    ∧ ((∀ u, net env u = None) → w1 = w)) as (w1 & t1 & -> & Hs1 & F1 & Hoff1).
  { unfold try_catch, bind, fetch.
    destruct (net env (resolve env a)) as [r|] eqn:Hnet; cbn [fst snd].
    2:{ eexists _, _. split_and!; [done | apply stable_refl | | done].
        by repeat constructor. }
    destruct (ok r).
    - destruct (cache_put_run env c a r w) as (res & w1 & -> & Hs).
      destruct res as [[]|e]; cbn;
        (eexists _, _; split_and!; [done | done | by repeat constructor |]);
        intros Hoff; by rewrite Hoff in Hnet.
    - cbn. eexists _, _. split_and!; [done | apply stable_refl | |].
      + by repeat constructor.
      + intros Hoff. by rewrite Hoff in Hnet. }
  destruct (IH w1) as (w2 & t2 & -> & Hs2 & F2 & Hoff2).
  eexists _, _. split_and!; [done | by eapply stable_trans | by apply Forall_app |].
  intros Hoff. by rewrite (Hoff2 Hoff), (Hoff1 Hoff).
Qed.

Lemma bind_ok {A B} (m : M A) (k : A → M B) w a w1 t1 r w2 t2 :
  m w = (Ok a, w1, t1) → k a w1 = (r, w2, t2) → bind m k w = (r, w2, t1 ++ t2).
Proof. intros E1 E2. unfold bind. by rewrite E1, E2. Qed.

Lemma try_catch_ok {A} (m : M A) h w a w1 t1 :
  m w = (Ok a, w1, t1) → try_catch m h w = (Ok a, w1, t1).
Proof. intros E. unfold try_catch. by rewrite E. Qed.

(** The run of the older update when opening and deleting work. *)
Lemma legacy_update_exact env v w :
  open_rejects (storage env) = false →
  delete_rejects (storage env) = false →
  ∃ w2 t,
    Legacy.updateCacheForNewVersion env v w
    = (Ok tt,
       {| CACHE_NAME := PREFIX +:+ v; CURRENT_VERSION := Some v;
          BASE_PATH := BASE_PATH w2;
          caches := delete_cache (caches w2) (CACHE_NAME w) |},
       Opened (PREFIX +:+ v)
       :: t ++ [AssignCacheName (PREFIX +:+ v); AssignVersion v;
                Deleted (CACHE_NAME w)]
            ++ ((λ c, PostClient c (CACHE_UPDATED v)) <$> clients env))
    ∧ Forall is_transfer t
    ∧ ((∀ u, net env u = None) →
       caches w2 = open_cache (caches w) (PREFIX +:+ v)).
Proof.
  intros Ho Hd.
  set (w0 := set_caches (open_cache (caches w) (PREFIX +:+ v)) w).
  destruct (legacy_getAssets_run env w0) as (w1 & E1 & (Hn1 & Hv1 & Hc1) & _).
  destruct (legacy_downloads_run env (PREFIX +:+ v)
              ((λ p, base_path env w0 +:+ p) <$> Legacy.asset_paths) w1)
    as (w2 & t2 & E2 & (Hn2 & Hv2 & _ & _ & _) & F2 & Hoff).
  exists w2, t2. split_and!; [| done |].
  - unfold Legacy.updateCacheForNewVersion. apply try_catch_ok.
    change (Opened (PREFIX +:+ v) :: ?l) with ([Opened (PREFIX +:+ v)] ++ l).
    eapply bind_ok.
    { unfold caches_open. rewrite Ho. fold w0. reflexivity. }
    rewrite <- (app_nil_l (t2 ++ _)).
    eapply bind_ok; [exact E1|].
    eapply bind_ok; [exact E2|].
    unfold bind, get, assign_CACHE_NAME, assign_CURRENT_VERSION, caches_delete,
      broadcast.
    cbn [fst snd storage]. rewrite Hd. cbn.
    assert (CACHE_NAME w2 = CACHE_NAME w) as -> by (rewrite Hn2, Hn1; done).
    done.
  - intros Hnet. by rewrite (Hoff Hnet), Hc1.
Qed.

(** X15. The older update has no gate. Whenever [caches.open] and
    [caches.delete] work it reassigns the pointer and the version to the
    version asked for, deletes the generation the pointer named before and
    no other, and tells every client [CACHE_UPDATED], whatever the network
    did. Without network the storage afterwards is the old one with the
    new generation opened and the previous one deleted: nothing has been
    downloaded. *)
Theorem legacy_update_commits_unconditionally env v w :
  open_rejects (storage env) = false →
  delete_rejects (storage env) = false →
  result (Legacy.updateCacheForNewVersion env v w) = Ok tt
  ∧ CACHE_NAME (state (Legacy.updateCacheForNewVersion env v w)) = PREFIX +:+ v
  ∧ CURRENT_VERSION (state (Legacy.updateCacheForNewVersion env v w)) = Some v
  ∧ (∀ n, Deleted n ∈ trace (Legacy.updateCacheForNewVersion env v w)
          ↔ n = CACHE_NAME w)
  ∧ (∀ c, c ∈ clients env →
          PostClient c (CACHE_UPDATED v)
          ∈ trace (Legacy.updateCacheForNewVersion env v w))
  ∧ ((∀ u, net env u = None) →
     caches (state (Legacy.updateCacheForNewVersion env v w))
     = delete_cache (open_cache (caches w) (PREFIX +:+ v)) (CACHE_NAME w)).
Proof.
  intros Ho Hd.
  destruct (legacy_update_exact env v w Ho Hd) as (w2 & t & -> & F & Hoff).
  unfold result, state, trace. cbn [fst snd CACHE_NAME CURRENT_VERSION caches].
  rewrite Forall_forall in F.
  split_and!; [done | done | done | | |].
  - intros n. split.
    + intros [?|Hin]%elem_of_cons; [done|].
      apply elem_of_app in Hin as [Hin|Hin]; [by apply F in Hin|].
      apply elem_of_app in Hin as [Hin|Hin].
      * apply elem_of_cons in Hin as [?|Hin]; [done|].
        apply elem_of_cons in Hin as [?|Hin]; [done|].
        apply elem_of_cons in Hin as [[= ->]|Hin%elem_of_nil]; done.
      * apply list_elem_of_fmap in Hin as (c & ? & _). done.
    + intros ->. right. apply elem_of_app. right. apply elem_of_app. left.
      do 2 right. left.
  - intros c Hc. right. apply elem_of_app. right. apply elem_of_app. right.
    apply list_elem_of_fmap. by exists c.
  - intros Hnet. by rewrite (Hoff Hnet).
Qed.

(** X15 at the older update to version 2 on a worker that is offline:
    the generation of version 1 is deleted and the new one is empty. *)
Lemma legacy_update_commits_unconditionally_witness :
  caches (state (Legacy.updateCacheForNewVersion (kiosk unreachable healthy) "2"
                   active_v1))
  = [("totem-cache-2", ∅)]
  ∧ CACHE_NAME (state (Legacy.updateCacheForNewVersion (kiosk unreachable healthy)
                         "2" active_v1))
    = "totem-cache-2".
Proof.
  destruct (legacy_update_commits_unconditionally (kiosk unreachable healthy) "2"
              active_v1 eq_refl eq_refl) as (_ & Hn & _ & _ & _ & Hc).
  split; [|exact Hn]. rewrite Hc by done. by vm_compute.
Defined.

(** ** Install, exactly *)

Lemma fetches_exact env urls w :
  all_settled (fetch env <$> urls) w
  = (Ok ((λ u, match plain env u with
               | Some r => Ok r
               | None => Throw "Failed to fetch"
               end) <$> urls),
     w, Fetched <$> (resolve env <$> urls)).
Proof.
  induction urls as [|u urls IH]; [done|].
  rewrite !fmap_cons. cbn [all_settled].
  unfold fetch at 1. unfold plain at 1. destruct (net env _); by rewrite IH.
Qed.

Lemma addAll_responses env urls :
  all_answered env urls = true →
  ∃ rs, (λ u, match plain env u with
              | Some r => Ok r
              | None => Throw "Failed to fetch"
              end) <$> urls = Ok <$> rs
        ∧ forallb (λ r, ok r && negb (partial r)) rs = true
        ∧ Forall2 (λ u r, plain env u = Some r) urls rs.
Proof.
  induction urls as [|u urls IH]; cbn [all_answered forallb].
  { intros _. exists []. split_and!; [done | done | constructor]. }
  destruct (plain env u) as [r|] eqn:Hu; [|done].
  intros [Hok Hrest]%andb_true_iff. destruct (IH Hrest) as (rs & E & Hoks & F).
  exists (r :: rs). rewrite !fmap_cons, Hu, E. cbn [forallb].
  split_and!; [done | by rewrite Hok | by constructor].
Qed.

Lemma addAll_unanswered env urls :
  all_answered env urls = false →
  first_error ((λ u, match plain env u with
                     | Some r => Ok r
                     | None => Throw "Failed to fetch"
                     end) <$> urls) ≠ None
  ∨ forallb (λ r, ok r && negb (partial r))
            (values ((λ u, match plain env u with
                     | Some r => Ok r
                     | None => Throw "Failed to fetch"
                     end) <$> urls)) = false.
Proof.
  induction urls as [|u urls IH]; [done|].
  cbn [all_answered forallb]. intros H. rewrite fmap_cons.
  destruct (plain env u) as [r|] eqn:Hu; [|by left].
  unfold first_error, values in *. cbn [omap list_omap forallb].
  apply andb_false_iff in H as [H|H]; [right; by rewrite H|].
  destruct (IH H) as [Hl|Hr]; [by left | right].
  rewrite Hr. apply andb_false_r.
Qed.

Lemma first_error_Ok {A} (rs : list A) : first_error (Ok <$> rs) = None.
Proof. unfold first_error. by induction rs. Qed.

Lemma values_Ok {A} (rs : list A) : values (Ok <$> rs) = rs.
Proof. unfold values. induction rs as [|r rs IH]; [done|]. cbn. by f_equal. Qed.

Lemma puts_exact env c urls rs w :
  put_rejects (storage env) = false →
  forallb (λ r, ok r && negb (partial r)) rs = true →
  Forall2 (λ u r, plain env u = Some r) urls rs →
  ∃ t,
    for_each (zip urls rs) (λ ur, cache_put env c ur.1 ur.2) w
    = (Ok tt,
       set_caches (foldl (store_with (plain env) env c) (caches w) urls) w, t)
    ∧ Forall is_transfer t.
Proof.
  intros Hp Hoks F. revert w Hoks.
  induction F as [|u r urls rs Hu F IH]; intros w Hoks.
  { cbn. rewrite set_caches_id. eexists. split; [done | constructor]. }
  cbn [forallb] in Hoks. apply andb_true_iff in Hoks as [Hr Hoks].
  apply andb_true_iff in Hr as [_ Hr]. apply negb_true_iff in Hr.
  cbn [zip zip_with for_each foldl]. unfold bind at 1. unfold cache_put at 1.
  cbn [fst snd]. rewrite (put_works env r Hp Hr). cbn [fst snd].
  destruct (IH (set_caches (put_entry (caches w) c (resolve env u) r) w) Hoks)
    as (t & -> & Ft).
  assert (store_with (plain env) env c (caches w) u
          = put_entry (caches w) c (resolve env u) r) as ->
    by (unfold store_with; by rewrite Hu).
  eexists. split; [done | by constructor].
Qed.

Lemma puts_reject env c urls rs w :
  put_rejects (storage env) = true → urls ≠ [] →
  Forall2 (λ u r, plain env u = Some r) urls rs →
  ∃ e t,
    for_each (zip urls rs) (λ ur, cache_put env c ur.1 ur.2) w = (Throw e, w, t)
    ∧ Forall is_transfer t.
Proof.
  intros Hp Hne F. destruct F as [|u r urls rs Hu F]; [done|].
  cbn [zip zip_with for_each]. unfold bind, cache_put, put_fails. rewrite Hp. cbn.
  eexists _, _. split; [done | by repeat constructor].
Qed.

(** [cache.addAll] stores either everything or nothing. *)
Lemma cache_addAll_exact env c urls w :
  urls ≠ [] →
  ∃ res t,
    cache_addAll env c urls w
    = (res,
       if all_answered env urls && negb (put_rejects (storage env))
       then set_caches (foldl (store_with (plain env) env c) (caches w) urls) w
       else w, t)
    ∧ (res = Ok tt
       ↔ all_answered env urls && negb (put_rejects (storage env)) = true)
    ∧ Forall is_transfer t.
Proof.
  intros Hne. unfold cache_addAll, promise_all. unfold bind at 1. unfold bind at 1.
  rewrite fetches_exact.
  destruct (all_answered env urls) eqn:Hall.
  - destruct (addAll_responses env urls Hall) as (rs & -> & Hok & F).
    rewrite first_error_Ok. unfold ret at 1. cbn [fst snd]. rewrite values_Ok, Hok.
    destruct (put_rejects (storage env)) eqn:Hp; cbn [andb negb].
    + destruct (puts_reject env c urls rs w Hp Hne F) as (e & t & -> & Ft).
      eexists _, _. split_and!; [done | done |].
      rewrite app_nil_r. apply Forall_app. split; [|done].
      apply Forall_transfer_fetched.
    + destruct (puts_exact env c urls rs w Hp Hok F) as (t & -> & Ft).
      eexists _, _. split_and!; [done | done |].
      rewrite app_nil_r. apply Forall_app. split; [|done].
      apply Forall_transfer_fetched.
  - cbn [andb].
    destruct (addAll_unanswered env urls Hall) as [H|H].
    + destruct (first_error _) as [e|]; [|done]. cbn.
      eexists _, _. split_and!; [done | done |].
      rewrite app_nil_r. apply Forall_transfer_fetched.
    + destruct (first_error _) as [e|]; cbn.
      * eexists _, _. split_and!; [done | done |].
        rewrite app_nil_r. apply Forall_transfer_fetched.
      * rewrite H. cbn. eexists _, _. split_and!; [done | done |].
        rewrite !app_nil_r. apply Forall_transfer_fetched.
Qed.

Lemma initializeCacheName_base env w :
  base_path env (state (initializeCacheName env w)) = base_path env w.
Proof.
  destruct (fetchVersion_again env w) as (w1 & E1 & _ & Hb).
  unfold initializeCacheName, bind, state. rewrite E1.
  destruct (truthy (remote_version env w)); cbn.
  { rewrite <- Hb. by apply base_path_ext. }
  destruct (getCachedVersion_run env w1) as (t2 & ->).
  destruct (truthy (local_version env (caches w1))); cbn;
    rewrite <- Hb; by apply base_path_ext.
Qed.

Lemma asset_paths_nonempty (b : string) : (λ p, b +:+ p) <$> asset_paths ≠ [].
Proof. done. Qed.

(** The run of install. *)
Lemma install_exact env w :
  ∃ w2 t1,
    (CACHE_NAME w2, CURRENT_VERSION w2) = resolved env (install_start env w)
    ∧ caches w2 = caches w
    ∧ Forall is_quiet t1
    ∧ let c := CACHE_NAME w2 in
      let assets := (λ p, base_path env (install_start env w) +:+ p) <$> asset_paths in
      if open_rejects (storage env)
      then install env w = (Throw "open", w2, t1 ++ [Opened c])
      else ∃ t,
        install env w
        = (Ok tt,
           set_caches
             (foldl (store_with (install_source env (install_version w2) assets) env c)
                    (open_cache (caches w) c) assets) w2,
           t1 ++ Opened c :: t ++ [SkipWaiting])
        ∧ Forall is_transfer t.
Proof.
  pose proof (install_start_core env w) as (_ & _ & Hc0).
  pose proof (initializeCacheName_quiet env (install_start env w)) as Hq.
  pose proof (initializeCacheName_base env (install_start env w)) as Hb.
  destruct (initializeCacheName_run env (install_start env w))
    as (w1 & t1 & E1 & Hp & Hc1).
  unfold trace in Hq. unfold state in Hb. rewrite E1 in Hq, Hb. cbn [fst snd] in Hq, Hb.
  destruct (getAssets_run env w1) as (w2 & E2 & Hn2 & Hv2 & Hc2).
  rewrite Hb in E2.
  exists w2, (Fetched (version_url env (install_start env w)) :: t1).
  split_and!; [by rewrite Hn2, Hv2 | by rewrite Hc2, Hc1 | done |].
  intros c assets.
  set (rest := bind (caches_open env c)
              (λ cache,
                 do! try_catch
                       (cache_addAll env cache assets)
                       (λ _,
                          let! results :=
                            all_settled (download env cache (install_version w2)
                                           (now env) <$> assets) in
                          ret tt) in
                 emit SkipWaiting)).
  assert (∀ r w' t,
            rest w2 = (r, w', t) →
            install env w
            = (r, w', (Fetched (version_url env (install_start env w)) :: t1) ++ t))
    as Hrun.
  { intros r w' t Hrest. unfold install. unfold bind at 1. unfold get at 1.
    unfold bind at 1.
    assert ((if bool_decide (BASE_PATH w = None) && truthy (location_pathname env)
             then assign_BASE_PATH
                    (strip_trailing_slash
                       (strip_last_segment (default "" (location_pathname env))))
             else ret ()) w = (Ok tt, install_start env w, [])) as ->.
    { unfold install_start. by destruct (_ && _). }
    unfold bind at 1. rewrite E1.
    unfold bind at 1. rewrite E2.
    unfold bind at 1. unfold get at 1.
    fold c. fold assets. unfold install_version in rest. fold rest.
    by rewrite Hrest. }
  destruct (open_rejects (storage env)) eqn:Hopen.
  { apply Hrun. unfold rest, bind, caches_open. by rewrite Hopen. }
  set (w3 := set_caches (open_cache (caches w2) c) w2).
  assert (∃ t,
    try_catch
      (cache_addAll env c assets)
      (λ _,
         let! results :=
           all_settled (download env c (install_version w2) (now env) <$> assets) in
         ret tt) w3
    = (Ok tt,
       set_caches
         (foldl (store_with (install_source env (install_version w2) assets) env c)
                (open_cache (caches w) c) assets) w2, t)
    ∧ Forall is_transfer t) as (t & Ebody & Ft).
  { unfold try_catch, install_source.
    destruct (cache_addAll_exact env c assets w3 (asset_paths_nonempty _))
      as (res & t & -> & Hres & Ft).
    assert (caches w3 = open_cache (caches w) c) as Hc3
      by (unfold w3; cbn; by rewrite Hc2, Hc1, Hc0).
    destruct (all_answered env assets && negb (put_rejects (storage env))).
    - rewrite (proj2 Hres eq_refl). rewrite Hc3. by eexists.
    - destruct res as [[]|e]; [by pose proof (proj1 Hres eq_refl)|].
      unfold bind.
      destruct (downloads_exact env c (install_version w2) assets w3)
        as (t' & -> & Ft').
      rewrite Hc3. unfold ret. cbn [fst snd]. eexists. split; [reflexivity|].
      rewrite app_nil_r. by apply Forall_app. }
  exists t. split; [|done]. apply Hrun.
  unfold rest. unfold bind at 1. unfold caches_open at 1. rewrite Hopen.
  fold w3. unfold bind at 1. rewrite Ebody. unfold emit. by cbn.
Qed.

(** X16. Install rejects exactly when [caches.open] rejects, and then
    before anything has been requested for the cache: the storage is as it
    was. Otherwise it completes whatever the network and the writes did,
    [skipWaiting] being its last effect, and the only cache it may have
    added is the one the resolved pointer names. *)
Theorem install_rejects_only_on_open env w :
  result (install env w)
  = (if open_rejects (storage env) then Throw "open" else Ok tt)
  ∧ (CACHE_NAME (state (install env w)), CURRENT_VERSION (state (install env w)))
    = resolved env (install_start env w)
  ∧ last (trace (install env w))
    = Some (if open_rejects (storage env)
            then Opened (CACHE_NAME (state (install env w)))
            else SkipWaiting)
  ∧ keys_of (caches (state (install env w)))
    = (if open_rejects (storage env) then keys_of (caches w)
       else keys_of (open_cache (caches w) (CACHE_NAME (state (install env w)))))
  ∧ (open_rejects (storage env) = true →
     caches (state (install env w)) = caches w).
Proof.
  destruct (install_exact env w) as (w2 & t1 & Hp & Hc & Hq & H). cbn zeta in H.
  destruct (open_rejects (storage env)).
  - rewrite H. unfold result, state, trace. cbn [fst snd].
    split_and!; [done | done | by rewrite last_snoc | by rewrite Hc | done].
  - destruct H as (t & -> & Ft). unfold result, state, trace.
    cbn [fst snd CACHE_NAME CURRENT_VERSION caches set_caches].
    split_and!; [done | done | | | done].
    + by rewrite app_comm_cons, !app_assoc, last_snoc.
    + by rewrite keys_store_all.
Qed.

(** X17. What install stores when [caches.open] works. If every asset of
    the list is answered with a success and writing works, the resolved
    generation holds for each asset the answer to its plain request.
    Otherwise [cache.addAll] has stored nothing, and the generation holds
    for each asset the answer to its cache-busting request, made with the
    resolved version (or [install] when there is none), when that answer
    is a success and its write went through, and else what a cache of that
    name held before. *)
Theorem install_stores env w p :
  open_rejects (storage env) = false →
  p ∈ asset_paths →
  let w' := state (install env w) in
  let b := base_path env (install_start env w) in
  entry (caches w') (CACHE_NAME w') (resolve env (b +:+ p))
  = match install_source env (install_version w')
            ((λ q, b +:+ q) <$> asset_paths) (b +:+ p) with
    | Some r => Some r
    | None => entry (caches w) (CACHE_NAME w') (resolve env (b +:+ p))
    end.
Proof.
  intros Hopen Hp w' b. unfold w'.
  destruct (install_exact env w) as (w2 & t1 & _ & _ & _ & H). cbn zeta in H.
  rewrite Hopen in H. destruct H as (t & -> & _). fold b.
  unfold state. cbn [fst snd CACHE_NAME caches set_caches].
  assert (install_version (set_caches
            (foldl (store_with (install_source env (install_version w2)
                                  ((λ q, b +:+ q) <$> asset_paths)) env
                      (CACHE_NAME w2))
               (open_cache (caches w) (CACHE_NAME w2))
               ((λ q, b +:+ q) <$> asset_paths)) w2)
          = install_version w2) as -> by done.
  rewrite entry_store_all.
  - destruct (install_source _ _ _ _); [done | apply entry_open].
  - apply NoDup_asset_keys.
  - apply elem_of_keys_open.
  - apply list_elem_of_fmap. by exists p.
Qed.

(** X17 at the first install on a reachable site, where [cache.addAll]
    stores the plain answers, and on a site that lacks the stylesheet,
    where the document is stored from its cache-busting request. *)
Lemma install_stores_witness :
  entry (caches (state (install (kiosk (site "1") healthy) (started []))))
        "totem-cache-1" "https://kiosk/index.html"
  = Some (page "https://kiosk/index.html")
  ∧ entry (caches (state (install (kiosk (site_without "style.css" "1") healthy)
                            (started []))))
          "totem-cache-1" "https://kiosk/index.html"
    = Some (page "https://kiosk/index.html?_v=1&_t=1733054400").
Proof.
  split.
  - refine (eq_trans (install_stores (kiosk (site "1") healthy) (started [])
      "/index.html" eq_refl _) _); [right; left | by vm_compute].
  - refine (eq_trans (install_stores (kiosk (site_without "style.css" "1") healthy)
      (started []) "/index.html" eq_refl _) _); [right; left | by vm_compute].
Defined.

(** ** The background refresh *)

(** The refresh writes the network's answer, if it is a success, as the
    handler's write does; it never rejects. *)
Lemma background_refresh_exact env req w :
  ∃ t,
    background_refresh env req w
    = (Ok tt,
       match net env (resolve env (url req)) with
       | Some r =>
           if ok r then set_caches (refreshed env w (resolve env (url req)) r) w
           else w
       | None => w
       end, t).
Proof.
  unfold background_refresh. destruct (net env _) as [r|]; [|by eexists].
  destruct (ok r); [|by eexists]. unfold try_catch.
  destruct (store_current_exact env req r w) as (res & t & -> & _).
  destruct res as [[]|e]; cbn; by eexists.
Qed.

Lemma match_any_put_hidden (s : CacheStorage) c k r :
  c ∉ keys_of s → is_Some (match_any s k) →
  match_any (put_entry (s ++ [(c, ∅)]) c k r) k = match_any s k.
Proof.
  induction s as [|[n x] s IH]; cbn [match_any]; intros Hc Hs.
  { by destruct Hs. }
  apply not_elem_of_cons in Hc as [Hne Hc]. cbn in Hne.
  cbn [app put_entry]. rewrite bool_decide_false by done. cbn [match_any].
  destruct (x !! k); [done | by apply IH].
Qed.

(** X18. Stale-while-revalidate: a request answered from the generation
    the pointer names, no other cache holding it, is refreshed in the
    background with the network's successful answer when that answer is
    not a partial one, so that the next request is answered from the
    storage with the fresh response. A partial answer (status 206) is
    [ok], so the refresh attempts the write, but [cache.put] rejects it:
    the entry stays as it was and the next request gets the old response
    again. *)
Theorem refresh_then_fresh env env2 req w r0 r :
  cache_first_request req →
  match_rejects (storage env) = false →
  open_rejects (storage env) = false →
  put_rejects (storage env) = false →
  match_any (caches w) (resolve env (url req)) = Some (CACHE_NAME w, r0) →
  (∀ m c, (m, c) ∈ caches w → m ≠ CACHE_NAME w →
          c !! resolve env (url req) = None) →
  net env (resolve env (url req)) = Some r → ok r = true →
  origin env2 = origin env →
  match_rejects (storage env2) = false →
  result (fetch_handler env req w) = Ok (Responded r0, true)
  ∧ result (fetch_handler env2 req
              (state (background_refresh env req (state (fetch_handler env req w)))))
    = Ok (Responded (if partial r then r0 else r), true).
Proof.
  intros Hreq Hm Ho Hp Hhit Hothers Hnet Hok Horigin Hm2.
  destruct (fetch_handler_cache_first env req w Hreq) as (w1 & Hcore & E).
  destruct (serve_cache_first_exact env req w1 Hm) as (t & E1).
  pose proof Hcore as (Hn & _ & Hc).
  rewrite Hc, Hhit in E1.
  assert (fetch_handler env req w = (Ok (Responded r0, true), w1, t ++ [])) as ->.
  { rewrite E. unfold bind. by rewrite E1. }
  unfold result at 1. unfold state at 2. cbn [fst snd]. split; [done|].
  destruct (background_refresh_exact env req w1) as (t' & ->).
  rewrite Hnet, Hok, (refreshed_core env w w1 _ _ Hcore).
  unfold state. cbn [fst snd].
  set (w2 := set_caches _ w1).
  destruct (fetch_handler_cache_first env2 req w2 Hreq) as (w3 & Hcore3 & ->).
  destruct (serve_cache_first_exact env2 req w3 Hm2) as (t3 & E3).
  destruct Hcore3 as (_ & _ & Hc3).
  rewrite Hc3, (resolve_origin env env2) in E3 by done.
  unfold w2 in E3. cbn [caches set_caches] in E3.
  destruct (partial r) eqn:Hpart.
  - rewrite match_any_unrefreshed, Hhit in E3 by by apply put_fails_partial.
    unfold result, bind. by rewrite E3.
  - rewrite match_any_refreshed in E3 by (done || by apply put_works).
    unfold result, bind. by rewrite E3.
Qed.

(** X18 at the stored document of version 1, refreshed from the site and
    requested again while offline; and at a stored video that the site
    answers with a partial response, which stays as it was. *)
Lemma refresh_then_fresh_witness :
  result (fetch_handler (kiosk unreachable healthy) index_html
            (state (background_refresh (kiosk (site "1") healthy) index_html
                      (state (fetch_handler (kiosk (site "1") healthy) index_html
                                active_v1)))))
  = Ok (Responded (page "https://kiosk/index.html"), true)
  ∧ result (fetch_handler (kiosk unreachable healthy) video_mp4
              (state (background_refresh (kiosk (streaming "1") healthy) video_mp4
                        (state (fetch_handler (kiosk (streaming "1") healthy)
                                  video_mp4 with_video)))))
    = Ok (Responded (page "old video"), true).
Proof.
  split.
  - refine (proj2 (refresh_then_fresh (kiosk (site "1") healthy)
      (kiosk unreachable healthy) index_html active_v1 (page "v1")
      (page "https://kiosk/index.html") _ eq_refl eq_refl eq_refl eq_refl _
      eq_refl eq_refl eq_refl eq_refl)).
    + by vm_compute.
    + intros m c [[= -> ->]|H%elem_of_nil]%elem_of_cons Hne; [|done].
      exfalso. apply Hne. reflexivity.
  - refine (proj2 (refresh_then_fresh (kiosk (streaming "1") healthy)
      (kiosk unreachable healthy) video_mp4 with_video (page "old video")
      (part_of "https://kiosk/media/video2.mp4") _ eq_refl eq_refl eq_refl
      eq_refl _ eq_refl eq_refl eq_refl eq_refl)).
    + by vm_compute.
    + intros m c [[= -> ->]|H%elem_of_nil]%elem_of_cons Hne; [|done].
      exfalso. apply Hne. reflexivity.
Defined.

(** X19. The refresh is lost when the pointer names no stored cache, as it
    does in a worker that the browser has restarted (the pointer is back at
    its initial value until install or activate runs): the answer comes
    from a generation of another name, the refresh creates the cache the
    pointer names after every stored one and writes there, and
    [caches.match] goes on finding the old entry first. *)
Theorem refresh_hidden_behind_stored_generation env env2 req w n r0 :
  cache_first_request req →
  match_rejects (storage env) = false →
  match_any (caches w) (resolve env (url req)) = Some (n, r0) →
  CACHE_NAME w ∉ keys_of (caches w) →
  origin env2 = origin env →
  match_rejects (storage env2) = false →
  result (fetch_handler env req w) = Ok (Responded r0, true)
  ∧ result (fetch_handler env2 req
              (state (background_refresh env req (state (fetch_handler env req w)))))
    = Ok (Responded r0, true).
Proof.
  intros Hreq Hm Hhit Hptr Horigin Hm2.
  destruct (fetch_handler_cache_first env req w Hreq) as (w1 & Hcore & E).
  destruct (serve_cache_first_exact env req w1 Hm) as (t & E1).
  pose proof Hcore as (Hn & _ & Hc).
  rewrite Hc, Hhit in E1.
  assert (fetch_handler env req w = (Ok (Responded r0, true), w1, t ++ [])) as ->.
  { rewrite E. unfold bind. by rewrite E1. }
  unfold result at 1. unfold state at 2. cbn [fst snd]. split; [done|].
  destruct (background_refresh_exact env req w1) as (t' & ->).
  unfold state. cbn [fst snd].
  match goal with
  | |- context [fetch_handler env2 req ?s] => set (w2 := s)
  end.
  assert (match_any (caches w2) (resolve env (url req)) = Some (n, r0)) as Hstill.
  { unfold w2. destruct (net env _) as [r|]; [|by rewrite Hc].
    destruct (ok r); [|by rewrite Hc]. cbn [caches set_caches].
    rewrite (refreshed_core env w w1 _ _ Hcore). unfold refreshed.
    destruct (open_rejects _); [done|].
    destruct (put_fails _ _); [by rewrite match_any_open|].
    unfold open_cache, has_cache. rewrite bool_decide_false by done.
    rewrite match_any_put_hidden; [done | done | by rewrite Hhit]. }
  destruct (fetch_handler_cache_first env2 req w2 Hreq) as (w3 & Hcore3 & ->).
  destruct (serve_cache_first_exact env2 req w3 Hm2) as (t3 & E3).
  destruct Hcore3 as (_ & _ & Hc3).
  rewrite Hc3, (resolve_origin env env2), Hstill in E3 by done.
  unfold result, bind. by rewrite E3.
Qed.

(** X19 at a restarted worker: the document of version 1 stays the answer
    after the refresh has stored the site's current document. *)
Lemma refresh_hidden_behind_stored_generation_witness :
  result (fetch_handler (kiosk (site "2") healthy) index_html
            (state (background_refresh (kiosk (site "2") healthy) index_html
                      (state (fetch_handler (kiosk (site "2") healthy) index_html
                                restarted)))))
  = Ok (Responded (page "v1"), true).
Proof.
  refine (proj2 (refresh_hidden_behind_stored_generation
    (kiosk (site "2") healthy) (kiosk (site "2") healthy) index_html restarted
    "totem-cache-1" (page "v1") _ eq_refl eq_refl _ eq_refl eq_refl)).
  - by vm_compute.
  - by apply (bool_decide_unpack _).
Defined.

(** ** The older install and activate *)

(** X20. The guard [if (oldCaches.length > 0)] of the current activate
    changes nothing: the older activate, which calls [Promise.all] on the
    deletions unconditionally, has the same result, the same final state
    and the same effects in every environment and from every state. *)
Theorem legacy_activate_same env w :
  Legacy.activate env w = activate env w.
Proof.
  unfold Legacy.activate, activate.
  apply bind_ext. intros w0 w1.
  apply bind_ext. intros _ w2.
  apply bind_ext. intros names w3.
  apply bind_ext. intros w4 w5.
  destruct (superseded (CACHE_NAME w4) names) as [|n old] eqn:Hold.
  - cbn [length Nat.ltb Nat.leb fmap list_fmap]. done.
  - cbn [length Nat.ltb Nat.leb]. rewrite bind_assoc.
    apply bind_ext. intros deleted w6. by rewrite bind_ret_l.
Qed.

Lemma legacy_adds_exact env c assets w :
  ∃ t,
    for_each assets
      (λ asset, try_catch (Legacy.cache_add env c asset) (λ _, ret tt)) w
    = (Ok tt, set_caches (foldl (store_with (added env) env c) (caches w) assets) w, t)
    ∧ Forall is_transfer t.
Proof.
  revert w. induction assets as [|a assets IH]; intros w.
  { cbn. rewrite set_caches_id. eexists. split; [done | constructor]. }
  cbn [for_each foldl]. unfold bind at 1.
  assert (∃ t1,
    try_catch (Legacy.cache_add env c a) (λ _, ret tt) w
    = (Ok tt, set_caches (store_with (added env) env c (caches w) a) w, t1)
    ∧ Forall is_transfer t1) as (t1 & -> & F1).
  { unfold try_catch, Legacy.cache_add, bind, fetch, store_with, added, plain.
    destruct (net env (resolve env a)) as [r|]; cbn [fst snd].
    2:{ rewrite set_caches_id. eexists. split; [done | by repeat constructor]. }
    unfold cache_put, put_fails.
    destruct (ok r), (partial r), (put_rejects (storage env));
      cbn [andb orb negb fst snd ret throw app]; rewrite ?set_caches_id;
      (eexists; split; [done | by repeat constructor]). }
  destruct (IH (set_caches (store_with (added env) env c (caches w) a) w))
    as (t2 & -> & F2).
  eexists. split; [done | by apply Forall_app].
Qed.

Lemma store_all_ext d1 d2 env c (s : CacheStorage) assets :
  (∀ a, a ∈ assets → d1 a = d2 a) →
  foldl (store_with d1 env c) s assets = foldl (store_with d2 env c) s assets.
Proof.
  revert s. induction assets as [|a assets IH]; intros s H; [done|].
  cbn [foldl]. unfold store_with at 2 4. rewrite (H a) by left.
  apply IH. intros a' Ha'. apply H. by right.
Qed.

Lemma all_answered_added env assets a :
  all_answered env assets && negb (put_rejects (storage env)) = true →
  a ∈ assets → plain env a = added env a.
Proof.
  intros [Hall Hp]%andb_true_iff Ha. unfold all_answered in Hall.
  rewrite forallb_forall in Hall. apply list_elem_of_In in Ha.
  specialize (Hall a Ha). unfold added.
  destruct (plain env a) as [r|]; [|done].
  apply andb_true_iff in Hall as [Hok Hpart]. apply negb_true_iff in Hpart.
  apply negb_true_iff in Hp. by rewrite Hok, (put_works env r Hp Hpart).
Qed.

(** The run of the older install when [caches.open] works. *)
Lemma legacy_install_exact env w :
  open_rejects (storage env) = false →
  ∃ w2 t,
    (CACHE_NAME w2, CURRENT_VERSION w2) = resolved env (install_start env w)
    ∧ Legacy.install env w
      = (Ok tt,
         set_caches
           (foldl (store_with (added env) env (CACHE_NAME w2))
                  (open_cache (caches w) (CACHE_NAME w2))
                  ((λ p, base_path env (install_start env w) +:+ p)
                     <$> Legacy.asset_paths)) w2,
         t).
Proof.
  intros Hopen.
  pose proof (install_start_core env w) as (_ & _ & Hc0).
  pose proof (initializeCacheName_base env (install_start env w)) as Hb.
  destruct (initializeCacheName_run env (install_start env w))
    as (w1 & t1 & E1 & Hp & Hc1).
  unfold state in Hb. rewrite E1 in Hb. cbn [fst snd] in Hb.
  destruct (legacy_getAssets_run env w1) as (w2 & E2 & (Hn2 & Hv2 & Hc2) & _).
  rewrite Hb in E2.
  set (c := CACHE_NAME w2).
  set (assets := (λ p, base_path env (install_start env w) +:+ p)
                   <$> Legacy.asset_paths) in *.
  set (w3 := set_caches (open_cache (caches w2) c) w2).
  assert (caches w3 = open_cache (caches w) c) as Hc3
    by (unfold w3; cbn; by rewrite Hc2, Hc1, Hc0).
  assert (∃ t,
    try_catch
      (cache_addAll env c assets)
      (λ _,
         for_each assets
           (λ asset, try_catch (Legacy.cache_add env c asset) (λ _, ret tt))) w3
    = (Ok tt,
       set_caches (foldl (store_with (added env) env c)
                         (open_cache (caches w) c) assets) w2, t))
    as (t & Ebody).
  { unfold try_catch at 1.
    destruct (cache_addAll_exact env c assets w3) as (res & t & -> & Hres & Ft);
      [done|].
    destruct (all_answered env assets && negb (put_rejects (storage env))) eqn:Hall.
    - rewrite (proj2 Hres eq_refl), Hc3.
      rewrite (store_all_ext (plain env) (added env))
        by (intros a Ha; by apply (all_answered_added env assets)).
      by eexists.
    - destruct res as [[]|e]; [by pose proof (proj1 Hres eq_refl)|].
      destruct (legacy_adds_exact env c assets w3) as (t' & -> & _).
      rewrite Hc3. eexists. reflexivity. }
  exists w2. eexists. split; [by rewrite Hn2, Hv2|].
  unfold Legacy.install. unfold bind at 1. unfold get at 1.
  unfold bind at 1.
  assert ((if bool_decide (BASE_PATH w = None) && truthy (location_pathname env)
           then assign_BASE_PATH
                  (strip_trailing_slash
                     (strip_last_segment (default "" (location_pathname env))))
           else ret ()) w = (Ok tt, install_start env w, [])) as ->.
  { unfold install_start. by destruct (_ && _). }
  unfold bind at 1. rewrite E1.
  unfold bind at 1. rewrite E2.
  unfold bind at 1. unfold get at 1.
  unfold bind at 1. unfold caches_open at 1. rewrite Hopen.
  fold c. fold w3. unfold bind at 1. rewrite Ebody. unfold emit. cbn.
  reflexivity.
Qed.

(** X21. The older install stores, for each asset of its list, the answer
    to the plain request whenever that answer is a success and its write
    goes through, whether [cache.addAll] succeeded or the assets were
    added one after the other; an asset that is not so answered keeps
    what a cache of the resolved name held for it before. *)
Theorem legacy_install_stores env w p :
  open_rejects (storage env) = false →
  p ∈ Legacy.asset_paths →
  let w' := state (Legacy.install env w) in
  let b := base_path env (install_start env w) in
  result (Legacy.install env w) = Ok tt
  ∧ entry (caches w') (CACHE_NAME w') (resolve env (b +:+ p))
    = match added env (b +:+ p) with
      | Some r => Some r
      | None => entry (caches w) (CACHE_NAME w') (resolve env (b +:+ p))
      end.
Proof.
  intros Hopen Hp w' b. unfold w'.
  destruct (legacy_install_exact env w Hopen) as (w2 & t & _ & ->). fold b.
  unfold result, state. cbn [fst snd CACHE_NAME caches set_caches].
  split; [done|].
  rewrite entry_store_all.
  - destruct (added _ _); [done | apply entry_open].
  - destruct (resolve_under_base env b) as (pre & Hpre).
    assert (resolve env <$> ((λ q, b +:+ q) <$> Legacy.asset_paths)
            = (λ q, pre +:+ q) <$> Legacy.asset_paths) as ->.
    { rewrite <- list_fmap_compose. apply Forall_fmap_ext_1.
      unfold Legacy.asset_paths. repeat constructor; cbn; by apply Hpre. }
    apply (NoDup_fmap_2 _). unfold Legacy.asset_paths.
    apply (bool_decide_unpack _). by vm_compute.
  - apply elem_of_keys_open.
  - apply list_elem_of_fmap. by exists p.
Qed.

(** X21 at the older install on a site that lacks the stylesheet: the
    document is stored from its plain request, the stylesheet is not. *)
Lemma legacy_install_stores_witness :
  entry (caches (state (Legacy.install (kiosk (site_without "style.css" "1") healthy)
                          (Legacy.started []))))
        "totem-cache-1" "https://kiosk/index.html"
  = Some (page "https://kiosk/index.html")
  ∧ entry (caches (state (Legacy.install
                            (kiosk (site_without "style.css" "1") healthy)
                            (Legacy.started []))))
          "totem-cache-1" "https://kiosk/style.css"
    = None.
Proof.
  split.
  - refine (eq_trans (proj2 (legacy_install_stores
      (kiosk (site_without "style.css" "1") healthy) (Legacy.started []) "/index.html"
      eq_refl _)) _); [right; left | by vm_compute].
  - refine (eq_trans (proj2 (legacy_install_stores
      (kiosk (site_without "style.css" "1") healthy) (Legacy.started []) "/style.css"
      eq_refl _)) _); [do 2 right; left | by vm_compute].
Defined.

(** ** Install followed by activate *)

Lemma keys_swept keep (s : CacheStorage) n :
  n ∈ keys_of (swept keep s)
  ↔ n ∈ keys_of s ∧ (startsWith n PREFIX = false ∨ n = keep).
Proof.
  unfold swept, keys_of. rewrite !list_elem_of_fmap. split.
  - intros ([m c] & -> & Hin).
    apply list_elem_of_In, List.filter_In in Hin as [Hin HP]. cbn [fst] in *.
    split; [exists (m, c); split; [done | by apply list_elem_of_In]|].
    apply negb_true_iff, andb_false_iff in HP as [?|H]; [by left | right].
    by apply negb_false_iff, bool_decide_eq_true in H.
  - intros [([m c] & -> & Hin) HP]. exists (m, c). split; [done|].
    apply list_elem_of_In, List.filter_In. split; [by apply list_elem_of_In|].
    cbn [fst] in *. apply negb_true_iff, andb_false_iff.
    destruct HP as [?| ->]; [by left | right].
    by apply negb_false_iff, bool_decide_eq_true.
Qed.

Lemma entry_swept keep (s : CacheStorage) k :
  entry (swept keep s) keep k = entry s keep k.
Proof.
  unfold entry, swept. induction s as [|[m c] s IH]; [done|].
  cbn [List.filter fst lookup_cache].
  destruct (decide (m = keep)) as [->|Hne].
  - rewrite (bool_decide_true (keep = keep)) by done.
    rewrite andb_false_r. cbn [negb lookup_cache].
    by rewrite bool_decide_true.
  - rewrite (bool_decide_false (m = keep)) by done.
    destruct (negb _); cbn [lookup_cache]; [|exact IH].
    by rewrite bool_decide_false.
Qed.

(** X22. A worker whose version is known after install keeps its pointer
    through activate, and when listing and deleting work the storage then
    holds exactly the caches of other applications and the installed
    generation, whose entries are those install stored. *)
Theorem install_then_activate env env2 w :
  open_rejects (storage env) = false →
  keys_rejects (storage env2) = false →
  delete_rejects (storage env2) = false →
  truthy (CURRENT_VERSION (state (install env w))) = true →
  CACHE_NAME (state (activate env2 (state (install env w))))
  = CACHE_NAME (state (install env w))
  ∧ (∀ n, n ∈ keys_of (caches (state (activate env2 (state (install env w)))))
          ↔ n = CACHE_NAME (state (install env w))
            ∨ (n ∈ keys_of (caches w) ∧ startsWith n PREFIX = false))
  ∧ (∀ k, entry (caches (state (activate env2 (state (install env w)))))
                (CACHE_NAME (state (install env w))) k
          = entry (caches (state (install env w)))
                  (CACHE_NAME (state (install env w))) k).
Proof.
  intros Hopen Hkeys Hdel Hv.
  destruct (install_exact env w) as (w2 & t1 & _ & _ & _ & H). cbn zeta in H.
  rewrite Hopen in H. destruct H as (t & E & _).
  revert Hv. unfold state. rewrite E. cbn [fst snd]. intros Hv.
  set (w1 := set_caches _ w2) in *.
  assert (CACHE_NAME w1 = CACHE_NAME w2) as Hn by done.
  assert (keys_of (caches w1) = keys_of (open_cache (caches w) (CACHE_NAME w2)))
    as Hk by (unfold w1; cbn [caches set_caches]; by rewrite keys_store_all).
  destruct (activate_exact env2 w1 Hkeys Hdel) as (w3 & t3 & _ & -> & _ & Hsame).
  rewrite (Hsame Hv). cbn [fst snd CACHE_NAME caches set_caches].
  split_and!; [done | | intros k; apply entry_swept].
  intros n. rewrite keys_swept, Hk, Hn.
  assert (n ∈ keys_of (open_cache (caches w) (CACHE_NAME w2))
          ↔ n ∈ keys_of (caches w) ∨ n = CACHE_NAME w2) as ->.
  { unfold open_cache, has_cache. case_bool_decide as Hin.
    - split; [by left | by intros [?| ->]].
    - unfold keys_of. rewrite fmap_app, elem_of_app. cbn.
      by rewrite list_elem_of_singleton. }
  tauto.
Qed.

(** X22 at a worker started over a storage that holds a generation of
    version 2, one of version 1 and a cache of another application, and
    installed from a site at version 1. *)
Lemma install_then_activate_witness :
  CACHE_NAME (state (activate (kiosk unreachable healthy)
                       (state (install (kiosk (site "1") healthy)
                                 (started (caches crowded))))))
  = "totem-cache-1".
Proof.
  refine (eq_trans (proj1 (install_then_activate (kiosk (site "1") healthy)
    (kiosk unreachable healthy) (started (caches crowded))
    eq_refl eq_refl eq_refl _)) _);
    by vm_compute.
Defined.

Lemma swept_absent keep (s : CacheStorage) :
  keep ∉ keys_of s →
  swept keep s = List.filter (λ nc, negb (startsWith nc.1 PREFIX)) s.
Proof.
  intros H. unfold swept. apply List.filter_ext_in. intros [n c] Hin. cbn [fst].
  rewrite (bool_decide_false (n = keep)); [by rewrite andb_true_r|].
  intros ->. apply H. apply list_elem_of_fmap. exists (keep, c).
  split; [done | by apply list_elem_of_In].
Qed.

(** X23. Activate resolves the pointer again when the version is unset,
    as it is in a worker restarted between install and activate, or after
    an install that fell back to the default name. When the name so
    resolved is not the name of a stored cache, activate deletes every
    stored generation, the one install filled included, and leaves the
    pointer naming a cache that does not exist. *)
Theorem activate_can_delete_every_generation env w :
  keys_rejects (storage env) = false →
  delete_rejects (storage env) = false →
  truthy (CURRENT_VERSION w) = false →
  (resolved env w).1 ∉ keys_of (caches w) →
  CACHE_NAME (state (activate env w)) = (resolved env w).1
  ∧ caches (state (activate env w))
    = List.filter (λ nc, negb (startsWith nc.1 PREFIX)) (caches w)
  ∧ (∀ n, n ∈ keys_of (caches w) → startsWith n PREFIX = true →
          Deleted n ∈ trace (activate env w))
  ∧ CACHE_NAME (state (activate env w)) ∉ keys_of (caches (state (activate env w))).
Proof.
  intros Hkeys Hdel Hv Hnew.
  destruct (activate_exact env w Hkeys Hdel) as (w1 & t1 & E1 & -> & Hc & _).
  rewrite Hv in E1. cbn [negb] in E1.
  destruct (initializeCacheName_run env w) as (w1' & t1' & E1' & Hp & _).
  rewrite E1' in E1. injection E1 as <- <-.
  assert (CACHE_NAME w1' = (resolved env w).1) as Hn by by rewrite <- Hp.
  unfold state, trace. cbn [fst snd CACHE_NAME caches set_caches].
  rewrite Hc, Hn, swept_absent by done.
  split_and!; [done | done | |].
  - intros n Hin Hpre. apply elem_of_app. right. right.
    apply elem_of_app. left. apply list_elem_of_fmap. exists n. split; [done|].
    apply superseded_spec. split_and!; [done | done |]. by intros ->.
  - intros (nc & Heq & Hin)%list_elem_of_fmap. apply Hnew.
    apply list_elem_of_In, List.filter_In in Hin as [Hin _].
    apply list_elem_of_fmap. exists nc. split; [done | by apply list_elem_of_In].
Qed.

(** X23 at a restarted worker that finds the site at version 2: the
    generation of version 1, the only one stored, is deleted and the
    pointer names [totem-cache-2], which does not exist. *)
Lemma activate_can_delete_every_generation_witness :
  CACHE_NAME (state (activate (kiosk (site "2") healthy) restarted))
  = "totem-cache-2"
  ∧ caches (state (activate (kiosk (site "2") healthy) restarted)) = [].
Proof.
  destruct (activate_can_delete_every_generation (kiosk (site "2") healthy)
              restarted eq_refl eq_refl eq_refl) as (Hn & Hc & _).
  - by apply (bool_decide_unpack _).
  - split; [rewrite Hn | rewrite Hc]; by vm_compute.
Defined.

(** ** The minimal worker *)

Lemma foldl_delete_others (s : CacheStorage) keep :
  foldl delete_cache s
        (List.filter (λ k, negb (bool_decide (k = keep))) (keys_of s))
  = List.filter (λ nc, bool_decide (nc.1 = keep)) s.
Proof.
  rewrite foldl_delete_filter. apply List.filter_ext_in. intros [n c] Hin.
  cbn [fst]. apply list_elem_of_In in Hin.
  destruct (decide (n = keep)) as [->|Hne].
  - rewrite (bool_decide_true (keep = keep)) by done.
    rewrite bool_decide_false; [done|].
    intros [_ H]%list_elem_of_In%List.filter_In.
    by rewrite bool_decide_true in H.
  - rewrite (bool_decide_false (n = keep)) by done.
    rewrite bool_decide_true; [done|].
    apply list_elem_of_In, List.filter_In. split.
    + apply list_elem_of_In, list_elem_of_fmap. by exists (n, c).
    + by rewrite bool_decide_false.
Qed.

(** X24. The minimal worker's activate, when listing and deleting work,
    deletes every cache whose name is not [totem-cache-v1], whatever the
    name: caches of other applications on the same origin go too, where
    the versioned worker deletes only names that carry its prefix. It
    calls [clients.claim] first. *)
Theorem minimal_activate_deletes_all_others env w :
  keys_rejects (storage env) = false →
  delete_rejects (storage env) = false →
  result (Minimal.activate env w) = Ok tt
  ∧ caches (state (Minimal.activate env w))
    = List.filter (λ nc, bool_decide (nc.1 = Minimal.CACHE_NAME)) (caches w)
  ∧ (∀ n, n ∈ keys_of (caches w) → n ≠ Minimal.CACHE_NAME →
          Deleted n ∈ trace (Minimal.activate env w))
  ∧ head (trace (Minimal.activate env w)) = Some Claim.
Proof.
  intros Hkeys Hdel.
  set (others := List.filter (λ k, negb (bool_decide (k = Minimal.CACHE_NAME)))
                   (keys_of (caches w))).
  destruct (deletes_run env others w) as (res & E & Hok & _).
  destruct (Hok Hdel) as (l & ->).
  assert (Minimal.activate env w
          = (Ok tt, set_caches (delete_all env (caches w) others) w,
             Claim :: Keys :: (Deleted <$> others) ++ [])) as ->.
  { unfold Minimal.activate, bind, emit, caches_keys. rewrite Hkeys.
    cbn [fst snd]. fold others. rewrite E. done. }
  unfold result, state, trace, delete_all. rewrite Hdel.
  cbn [fst snd caches set_caches]. unfold others at 1.
  rewrite foldl_delete_others. split_and!; [done | done | | done].
  intros n Hin Hne. do 2 right. rewrite app_nil_r.
  apply list_elem_of_fmap. exists n. split; [done|].
  apply list_elem_of_In, List.filter_In. split; [by apply list_elem_of_In|].
  by rewrite bool_decide_false.
Qed.

(** X24 at a storage that holds two generations and a cache of another
    application: nothing is left. *)
Lemma minimal_activate_deletes_all_others_witness :
  caches (state (Minimal.activate (kiosk unreachable healthy) crowded)) = [].
Proof.
  destruct (minimal_activate_deletes_all_others (kiosk unreachable healthy) crowded
              eq_refl eq_refl) as (_ & -> & _).
  by vm_compute.
Defined.

Lemma match_any_put_is_Some (s : CacheStorage) c k r j :
  is_Some (match_any s k) →
  (is_Some (match_any (put_entry s c k r) j) ↔ is_Some (match_any s j)).
Proof.
  induction s as [|[n x] s IH]; [done|]. cbn [match_any put_entry].
  intros Hk. case_bool_decide as E; cbn [match_any].
  - destruct (decide (j = k)) as [->|Hne].
    + rewrite lookup_insert_eq. split; [by intros _ | by intros _].
    + by rewrite lookup_insert_ne.
  - destruct (x !! j) eqn:Hj; [done|].
    destruct (x !! k) eqn:Hxk; [|by apply IH].
    destruct (decide (j = k)) as [->|Hne]; [congruence|].
    clear IH Hk. induction s as [|[m y] s IH]; [done|].
    cbn [match_any put_entry]. case_bool_decide as E2; cbn [match_any].
    + by rewrite lookup_insert_ne.
    + destruct (y !! j); [done | exact IH].
Qed.

(** X25. The minimal worker hands every request to [caches.match], which
    finds nothing for a request that is not a GET: such a request is
    always answered by the network, or without network with a response
    [Offline] of status 200, also when its URL is stored. A GET is
    answered with the entry stored under its URL when there is one, else
    in the same way. Answering changes nothing, and after the background
    refresh that follows an answer from the storage the URLs found in the
    storage are those found before: a URL that is not stored is never
    added, so a request that missed misses again. *)
Theorem minimal_fetch_adds_no_url env env2 req w :
  match_rejects (storage env) = false →
  state (Minimal.fetch_handler env req w) = w
  ∧ result (Minimal.fetch_handler env req w)
    = Ok (match (if bool_decide (method req = "GET")
                 then match_any (caches w) (resolve env (url req)) else None) with
          | Some (_, r) => (r, true)
          | None => (default Minimal.offline (net env (resolve env (url req))),
                     false)
          end)
  ∧ ok Minimal.offline = true
  ∧ (∀ r, result (Minimal.fetch_handler env req w) = Ok (r, true) →
          origin env2 = origin env →
          ∀ j, is_Some (match_any
                          (caches (state (Minimal.background_refresh env2 req w))) j)
               ↔ is_Some (match_any (caches w) j)).
Proof.
  intros Hm.
  assert (Minimal.fetch_handler env req w
          = (Ok (match (if bool_decide (method req = "GET")
                        then match_any (caches w) (resolve env (url req))
                        else None) with
                 | Some (_, r) => (r, true)
                 | None => (default Minimal.offline
                              (net env (resolve env (url req))), false)
                 end),
             w, trace (Minimal.fetch_handler env req w))) as E.
  { unfold trace, Minimal.fetch_handler, Minimal.match_request, bind, caches_match.
    rewrite Hm. cbn [fst snd ret].
    case_bool_decide as Hget.
    - destruct (match_any _ _) as [[n r]|];
        cbn [fmap option_fmap option_map snd]; [done|].
      unfold try_catch, fetch. by destruct (net env _).
    - unfold try_catch, fetch. by destruct (net env _). }
  rewrite E. unfold state, result. cbn [fst snd].
  split_and!; [done | done | done |].
  intros r Hr Horigin j.
  assert (is_Some (match_any (caches w) (resolve env (url req)))) as Hhit.
  { case_bool_decide; [|done].
    destruct (match_any _ _) as [[n r']|]; [done|]. done. }
  unfold Minimal.background_refresh. rewrite (resolve_origin env env2) by done.
  destruct (net env2 _) as [u|]; [|done].
  destruct (ok u); [|done].
  unfold try_catch, bind, caches_open, cache_put.
  destruct (open_rejects _); cbn [fst snd]; [done|].
  destruct (put_fails _ _); unfold ret; cbn [fst snd caches set_caches].
  - by rewrite match_any_open.
  - rewrite (resolve_origin env env2) by done.
    rewrite match_any_put_is_Some by by rewrite match_any_open.
    by rewrite match_any_open.
Qed.

(** X25 at a POST to the URL of the stored document, with the site
    unreachable: the stored document is not the answer. *)
Lemma minimal_fetch_adds_no_url_witness :
  result (Minimal.fetch_handler (kiosk unreachable healthy)
            {| method := "POST"; url := "https://kiosk/index.html";
               pathname := "/index.html" |} active_v1)
  = Ok (Minimal.offline, false).
Proof.
  refine (eq_trans (proj1 (proj2 (minimal_fetch_adds_no_url
    (kiosk unreachable healthy) (kiosk unreachable healthy)
    {| method := "POST"; url := "https://kiosk/index.html";
       pathname := "/index.html" |} active_v1 eq_refl))) _).
  by vm_compute.
Defined.

(** X26. The minimal worker's install stores all of its assets or none:
    it resolves exactly when [caches.open] works, every asset is answered
    with a success and writing works, and then the cache holds for each
    asset the answer to its request; otherwise it rejects and no entry has
    been written. [skipWaiting] has been called in either case. *)
Theorem minimal_install_all_or_nothing env w :
  (result (Minimal.install env w) = Ok tt
   ↔ open_rejects (storage env) = false
     ∧ all_answered env Minimal.ASSETS && negb (put_rejects (storage env)) = true)
  ∧ head (trace (Minimal.install env w)) = Some SkipWaiting
  ∧ (result (Minimal.install env w) = Ok tt →
     ∀ a, a ∈ Minimal.ASSETS →
          entry (caches (state (Minimal.install env w))) Minimal.CACHE_NAME
                (resolve env a)
          = plain env a)
  ∧ (result (Minimal.install env w) ≠ Ok tt →
     ∀ n k, entry (caches (state (Minimal.install env w))) n k
            = entry (caches w) n k).
Proof.
  destruct (open_rejects (storage env)) eqn:Hopen.
  { assert (Minimal.install env w
            = (Throw "open", w, [SkipWaiting; Opened Minimal.CACHE_NAME])) as ->.
    { unfold Minimal.install, bind, emit, caches_open. by rewrite Hopen. }
    unfold result, state, trace. cbn [fst snd].
    split_and!; [split; [done | by intros [? _]] | done | done | done]. }
  set (w1 := set_caches (open_cache (caches w) Minimal.CACHE_NAME) w).
  destruct (cache_addAll_exact env Minimal.CACHE_NAME Minimal.ASSETS w1)
    as (res & t & E & Hres & _); [done|].
  assert (Minimal.install env w
          = (res,
             if all_answered env Minimal.ASSETS && negb (put_rejects (storage env))
             then set_caches
                    (foldl (store_with (plain env) env Minimal.CACHE_NAME)
                           (caches w1) Minimal.ASSETS) w1
             else w1,
             SkipWaiting :: Opened Minimal.CACHE_NAME :: t)) as ->.
  { unfold Minimal.install, bind, emit, caches_open. rewrite Hopen.
    cbn [fst snd]. fold w1. rewrite E. by destruct res. }
  unfold result, state, trace. cbn [fst snd].
  split_and!; [| done | |].
  - rewrite Hres. tauto.
  - intros Hr a Ha. rewrite (proj1 Hres Hr).
    cbn [caches set_caches]. unfold w1 at 1. cbn [caches set_caches].
    rewrite entry_store_all.
    + destruct (plain env a) as [r|] eqn:Hp; [done|].
      apply proj1 in Hres. specialize (Hres Hr).
      apply andb_true_iff in Hres as [Hall _]. unfold all_answered in Hall.
      rewrite forallb_forall in Hall. apply list_elem_of_In in Ha.
      specialize (Hall a Ha). by rewrite Hp in Hall.
    + destruct (resolve_under_base env "") as (pre & Hpre).
      assert (resolve env <$> Minimal.ASSETS = (λ q, pre +:+ q) <$> Minimal.ASSETS)
        as ->.
      { apply Forall_fmap_ext_1. unfold Minimal.ASSETS.
        repeat constructor; by rewrite <- Hpre. }
      apply (NoDup_fmap_2 _). apply (bool_decide_unpack _). by vm_compute.
    + apply elem_of_keys_open.
    + done.
  - intros Hr n k.
    destruct (all_answered env Minimal.ASSETS && negb (put_rejects (storage env))).
    { exfalso. apply Hr. by apply Hres. }
    unfold w1. cbn [caches set_caches]. apply entry_open.
Qed.

(** ** Two updates in flight *)

(** Run alone, the update is its stretch up to the suspension followed at
    once by the stretch after it. *)
Lemma update_resumed env v w :
  updateCacheForNewVersion env v w
  = (let! goes_on := update_to_commit env v in
     if goes_on then update_sweep env v else ret tt) w.
Proof.
  unfold updateCacheForNewVersion, try_catch. rewrite update_body_split.
  unfold update_to_commit, update_sweep, try_catch, bind.
  destruct (update_gate env v w) as [[[passed|e] w1] t1]; cbn [fst snd].
  2:{ unfold broadcast, ret. cbn. by rewrite ?app_nil_r. }
  destruct passed; cbn [negb].
  - unfold update_commit, bind, assign_CACHE_NAME, assign_CURRENT_VERSION, ret,
      caches_keys, broadcast.
    cbn [fst snd app CACHE_NAME CURRENT_VERSION BASE_PATH caches].
    destruct (keys_rejects (storage env)); cbn [fst snd app].
    { by rewrite ?app_nil_r, <- ?app_assoc. }
    match goal with
    | |- context [promise_all ?ps ?w] =>
        destruct (promise_all ps w) as [[[l|e] w2] t2]
    end; cbn [fst snd app]; by rewrite ?app_nil_r, <- ?app_assoc.
  - unfold update_abort, bind, ret, caches_delete, broadcast.
    destruct (delete_rejects (storage env)); cbn [fst snd app];
      by rewrite ?app_nil_r, <- ?app_assoc.
Qed.

(** The stretch of an update up to its suspension, when the gate passes:
    the downloads, then the two assignments. Nothing is deleted yet. *)
Lemma update_to_commit_passed env v w :
  result (update_gate env v w) = Ok true →
  let new := PREFIX +:+ v in
  ∃ w1 t,
    update_to_commit env v w
    = (Ok true,
       {| CACHE_NAME := new; CURRENT_VERSION := Some v;
          BASE_PATH := BASE_PATH w1; caches := caches w1 |},
       Opened new :: t ++ [AssignCacheName new; AssignVersion v])
    ∧ Forall is_transfer t
    ∧ keys_of (caches w1) = keys_of (open_cache (caches w) new).
Proof.
  intros Hgate new.
  pose proof (update_gate_run env v w) as H. simpl in H. fold new in H.
  rewrite (gate_needs_open _ _ _ _ Hgate) in H.
  destruct H as (passed & w1 & t & E & Hn & Hv & Hk & Hd & F).
  unfold result in Hgate. rewrite E in Hgate. simpl in Hgate. simplify_eq.
  exists w1, t. split_and!; [|done|done].
  unfold update_to_commit, try_catch, bind. rewrite E. cbn [negb].
  unfold assign_CACHE_NAME, assign_CURRENT_VERSION, ret.
  cbn [fst snd CACHE_NAME CURRENT_VERSION BASE_PATH caches].
  fold new. by rewrite ?app_nil_r.
Qed.

(** The stretch of an update after its suspension, on a storage that
    works: every prefixed name listed then, other than the update's own
    new name, is deleted, and the clients are told of the update. *)
Lemma update_sweep_run env v w :
  keys_rejects (storage env) = false →
  delete_rejects (storage env) = false →
  let new := PREFIX +:+ v in
  update_sweep env v w
  = (Ok tt, set_caches (swept new (caches w)) w,
     Keys :: (Deleted <$> superseded new (keys_of (caches w)))
     ++ ((λ c, PostClient c (CACHE_UPDATED v)) <$> clients env)).
Proof.
  intros Hk Hd new. unfold update_sweep, try_catch, bind, caches_keys.
  rewrite Hk. fold new.
  destruct (deletes_run env (superseded new (keys_of (caches w))) w)
    as (res & -> & Hok & _).
  destruct (Hok Hd) as (l & ->). unfold broadcast.
  by rewrite delete_superseded.
Qed.

Lemma pointer_at_app ptr (l1 l2 : list Event) :
  pointer_at ptr (l1 ++ l2) = pointer_at (pointer_at ptr l1) l2.
Proof. apply foldl_app. Qed.

Lemma pointer_at_kept ptr (l : list Event) :
  (∀ n, AssignCacheName n ∉ l) → pointer_at ptr l = ptr.
Proof.
  revert ptr. induction l as [|e l IH]; intros ptr H; [done|].
  assert (pointer_at ptr l = ptr) as IH'.
  { apply IH. intros n Hn. apply (H n). by right. }
  destruct e; try exact IH'. exfalso. eapply H. by left.
Qed.

(** A trace in which a generation is deleted while the pointer names it
    is not safe. *)
Lemma pointer_unsafe ptr (l1 l2 : list Event) n :
  pointer_at ptr l1 = n → pointer_safe ptr (l1 ++ Deleted n :: l2) = false.
Proof.
  revert ptr. induction l1 as [|e l1 IH]; intros ptr H.
  - cbn in H. subst n. cbn. by rewrite bool_decide_eq_true_2.
  - destruct e; cbn [app pointer_safe]; try (by apply IH).
    rewrite (IH ptr); [apply andb_false_r | done].
Qed.

Lemma generation_names_differ (v1 v2 : string) :
  v1 ≠ v2 → PREFIX +:+ v1 ≠ PREFIX +:+ v2.
Proof. intros H E. apply H. by apply (inj (String.app PREFIX)). Qed.

(** C7, where the code departs from it: two updates in flight. The first
    update reassigns the pointer and is suspended at [await caches.keys()];
    the second runs up to its own suspension, and so reassigns the pointer
    to its generation; the first resumes and deletes every prefixed
    generation other than its own, the one the pointer names now among
    them. Both updates complete and tell the clients of an update, none of
    a failure, and no generation carrying the prefix is left in the
    storage. *)
Theorem overlapping_updates_delete_pointed_generation env v1 v2 w :
  v1 ≠ v2 →
  keys_rejects (storage env) = false →
  delete_rejects (storage env) = false →
  result (update_gate env v1 w) = Ok true →
  result (update_gate env v2 (state (update_to_commit env v1 w))) = Ok true →
  let run := overlapping_updates env v1 v2 w in
  result run = Ok tt
  ∧ (∃ before after,
       trace run = before ++ Deleted (PREFIX +:+ v2) :: after
       ∧ pointer_at (CACHE_NAME w) before = PREFIX +:+ v2)
  ∧ pointer_safe (CACHE_NAME w) (trace run) = false
  ∧ CACHE_NAME (state run) = PREFIX +:+ v2
  ∧ CURRENT_VERSION (state run) = Some v2
  ∧ (∀ n, n ∈ keys_of (caches (state run)) → startsWith n PREFIX = false)
  ∧ (∀ c, c ∈ clients env →
       PostClient c (CACHE_UPDATED v1) ∈ trace run
       ∧ PostClient c (CACHE_UPDATED v2) ∈ trace run)
  ∧ (∀ c e, PostClient c (CACHE_UPDATE_FAILED e) ∉ trace run).
Proof.
  intros Hne Hk Hd G1 G2 run.
  destruct (update_to_commit_passed env v1 w G1) as (wa & ta & E1 & F1 & K1).
  unfold state in G2. rewrite E1 in G2. cbn [fst snd] in G2.
  destruct (update_to_commit_passed env v2 _ G2) as (wb & tb & E2 & F2 & K2).
  cbn [caches] in K2.
  set (new1 := PREFIX +:+ v1) in *. set (new2 := PREFIX +:+ v2) in *.
  set (names := keys_of (caches wb)) in *.
  set (commits :=
         (Opened new1 :: ta ++ [AssignCacheName new1; AssignVersion v1])
         ++ (Opened new2 :: tb ++ [AssignCacheName new2; AssignVersion v2])).
  set (posts v := (λ c, PostClient c (CACHE_UPDATED v)) <$> clients env).
  assert (∃ w' names',
            run = (Ok tt, w',
                   commits
                   ++ (Keys :: (Deleted <$> superseded new1 names) ++ posts v1)
                   ++ (Keys :: (Deleted <$> superseded new2 names') ++ posts v2))
            ∧ CACHE_NAME w' = new2 ∧ CURRENT_VERSION w' = Some v2
            ∧ caches w' = swept new2 (swept new1 (caches wb)))
    as (w' & names' & E & Hn' & Hv' & Hc').
  { eexists _, _. split.
    - unfold run, overlapping_updates, bind. rewrite E1, E2.
      rewrite !update_sweep_run by done. cbn [fst snd caches set_caches].
      unfold ret. unfold commits, posts.
      by rewrite ?app_nil_r, <- ?app_assoc.
    - done. }
  assert (new1 ≠ new2) as Hnew by by apply generation_names_differ.
  assert (new2 ∈ superseded new1 names) as Hin.
  { apply superseded_spec. split_and!; [|apply startsWith_PREFIX|done].
    rewrite K2. apply elem_of_keys_open. }
  apply list_elem_of_split in Hin as (l1 & l2 & Hsplit).
  assert (trace run
          = (commits ++ Keys :: (Deleted <$> l1))
            ++ Deleted new2
               :: ((Deleted <$> l2) ++ posts v1)
                  ++ (Keys :: (Deleted <$> superseded new2 names') ++ posts v2))
    as Htrace.
  { unfold trace. rewrite E, Hsplit. cbn [snd].
    rewrite fmap_app, fmap_cons. by repeat (rewrite <- ?app_assoc; cbn [app]). }
  assert (pointer_at (CACHE_NAME w) (commits ++ Keys :: (Deleted <$> l1)) = new2)
    as Hptr.
  { unfold commits. rewrite !pointer_at_app.
    change (Opened new2 :: tb ++ [AssignCacheName new2; AssignVersion v2])
      with ([Opened new2] ++ tb ++ [AssignCacheName new2] ++ [AssignVersion v2]).
    rewrite !pointer_at_app. cbn [pointer_at foldl].
    apply pointer_at_kept.
    intros n (m & ? & _)%list_elem_of_fmap. done. }
  split_and!.
  - unfold result. by rewrite E.
  - by eexists _, _.
  - rewrite Htrace. by apply pointer_unsafe.
  - unfold state. by rewrite E.
  - unfold state. by rewrite E.
  - intros n. unfold state. rewrite E. cbn [fst snd]. rewrite Hc'.
    intros [[_ [?| ->]]%keys_swept [?| ->]]%keys_swept; done.
  - intros c Hc. unfold trace. rewrite E. cbn [snd]. split.
    + apply elem_of_app. right. apply elem_of_app. left. right.
      apply elem_of_app. right. apply list_elem_of_fmap. by exists c.
    + apply elem_of_app. right. apply elem_of_app. right. right.
      apply elem_of_app. right. apply list_elem_of_fmap. by exists c.
  - intros c e. unfold trace. rewrite E. cbn [snd]. unfold commits, posts.
    rewrite !elem_of_app, !elem_of_cons, !elem_of_app, !list_elem_of_fmap.
    assert (∀ t, Forall is_transfer t → PostClient c (CACHE_UPDATE_FAILED e) ∉ t)
      as Hquiet.
    { intros t F H. by apply (proj1 (Forall_forall _ _) F) in H. }
    pose proof (Hquiet _ F1). pose proof (Hquiet _ F2).
    rewrite !elem_of_cons, !elem_of_nil.
    intros Htr. destruct_or!; try done;
      by destruct Htr as (? & ? & ?).
Qed.

(** C7 at the updates to versions 2 and 3 of a worker at version 1, with
    the site reachable and the storage working. *)
Lemma overlapping_updates_delete_pointed_generation_witness :
  let run := overlapping_updates (kiosk (site "3") healthy) "2" "3" active_v1 in
  result run = Ok tt
  ∧ (∃ before after,
       trace run = before ++ Deleted "totem-cache-3" :: after
       ∧ pointer_at "totem-cache-1" before = "totem-cache-3")
  ∧ pointer_safe "totem-cache-1" (trace run) = false
  ∧ CACHE_NAME (state run) = "totem-cache-3"
  ∧ CURRENT_VERSION (state run) = Some "3"
  ∧ (∀ n, n ∈ keys_of (caches (state run)) → startsWith n PREFIX = false)
  ∧ (∀ c, c ∈ clients (kiosk (site "3") healthy) →
       PostClient c (CACHE_UPDATED "2") ∈ trace run
       ∧ PostClient c (CACHE_UPDATED "3") ∈ trace run)
  ∧ (∀ c e, PostClient c (CACHE_UPDATE_FAILED e) ∉ trace run).
Proof.
  apply (overlapping_updates_delete_pointed_generation
           (kiosk (site "3") healthy) "2" "3" active_v1);
    [done | done | done | by vm_compute | by vm_compute].
Defined.

(** What that schedule leaves: the pointer names the generation of
    version 3, and the storage holds no cache at all. Each update taken
    alone leaves its generation. *)
Lemma overlapping_updates_example :
  let env := kiosk (site "3") healthy in
  let run := overlapping_updates env "2" "3" active_v1 in
  CACHE_NAME (state run) = "totem-cache-3"
  ∧ caches (state run) = []
  ∧ List.filter (λ e, match e with
                      | AssignCacheName _ | Deleted _ | PostClient 1 _ => true
                      | _ => false
                      end) (trace run)
    = [AssignCacheName "totem-cache-2"; AssignCacheName "totem-cache-3";
       Deleted "totem-cache-1"; Deleted "totem-cache-3";
       PostClient 1 (CACHE_UPDATED "2");
       Deleted "totem-cache-2"; PostClient 1 (CACHE_UPDATED "3")]
  ∧ keys_of (caches (state (updateCacheForNewVersion env "2" active_v1)))
    = ["totem-cache-2"]
  ∧ keys_of (caches (state (updateCacheForNewVersion env "3" active_v1)))
    = ["totem-cache-3"].
Proof. by vm_compute. Qed.
